(** * go-spring: property binding and configer ordering

    A shallow embedding of these parts of the repository:

    - [conf/bind.go] with the validator registry: tag parsing
      ([ParseTag], [ParsedTag.String], [BindTag]), placeholder resolution
      ([resolve], [resolveString]) and type-directed binding ([BindValue],
      [bindSlice], [getSlice], [bindMap], [bindStruct], [Validate]);
    - the configer sorter ([sortConfigers], [sortConfigersByAfter],
      [getBeforeConfigers]);
    - the loggers: the registry of named loggers with its [ReplaceAttr]
      hook, and [GetLogger] of [spring-base];
    - [FileResourceLocator.Locate].

    Go strings are byte strings: they are modelled by [string], whose
    characters are the 8-bit [ascii].  Go's [int] indices are [Z]. *)

From Stdlib Require Import ZArith Lia Ascii String DecimalString.
From stdpp Require Import base tactics option list strings gmap relations.

Local Open Scope Z_scope.

(** ** The functions of Go's [strings] package the code calls *)

Module GoStrings.

Definition len (s : string) : Z := Z.of_nat (String.length s).

Fixpoint HasPrefix (s prefix : string) : bool :=
  match prefix, s with
  | EmptyString, _ => true
  | String a p, String b s' => if Ascii.eqb a b then HasPrefix s' p else false
  | String _ _, EmptyString => false
  end.

(** [strings.Index]: the first byte offset at which [sep] occurs, or -1. *)
Fixpoint Index (s sep : string) : Z :=
  if HasPrefix s sep then 0
  else match s with
       | EmptyString => -1
       | String _ s' => let r := Index s' sep in if r <? 0 then -1 else 1 + r
       end.

(** [strings.LastIndex]: the last byte offset at which [sep] occurs, or -1. *)
Fixpoint LastIndex (s sep : string) : Z :=
  match s with
  | EmptyString => if HasPrefix s sep then 0 else -1
  | String _ s' =>
      let r := LastIndex s' sep in
      if 0 <=? r then 1 + r else if HasPrefix s sep then 0 else -1
  end.

Fixpoint take (n : nat) (s : string) : string :=
  match n, s with
  | S n', String c s' => String c (take n' s')
  | _, _ => EmptyString
  end.

Fixpoint drop (n : nat) (s : string) : string :=
  match n, s with
  | S n', String _ s' => drop n' s'
  | _, _ => s
  end.

(** The slice expression [s[lo:hi]]; [None] is the run-time panic
    "slice bounds out of range". *)
Definition slice (s : string) (lo hi : Z) : option string :=
  if (0 <=? lo) && (lo <=? hi) && (hi <=? len s)
  then Some (take (Z.to_nat (hi - lo)) (drop (Z.to_nat lo) s))
  else None.

(** [s[lo:]] *)
Definition sliceFrom (s : string) (lo : Z) : option string := slice s lo (len s).

(** [s[:hi]] *)
Definition sliceTo (s : string) (hi : Z) : option string := slice s 0 hi.

(** [strings.SplitN(s, sep, 2)] for a non-empty [sep]: the part before the
    first [sep], and the part after it when there is one. *)
Definition SplitN2 (s sep : string) : string * option string :=
  let m := Index s sep in
  if m <? 0 then (s, None)
  else (take (Z.to_nat m) s, Some (drop (Z.to_nat (m + len sep)) s)).

(** [strings.Split(s, sep)] for a one-byte separator. *)
Fixpoint Split (s : string) (sep : ascii) : list string :=
  match s with
  | EmptyString => [EmptyString]
  | String c s' =>
      if Ascii.eqb c sep then EmptyString :: Split s' sep
      else match Split s' sep with
           | x :: r => String c x :: r
           | [] => [String c EmptyString]
           end
  end.

(** [strings.TrimSpace] removes the leading and trailing runes with the
    Unicode White_Space property.  On the UTF-8 bytes these are the six
    ASCII characters and the encodings of U+0085, U+00A0, U+1680,
    U+2000..U+200A, U+2028, U+2029, U+202F, U+205F and U+3000. *)
Definition isAsciiSpace (c : ascii) : bool :=
  let n := nat_of_ascii c in
  ((9 <=? n)%nat && (n <=? 13)%nat) || (n =? 32)%nat.

Definition isSpace2 (a b : ascii) : bool :=
  (nat_of_ascii a =? 194)%nat
  && ((nat_of_ascii b =? 133)%nat || (nat_of_ascii b =? 160)%nat).

Definition isSpace3 (a b c : ascii) : bool :=
  let x := nat_of_ascii a in
  let y := nat_of_ascii b in
  let z := nat_of_ascii c in
  ((x =? 225) && (y =? 154) && (z =? 128))%nat
  || ((x =? 226) && (y =? 128)
      && (((128 <=? z) && (z <=? 138)) || (z =? 168) || (z =? 169) || (z =? 175)))%nat
  || ((x =? 226) && (y =? 129) && (z =? 159))%nat
  || ((x =? 227) && (y =? 128) && (z =? 128))%nat.

Fixpoint TrimLeftSpace (s : string) : string :=
  match s with
  | EmptyString => s
  | String a s1 =>
      if isAsciiSpace a then TrimLeftSpace s1
      else match s1 with
           | EmptyString => s
           | String b s2 =>
               if isSpace2 a b then TrimLeftSpace s2
               else match s2 with
                    | EmptyString => s
                    | String c s3 =>
                        if isSpace3 a b c then TrimLeftSpace s3 else s
                    end
           end
  end.

Fixpoint revOnto (s acc : string) : string :=
  match s with
  | EmptyString => acc
  | String c s' => revOnto s' (String c acc)
  end.

(** The same on the reversed string, for the trailing end. *)
Fixpoint TrimLeftSpaceRev (s : string) : string :=
  match s with
  | EmptyString => s
  | String a s1 =>
      if isAsciiSpace a then TrimLeftSpaceRev s1
      else match s1 with
           | EmptyString => s
           | String b s2 =>
               if isSpace2 b a then TrimLeftSpaceRev s2
               else match s2 with
                    | EmptyString => s
                    | String c s3 =>
                        if isSpace3 c b a then TrimLeftSpaceRev s3 else s
                    end
           end
  end.

Definition TrimSpace (s : string) : string :=
  TrimLeftSpace (revOnto (TrimLeftSpaceRev (revOnto s EmptyString)) EmptyString).

End GoStrings.

Import GoStrings.

(** ** Errors and results *)

(** Go [error] values.  [errNotExist] and [errInvalidSyntax] are the two
    package-level sentinels; [Errorf] is [errors.New] or a [fmt.Errorf]
    without [%w]; [Errorw] is a [fmt.Errorf] whose format ends in [%w] and
    which therefore wraps [wrapped]. *)
Inductive error : Type :=
  | errNotExist
  | errInvalidSyntax
  | Errorf (format : string) (args : list string)
  | Errorw (format : string) (args : list string) (wrapped : error).

(** [errors.Is(err, errNotExist)]: follow the [Unwrap] chain. *)
Fixpoint isNotExist (e : error) : bool :=
  match e with
  | errNotExist => true
  | Errorw _ _ w => isNotExist w
  | _ => false
  end.

(** The outcome of a call: a value, a returned [error], a run-time panic,
    or the recursion budget of the model used up (the Go code would still
    be running). *)
Inductive res (A : Type) : Type :=
  | Ok (a : A)
  | Err (e : error)
  | Panic
  | OutOfFuel.
Arguments Ok {A} a.
Arguments Err {A} e.
Arguments Panic {A}.
Arguments OutOfFuel {A}.

(** ** Tags *)

(** [ParsedTag]: [${key:=value}||splitter]. *)
Record ParsedTag : Type := mkTag {
  Key : string;
  Def : string;
  HasDef : bool;
  Splitter : string;
}.

Definition zeroTag : ParsedTag := mkTag "" "" false "".

Definition nonEmpty (s : string) : bool :=
  match s with EmptyString => false | String _ _ => true end.

(** [func (tag ParsedTag) String() string] *)
Definition ParsedTag_String (tag : ParsedTag) : string :=
  "${" +:+ Key tag
  +:+ (if HasDef tag then ":=" +:+ Def tag else "")
  +:+ "}"
  +:+ (if nonEmpty (Splitter tag) then "||" +:+ Splitter tag else "").

Definition parseTagError (tag : string) : error :=
  Errorw "parse tag '%s' error: %w" [tag] errInvalidSyntax.

(** [func ParseTag(tag string) (ret ParsedTag, err error)] *)
Definition ParseTag (tag : string) : res ParsedTag :=
  let i := LastIndex tag "||" in
  if i =? 0 then Err (parseTagError tag)
  else
    let j := LastIndex tag "}" in
    if j <=? 0 then Err (parseTagError tag)
    else
      let k := Index tag "${" in
      if k <? 0 then Err (parseTagError tag)
      else
        match (if j <? i then TrimSpace <$> sliceFrom tag (i + 2)
               else Some EmptyString) with
        | None => Panic
        | Some splitter =>
            match slice tag (k + 2) j with
            | None => Panic
            | Some body =>
                match SplitN2 body ":=" with
                | (key, Some def) => Ok (mkTag key def true splitter)
                | (key, None) => Ok (mkTag key "" false splitter)
                end
            end
        end.

(** [BindParam]; the Go fields are [Key], [Path], [Tag] and [Validate].
    [Validate] is a [reflect.StructTag], a string. *)
Record BindParam : Type := mkParam {
  ParamKey : string;
  ParamPath : string;
  ParamTag : ParsedTag;
  ParamValidate : string;
}.

Definition zeroParam : BindParam := mkParam "" "" zeroTag "".

(** [func (param *BindParam) BindTag(tag string, validate reflect.StructTag) error]:
    the updated [param], or the error with [param] left as it was. *)
Definition BindTag (param : BindParam) (tag validate : string) : res BindParam :=
  match ParseTag tag with
  | Ok parsedTag =>
      let parsedTag :=
        if String.eqb (Key parsedTag) "ROOT"
        then mkTag "" (Def parsedTag) (HasDef parsedTag) (Splitter parsedTag)
        else if String.eqb (Key parsedTag) ""
        then mkTag "ANONYMOUS" (Def parsedTag) (HasDef parsedTag) (Splitter parsedTag)
        else parsedTag in
      let key :=
        if String.eqb (ParamKey param) "" then Key parsedTag
        else if negb (String.eqb (Key parsedTag) "")
        then ParamKey param +:+ "." +:+ Key parsedTag
        else ParamKey param in
      Ok (mkParam key (ParamPath param) parsedTag validate)
  | Err e => Err e
  | Panic => Panic
  | OutOfFuel => OutOfFuel
  end.

(** ** The property store *)

(** [Properties] and its [storage] are not among the sources under
    verification; the binder uses exactly the methods below, which are
    taken as an interface.  [Has] and [Get] are the methods of
    [*Properties], [storage_Has], [storage_Get] and [storage_SubKeys] those
    of its [storage] field, [New] is the constructor and [store] is
    [p.store(k, v)], whose error the binder discards. *)
Class Storage (Properties : Type) : Type := {
  Has : Properties → string → bool;
  Get : Properties → string → string;
  storage_Has : Properties → string → bool;
  storage_Get : Properties → string → string;
  storage_SubKeys : Properties → string → res (list string);
  New : Properties;
  store : Properties → string → string → Properties;
}.

(** ** Placeholder resolution *)

(** The loop of [resolveString]: [rest] is [s[i:]]; the result is
    [(count, start, end)] when the loop is left, by [break] or at the end
    of the string. *)
Fixpoint scan (rest : string) (i count start : Z) : Z * Z * Z :=
  match rest with
  | EmptyString => (count, start, -1)
  | String c rest' =>
      if Ascii.eqb c "$" then
        match rest' with
        | String c' _ =>
            if Ascii.eqb c' "{"
            then scan rest' (i + 1) (count + 1) (if count =? 0 then i else start)
            else scan rest' (i + 1) count start
        | EmptyString => scan rest' (i + 1) count start
        end
      else if Ascii.eqb c "}" then
        if 0 <? count then
          if count - 1 =? 0 then (count - 1, start, i)
          else scan rest' (i + 1) (count - 1) start
        else scan rest' (i + 1) count start
      else scan rest' (i + 1) count start
  end.

Definition resolveStringError (s : string) (e : error) : error :=
  Errorw "resolve string %q error: %w" [s] e.

Definition propertyNotExist (key : string) : error :=
  Errorw "property %q: %w" [key] errNotExist.

Section Resolve.
Context {Properties : Type} `{HS : !Storage Properties}.

(** The body of [resolve]; [resolveString] is the function it calls on
    the stored value and on the default. *)
Definition resolveWith (resolveString : string → res string)
    (p : Properties) (param : BindParam) : res string :=
  let val := storage_Get p (ParamKey param) in
  if nonEmpty val then resolveString val
  else if HasDef (ParamTag param) then resolveString (Def (ParamTag param))
  else if storage_Has p (ParamKey param) then Ok EmptyString
  else Err (propertyNotExist (ParamKey param)).

(** [func resolveString(p *Properties, s string) (string, error)].  A
    stored value may refer to itself, so the Go recursion need not end:
    [fuel] bounds the depth of the calls. *)
Fixpoint resolveString (fuel : nat) (p : Properties) (s : string) : res string :=
  match fuel with
  | O => OutOfFuel
  | S fuel' =>
      let '(count, start, end_) := scan s 0 0 (-1) in
      if start <? 0 then Ok s
      else if (end_ <? 0) || (0 <? count)
      then Err (resolveStringError s errInvalidSyntax)
      else
        match slice s start (end_ + 1) with
        | None => Panic
        | Some tag =>
            match (match BindTag zeroParam tag "" with
                   | Ok param => Some param
                   | Err _ => Some zeroParam
                   | Panic | OutOfFuel => None
                   end) with
            | None => Panic
            | Some param =>
                match resolveWith (resolveString fuel' p) p param with
                | Ok s1 =>
                    match sliceFrom s (end_ + 1) with
                    | None => Panic
                    | Some rest =>
                        match resolveString fuel' p rest with
                        | Ok s2 =>
                            match sliceTo s start with
                            | None => Panic
                            | Some pre => Ok (pre +:+ s1 +:+ s2)
                            end
                        | Err e => Err (resolveStringError s e)
                        | Panic => Panic
                        | OutOfFuel => OutOfFuel
                        end
                    end
                | Err e => Err (resolveStringError s e)
                | Panic => Panic
                | OutOfFuel => OutOfFuel
                end
            end
        end
  end.

(** [func resolve(p *Properties, param BindParam) (string, error)] *)
Definition resolve (fuel : nat) (p : Properties) (param : BindParam) : res string :=
  resolveWith (resolveString fuel p) p param.

End Resolve.

(** A flat store, [key -> string], as the concrete store of the examples:
    an absent key reads as the empty string. *)
Definition flatSubKeys (m : gmap string string) (prefix : string) : list string :=
  omap (λ k, if HasPrefix k (prefix +:+ ".")
             then Some (drop (String.length prefix + 1) k) else None)
       (map_to_list m).*1.

#[global] Instance flatStorage : Storage (gmap string string) := {|
  Has m k := bool_decide (is_Some (m !! k));
  Get m k := default EmptyString (m !! k);
  storage_Has m k := bool_decide (is_Some (m !! k));
  storage_Get m k := default EmptyString (m !! k);
  storage_SubKeys m k := Ok (flatSubKeys m k);
  New := ∅;
  store m k v := <[k := v]> m;
|}.

(** ** Target types and values *)

#[local] Set Warnings "-register-all".

(** The kinds of [reflect.Kind] other than [Array], [Map], [Slice] and
    [Struct], which are constructors of [Ty]. *)
Inductive Kind : Type :=
  | Bool
  | Int | Int8 | Int16 | Int32 | Int64
  | Uint | Uint8 | Uint16 | Uint32 | Uint64 | Uintptr
  | Float32 | Float64
  | Complex64 | Complex128
  | Chan | Func | Interface | Pointer
  | String_
  | UnsafePointer.

(** A [reflect.Type], as far as the binder looks into it.  [name] is what
    tells two types of one shape apart (the converter registry is keyed by
    type).  [keyIsString] says whether a [string] is assignable to the key
    type of the map. *)
Inductive Ty : Type :=
  | Scalar (name : string) (k : Kind)
  | SliceOf (name : string) (elem : Ty)
  | ArrayOf (name : string) (size : nat) (elem : Ty)
  | MapOf (name : string) (keyIsString : bool) (elem : Ty)
  | StructOf (name : string) (fields : list Field)
with Field : Type :=
  | mkField (Name : string) (Tag : string) (Anonymous : bool) (Type_ : Ty).

Definition Name (f : Field) : string := let '(mkField n _ _ _) := f in n.
Definition Tag (f : Field) : string := let '(mkField _ t _ _) := f in t.
Definition Anonymous (f : Field) : bool := let '(mkField _ _ a _) := f in a.
Definition Type_ (f : Field) : Ty := let '(mkField _ _ _ t) := f in t.

(** [t.String()] *)
Definition Ty_String (t : Ty) : string :=
  match t with
  | Scalar n _ | SliceOf n _ | ArrayOf n _ _ | MapOf n _ _ | StructOf n _ => n
  end.

(** Go values.  Integers are the numbers they denote, a float is its
    IEEE-754 bit pattern, [VNil] is the nil slice, map, pointer, interface,
    channel or function, and [VOther] is a value of a type the binder does
    not look into. *)
Inductive Value : Type :=
  | VBool (b : bool)
  | VInt (i : Z)
  | VUint (u : Z)
  | VFloat (bits : Z)
  | VString (s : string)
  | VSlice (elems : list Value)
  | VArray (elems : list Value)
  | VMap (entries : gmap string Value)
  | VStruct (fields : list Value)
  | VNil
  | VOther (repr : string).

(** [reflect.New(t).Elem()], the zero value of [t]. *)
Fixpoint zero (t : Ty) : Value :=
  match t with
  | Scalar _ k =>
      match k with
      | Bool => VBool false
      | Int | Int8 | Int16 | Int32 | Int64 => VInt 0
      | Uint | Uint8 | Uint16 | Uint32 | Uint64 | Uintptr => VUint 0
      | Float32 | Float64 => VFloat 0
      | String_ => VString EmptyString
      | Complex64 | Complex128 => VOther "(0+0i)"
      | Chan | Func | Interface | Pointer | UnsafePointer => VNil
      end
  | SliceOf _ _ => VNil
  | ArrayOf _ n e => VArray (replicate n (zero e))
  | MapOf _ _ _ => VNil
  | StructOf _ fs => VStruct (map (λ f, let '(mkField _ _ _ ft) := f in zero ft) fs)
  end.

(** ** What the binder takes from outside [bind.go] *)

(** The result of [expr.Eval]: a boolean, or a value of another type. *)
Inductive EvalResult : Type :=
  | EvalBool (b : bool)
  | EvalOther.

(** A [Validator]: its [Field] method, [None] for a nil error. *)
Definition Validator : Type := string → Value → option error.

(** What the binder calls outside the repository.  [intSize] is the width
    of [int] and [uint] on the platform.  [ParseUint s] is
    [strconv.ParseUint(s, 0, 0)], [ParseInt s] is [strconv.ParseInt(s, 0, 0)],
    [ParseFloat s] is [strconv.ParseFloat(s, 64)], [toFloat32] rounds a
    float64 to float32, [Lookup tag name] is [reflect.StructTag.Lookup],
    [Sprint] formats a value as [%v] does, [exprEval] is [expr.Eval] with
    [$] bound to the value.  [IsValueType] and [IsPrimitiveValueType] are
    those of the [utils] package, which is not among the sources. *)
Class Externals : Type := {
  intSize : Z;
  ParseUint : string → res Z;
  ParseInt : string → res Z;
  ParseFloat : string → res Z;
  toFloat32 : Z → Z;
  Lookup : string → string → option string;
  Sprint : Value → string;
  exprEval : string → Value → res EvalResult;
  IsValueType : Ty → bool;
  IsPrimitiveValueType : Ty → bool;
}.

(** The package-level registries.  [validators] lists the registry in the
    order in which the [range] over the Go map visits it, an order Go leaves
    unspecified. *)
Class Registries : Type := {
  converters : Ty → option (string → res Value);
  splitters : string → option (string → res (list string));
  validators : list (string * Validator);
}.

(** [strconv.ParseBool] *)
Definition ParseBool (str : string) : res bool :=
  if bool_decide (str ∈ ["1"; "t"; "T"; "TRUE"; "true"; "True"]) then Ok true
  else if bool_decide (str ∈ ["0"; "f"; "F"; "FALSE"; "false"; "False"]) then Ok false
  else Err (Errorf "strconv.ParseBool: parsing %q: invalid syntax" [str]).

(** The outcome of binding into a target: the value the target holds when
    the call returns, and what the call returned. *)
Definition bound : Type := Value * res ().

(** A [Filter] receives the address of the field, so it may assign to the
    field: it yields the field's value after the call and its results. *)
Definition Filter : Type := Value → BindParam → Value * res bool.

Definition bindError (path : string) (e : error) : error :=
  Errorw "bind %s error: %w" [path] e.

Definition validateError (path : string) (e : error) : error :=
  Errorw "validate %s error: %w" [path] e.

(** [fmt.Sprintf("%s[%d]", key, i)] *)
Definition indexed (key : string) (i : nat) : string :=
  key +:+ "[" +:+ NilEmpty.string_of_uint (Nat.to_uint i) +:+ "]".

(** Two's-complement truncation to [w] bits, as [SetUint] and [SetInt] do. *)
Definition wrapU (w u : Z) : Z := u mod 2 ^ w.
Definition wrapS (w i : Z) : Z := (i + 2 ^ (w - 1)) mod 2 ^ w - 2 ^ (w - 1).

Section Bind.
Context {Properties : Type} `{HS : !Storage Properties}
  `{HE : !Externals} `{HR : !Registries}.

(** *** Validation *)

(** [func (d exprValidator) Field(tag string, i interface{}) error]; a
    panic of the evaluator is not modelled. *)
Definition exprValidator_Field : Validator := λ tag i,
  match exprEval tag i with
  | Err err => Some (Errorw "eval %q returns: %w" [tag] err)
  | Ok (EvalBool true) => None
  | Ok (EvalBool false) =>
      Some (Errorf "validate failed on %q for value %v" [tag; Sprint i])
  | Ok EvalOther => Some (Errorf "eval %q doesn't return bool" [tag])
  | Panic | OutOfFuel => Some (Errorf "eval %q doesn't return bool" [tag])
  end.

(** The loop of [Validate] over the entries the [range] yields. *)
Fixpoint ValidateIn (vs : list (string * Validator)) (tag : string) (i : Value)
    : option error :=
  match vs with
  | [] => None
  | (name, v) :: vs' =>
      match Lookup tag name with
      | Some s =>
          match v s i with
          | Some err => Some err
          | None => ValidateIn vs' tag i
          end
      | None => ValidateIn vs' tag i
      end
  end.

(** [func Validate(tag reflect.StructTag, i interface{}) error] *)
Definition Validate (tag : string) (i : Value) : option error :=
  ValidateIn validators tag i.

(** *** Leaves *)

Definition bitsOf (k : Kind) : Z :=
  match k with
  | Int8 | Uint8 => 8
  | Int16 | Uint16 => 16
  | Int32 | Uint32 | Float32 => 32
  | Int64 | Uint64 | Float64 => 64
  | _ => intSize
  end.

(** Validate the converted value [c]; assign [stored] to the target when
    it passes. *)
Definition validateAndSet (v : Value) (param : BindParam) (c stored : Value) : bound :=
  match Validate (ParamValidate param) c with
  | Some err => (v, Err (validateError (ParamPath param) err))
  | None => (stored, Ok ())
  end.

(** The [switch v.Kind()] at the end of [BindValue], on the resolved
    string [val]. *)
Definition bindKind (v : Value) (t : Ty) (k : Kind) (param : BindParam)
    (val : string) : bound :=
  let failed {A} (r : res A) : bound :=
    match r with
    | Err err => (v, Err (bindError (ParamPath param) err))
    | Panic => (v, Panic)
    | _ => (v, OutOfFuel)
    end in
  match k with
  | Uint | Uint8 | Uint16 | Uint32 | Uint64 =>
      match ParseUint val with
      | Ok u => validateAndSet v param (VUint u) (VUint (wrapU (bitsOf k) u))
      | r => failed r
      end
  | Int | Int8 | Int16 | Int32 | Int64 =>
      match ParseInt val with
      | Ok i => validateAndSet v param (VInt i) (VInt (wrapS (bitsOf k) i))
      | r => failed r
      end
  | Float32 | Float64 =>
      match ParseFloat val with
      | Ok f =>
          validateAndSet v param (VFloat f)
            (VFloat (match k with Float32 => toFloat32 f | _ => f end))
      | r => failed r
      end
  | Bool =>
      match ParseBool val with
      | Ok b => validateAndSet v param (VBool b) (VBool b)
      | r => failed r
      end
  | String_ => validateAndSet v param (VString val) (VString val)
  | _ =>
      (v, Err (bindError (ParamPath param)
                 (Errorf "unsupported bind type %q" [Ty_String t])))
  end.

(** The part of [BindValue] after the dispatch on maps, slices, arrays
    and structs: resolve the string, then convert, validate and assign. *)
Definition bindLeaf (fuel : nat) (p : Properties) (v : Value) (t : Ty)
    (param : BindParam) : bound :=
  match resolve fuel p param with
  | Err err => (v, Err (bindError (ParamPath param) err))
  | Panic => (v, Panic)
  | OutOfFuel => (v, OutOfFuel)
  | Ok val =>
      match converters t with
      | Some fn =>
          match fn val with
          | Ok out => validateAndSet v param out out
          | Err err => (v, Err (bindError (ParamPath param) err))
          | Panic => (v, Panic)
          | OutOfFuel => (v, OutOfFuel)
          end
      | None =>
          match t with
          | Scalar _ k => bindKind v t k param val
          | _ =>
              (v, Err (bindError (ParamPath param)
                         (Errorf "unsupported bind type %q" [Ty_String t])))
          end
      end
  end.

(** *** Slices *)

Definition storeAll (key : string) (arrVal : list string) : Properties :=
  foldl (λ p '(i, s), store p (indexed key i) s) New (imap pair arrVal).

(** [func getSlice(p, et, param)]: the store to read the elements from,
    [None] for a nil store. *)
Definition getSlice (p : Properties) (et : Ty) (param : BindParam)
    : res (option Properties) :=
  let split (strVal : string) : res (option Properties) :=
    if negb (nonEmpty strVal) then Ok None
    else
      let s := Splitter (ParamTag param) in
      if negb (nonEmpty s) then
        Ok (Some (storeAll (ParamKey param) (TrimSpace <$> Split strVal ",")))
      else
        match splitters s with
        | Some fn =>
            match fn strVal with
            | Ok arrVal => Ok (Some (storeAll (ParamKey param) arrVal))
            | Err err => Err (Errorw "split error: %w" [] err)
            | Panic => Panic
            | OutOfFuel => OutOfFuel
            end
        | None => Err (Errorf "error splitter '%s'" [s])
        end in
  if Has p (ParamKey param +:+ "[0]") then Ok (Some p)
  else if Has p (ParamKey param) then split (Get p (ParamKey param))
  else if negb (HasDef (ParamTag param))
  then Err (propertyNotExist (ParamKey param))
  else if negb (nonEmpty (Def (ParamTag param))) then Ok None
  else if negb (IsPrimitiveValueType et) && negb (bool_decide (is_Some (converters et)))
  then Err (Errorf "slice can't have a non empty default value" [])
  else split (Def (ParamTag param)).

(** The [for i := 0; ; i++] loop of [bindSlice], from index [i] with
    [slice] collected so far.  [BindValue] is the function bound to the
    elements; the loop has no bound of its own, so [fuel] counts its
    rounds. *)
Fixpoint sliceLoop (BindValue : Properties → Value → Ty → BindParam → option Filter → bound)
    (fuel : nat) (p : Properties) (et : Ty) (param : BindParam)
    (filter : option Filter) (i : nat) (slice : list Value) : res (list Value) :=
  match fuel with
  | O => OutOfFuel
  | S fuel' =>
      let subParam :=
        mkParam (indexed (ParamKey param) i) (indexed (ParamPath param) i) zeroTag "" in
      match BindValue p (zero et) et subParam filter with
      | (e, Ok _) => sliceLoop BindValue fuel' p et param filter (S i) (slice ++ [e])
      | (_, Err err) =>
          if isNotExist err then Ok slice
          else Err (bindError (ParamPath param) err)
      | (_, Panic) => Panic
      | (_, OutOfFuel) => OutOfFuel
      end
  end.

(** [func bindSlice(p, v, t, param, filter) error], for [t] a slice of [et]. *)
Definition bindSliceWith (BindValue : Properties → Value → Ty → BindParam → option Filter → bound)
    (fuel : nat) (p : Properties) (v : Value) (et : Ty) (param : BindParam)
    (filter : option Filter) : bound :=
  match getSlice p et param with
  | Err err => (v, Err (bindError (ParamPath param) err))
  | Panic => (v, Panic)
  | OutOfFuel => (v, OutOfFuel)
  | Ok None => (VSlice [], Ok ())
  | Ok (Some p') =>
      match sliceLoop BindValue fuel p' et param filter 0 [] with
      | Ok slice =>
          match Validate (ParamValidate param) (VSlice slice) with
          | Some err => (v, Err (validateError (ParamPath param) err))
          | None => (VSlice slice, Ok ())
          end
      | Err err => (v, Err err)
      | Panic => (v, Panic)
      | OutOfFuel => (v, OutOfFuel)
      end
  end.

(** *** Maps *)

(** The [for _, key := range keys] loop of [bindMap] with [ret] built so
    far. *)
Fixpoint mapLoop (BindValue : Properties → Value → Ty → BindParam → option Filter → bound)
    (p : Properties) (keyIsString : bool) (et : Ty) (param : BindParam)
    (filter : option Filter) (keys : list string) (ret : gmap string Value)
    : res (gmap string Value) :=
  match keys with
  | [] => Ok ret
  | key :: keys' =>
      let subKey :=
        if nonEmpty (ParamKey param) then ParamKey param +:+ "." +:+ key else key in
      let subParam := mkParam subKey (ParamPath param) zeroTag "" in
      match BindValue p (zero et) et subParam filter with
      | (e, Ok _) =>
          if keyIsString
          then mapLoop BindValue p keyIsString et param filter keys' (<[key := e]> ret)
          else Panic
      | (_, Err err) => Err (bindError (ParamPath param) err)
      | (_, Panic) => Panic
      | (_, OutOfFuel) => OutOfFuel
      end
  end.

(** [func bindMap(p, v, t, param, filter) error], for [t] a map to [et]. *)
Definition bindMapWith (BindValue : Properties → Value → Ty → BindParam → option Filter → bound)
    (p : Properties) (v : Value) (keyIsString : bool) (et : Ty)
    (param : BindParam) (filter : option Filter) : bound :=
  if HasDef (ParamTag param) && nonEmpty (Def (ParamTag param)) then
    (v, Err (bindError (ParamPath param)
               (Errorf "map can't have a non empty default value" [])))
  else
    match storage_SubKeys p (ParamKey param) with
    | Err err => (v, Err (bindError (ParamPath param) err))
    | Panic => (v, Panic)
    | OutOfFuel => (v, OutOfFuel)
    | Ok keys =>
        match mapLoop BindValue p keyIsString et param filter keys ∅ with
        | Ok ret =>
            match Validate (ParamValidate param) (VMap ret) with
            | Some err => (v, Err (validateError (ParamPath param) err))
            | None => (VMap ret, Ok ())
            end
        | Err err => (v, Err err)
        | Panic => (v, Panic)
        | OutOfFuel => (v, OutOfFuel)
        end
    end.

(** *** Structs *)

(** The loop of [bindStruct] over the fields from index [i]; [vs] are the
    field values of the target, assigned to as the loop goes. *)
Fixpoint structLoop
    (BindValue bindStruct : Properties → Value → Ty → BindParam → option Filter → bound)
    (p : Properties) (param : BindParam) (filter : option Filter)
    (fields : list Field) (i : nat) (vs : list Value) : list Value * res () :=
  match fields with
  | [] => (vs, Ok ())
  | ft :: fields' =>
      let continue (vs : list Value) :=
        structLoop BindValue bindStruct p param filter fields' (S i) vs in
      let assign (b : bound) : list Value * res () :=
        match b with
        | (fv, Ok _) => continue (<[i := fv]> vs)
        | (fv, Err err) => (<[i := fv]> vs, Err (bindError (ParamPath param) err))
        | (fv, Panic) => (<[i := fv]> vs, Panic)
        | (fv, OutOfFuel) => (<[i := fv]> vs, OutOfFuel)
        end in
      match vs !! i with
      | None => (vs, Panic)
      | Some fv =>
          let subParam :=
            mkParam (ParamKey param) (ParamPath param +:+ "." +:+ Name ft) zeroTag "" in
          match Lookup (Tag ft) "value" with
          | Some tag =>
              match BindTag subParam tag (Tag ft) with
              | Err err => (vs, Err (bindError (ParamPath param) err))
              | Panic | OutOfFuel => (vs, Panic)
              | Ok subParam =>
                  match filter with
                  | Some f =>
                      match f fv subParam with
                      | (fv, Err err) =>
                          (<[i := fv]> vs, Err (bindError (ParamPath param) err))
                      | (fv, Panic) | (fv, OutOfFuel) => (<[i := fv]> vs, Panic)
                      | (fv, Ok true) => continue (<[i := fv]> vs)
                      | (fv, Ok false) =>
                          assign (BindValue p fv (Type_ ft) subParam filter)
                      end
                  | None => assign (BindValue p fv (Type_ ft) subParam filter)
                  end
              end
          | None =>
              if Anonymous ft then
                match Type_ ft with
                | StructOf _ _ => assign (bindStruct p fv (Type_ ft) subParam filter)
                | _ => continue vs
                end
              else if IsValueType (Type_ ft) then
                let key :=
                  if nonEmpty (ParamKey subParam)
                  then ParamKey subParam +:+ "." +:+ Name ft else Name ft in
                assign (BindValue p fv (Type_ ft)
                          (mkParam key (ParamPath subParam) zeroTag "") filter)
              else continue vs
          end
      end
  end.

Definition bindStructWith
    (BindValue bindStruct : Properties → Value → Ty → BindParam → option Filter → bound)
    (p : Properties) (v : Value) (t : Ty) (param : BindParam)
    (filter : option Filter) : bound :=
  if HasDef (ParamTag param) && nonEmpty (Def (ParamTag param)) then
    (v, Err (bindError (ParamPath param)
               (Errorf "struct can't have a non empty default value" [])))
  else
    match t, v with
    | StructOf _ fields, VStruct vs =>
        let '(vs', r) := structLoop BindValue bindStruct p param filter fields 0 vs in
        (VStruct vs', r)
    | _, _ => (v, Panic)
    end.

(** *** The dispatch *)

(** [func BindValue(p, v, t, param, filter) error] and
    [func bindStruct(p, v, t, param, filter) error].  [t] is the type of
    [v], whose kind is what [v.Kind()] returns.  [fuel] bounds the depth
    of the calls and the rounds of the slice loop. *)
Fixpoint BindValue (fuel : nat) (p : Properties) (v : Value) (t : Ty)
    (param : BindParam) (filter : option Filter) {struct fuel} : bound :=
  match fuel with
  | O => (v, OutOfFuel)
  | S fuel' =>
      if negb (IsValueType t) then
        (v, Err (bindError (ParamPath param) (Errorf "target should be value type" [])))
      else
        match t with
        | MapOf _ keyIsString et =>
            bindMapWith (BindValue fuel') p v keyIsString et param filter
        | SliceOf _ et => bindSliceWith (BindValue fuel') fuel' p v et param filter
        | ArrayOf _ _ _ =>
            (v, Err (bindError (ParamPath param)
                       (Errorf "use slice instead of array" [])))
        | StructOf _ _ =>
            match converters t with
            | None => bindStruct fuel' p v t param filter
            | Some _ => bindLeaf fuel' p v t param
            end
        | Scalar _ _ => bindLeaf fuel' p v t param
        end
  end
with bindStruct (fuel : nat) (p : Properties) (v : Value) (t : Ty)
    (param : BindParam) (filter : option Filter) {struct fuel} : bound :=
  match fuel with
  | O => (v, OutOfFuel)
  | S fuel' =>
      bindStructWith (BindValue fuel') (bindStruct fuel') p v t param filter
  end.

(** [bindSlice] and [bindMap] as [BindValue] calls them. *)
Definition bindSlice (fuel : nat) (p : Properties) (v : Value) (et : Ty)
    (param : BindParam) (filter : option Filter) : bound :=
  bindSliceWith (BindValue fuel) fuel p v et param filter.

Definition bindMap (fuel : nat) (p : Properties) (v : Value) (keyIsString : bool)
    (et : Ty) (param : BindParam) (filter : option Filter) : bound :=
  bindMapWith (BindValue fuel) p v keyIsString et param filter.

End Bind.

(** ** Ordering the configers *)

(** A [Configer], as far as the sorter reads it: its name and the names it
    has to run before and after. *)
Record Configer : Type := mkConfiger {
  name : string;
  before : list string;
  after : list string;
}.

(** What a call leaves behind: its result, the [panic(fmt.Errorf(...))] of a
    cycle with the text of the error, the nil dereference of
    [toSort.Remove(toSort.Front())] on an empty list, or the budget of the
    model used up. *)
Inductive outcome (A : Type) : Type :=
  | Done (a : A)
  | PanicError (msg : string)
  | PanicNil
  | NoFuel.
Arguments Done {A} a.
Arguments PanicError {A} msg.
Arguments PanicNil {A}.
Arguments NoFuel {A}.

Section Sort.
(** The lists hold [*Configer]: [Ptr] is the type of these pointers, [==]
    on them is [decide], and [deref] reads the heap. *)
Context {Ptr : Type} `{!EqDecision Ptr} (deref : Ptr → Configer).

(** The three [*list.List] the sorter works on. *)
Record lists : Type := mkLists {
  toSort : list Ptr;
  sorted : list Ptr;
  processing : list Ptr;
}.

(** [func getBeforeConfigers(configers *list.List, current *Configer) *list.List] *)
Definition getBeforeConfigers (configers : list Ptr) (current : Ptr) : list Ptr :=
  c ← configers;
  (nm ← before (deref c);
   if String.eqb (name (deref current)) nm then [c] else [])
  ++ (nm ← after (deref current);
      if String.eqb (name (deref c)) nm then [c] else []).

(** The part of a list from the first element that is [c]. *)
Fixpoint suffixFrom (c : Ptr) (l : list Ptr) : option (list Ptr) :=
  match l with
  | [] => None
  | x :: l' => if decide (x = c) then Some l else suffixFrom c l'
  end.

(** Remove the first element that is [c], as the loops ending in
    [Remove(p); break] do. *)
Fixpoint removeFirst (c : Ptr) (l : list Ptr) : list Ptr :=
  match l with
  | [] => []
  | x :: l' => if decide (x = c) then l' else x :: removeFirst c l'
  end.

(** The error of a cycle: the names from [p] to the end of [processing],
    each followed by an arrow, then the name of [pc]. *)
Definition cycleError (chain : list Ptr) (pc : Ptr) : string :=
  "found cycle config: "
  +:+ foldr (λ t sb, name (deref t) +:+ " -> " +:+ sb) (name (deref pc)) chain.

(** The [for e := getBeforeConfigers(...).Front(); ...] loop; [recurse]
    is the recursive call. *)
Fixpoint beforeLoop (recurse : lists → Ptr → outcome lists)
    (deps : list Ptr) (st : lists) : outcome lists :=
  match deps with
  | [] => Done st
  | c :: deps' =>
      match suffixFrom c (processing st) with
      | Some chain => PanicError (cycleError chain c)
      | None =>
          let inSorted := bool_decide (c ∈ sorted st) in
          let inToSort := bool_decide (c ∈ toSort st) in
          if negb inSorted && inToSort then
            match recurse st c with
            | Done st' => beforeLoop recurse deps' st'
            | o => o
            end
          else beforeLoop recurse deps' st
      end
  end.

(** [func sortConfigersByAfter(configers, toSort, sorted, processing, current)];
    [fuel] bounds the depth of the recursion. *)
Fixpoint sortConfigersByAfter (fuel : nat) (configers : list Ptr) (st : lists)
    (current : option Ptr) : outcome lists :=
  match fuel with
  | O => NoFuel
  | S fuel' =>
      match (match current with
             | Some c => Some (c, toSort st)
             | None =>
                 match toSort st with
                 | c :: rest => Some (c, rest)
                 | [] => None
                 end
             end) with
      | None => PanicNil
      | Some (current, toSort1) =>
          let st1 := mkLists toSort1 (sorted st) (processing st ++ [current]) in
          match beforeLoop (λ st c, sortConfigersByAfter fuel' configers st (Some c))
                  (getBeforeConfigers configers current) st1 with
          | Done st2 =>
              Done (mkLists (removeFirst current (toSort st2))
                      (sorted st2 ++ [current])
                      (removeFirst current (processing st2)))
          | o => o
          end
      end
  end.

(** The loop [for toSort.Len() > 0] of [sortConfigers]. *)
Fixpoint sortLoop (rounds depth : nat) (configers : list Ptr) (st : lists)
    : outcome lists :=
  match toSort st with
  | [] => Done st
  | _ :: _ =>
      match rounds with
      | O => NoFuel
      | S rounds' =>
          match sortConfigersByAfter depth configers st None with
          | Done st' => sortLoop rounds' depth configers st'
          | o => o
          end
      end
  end.

(** [func sortConfigers(configers *list.List) *list.List].  Every round
    takes an element off [toSort] and the recursion never enters a
    configer that is being processed, so the length of the input bounds
    both. *)
Definition sortConfigers (configers : list Ptr) : outcome (list Ptr) :=
  match sortLoop (length configers) (S (length configers)) configers
          (mkLists configers [] []) with
  | Done st => Done (sorted st)
  | PanicError msg => PanicError msg
  | PanicNil => PanicNil
  | NoFuel => NoFuel
  end.

End Sort.

(** ** The loggers *)

(** Package [log] of [internal/log]: the registry of named [slog] loggers
    and the [ReplaceAttr] hook that the package installs in [init]. *)
Module NamedLoggers.

(** [slog.SourceKey] *)
Definition SourceKey : string := "source".

(** The value of an attribute: a [*slog.Source] with its [File], or a
    value of another type. *)
Inductive AttrValue : Type :=
  | SourceOf (File : string)
  | AnyOf (repr : string).

(** The [ReplaceAttr] function of the handler options: the attribute value
    it returns for the attribute [key], [value]; [None] is a run-time
    panic (a failed type assertion or a slice out of range). *)
Definition ReplaceAttr (key : string) (value : AttrValue) : option AttrValue :=
  if String.eqb SourceKey key then
    match value with
    | AnyOf _ => None
    | SourceOf file =>
        let idx := LastIndex file "/" in
        if idx =? -1 then Some value
        else
          match sliceTo file idx with
          | None => None
          | Some dir =>
              let idx := LastIndex dir "/" in
              if idx =? -1 then Some value
              else SourceOf <$> sliceFrom file (idx + 1)
          end
    end
  else Some value.

Section Registry.
(** [Logger] is [slog.Logger]; [With l attrs] is [l.With(...)] with the
  key/value pairs [attrs]; [Base] is [filepath.Base]. *)
Context {Logger : Type} (With : Logger → list (string * string) → Logger)
(Base : string → string).

(** [namedLogger] *)
Record namedLogger : Type := mkNamed {
name : string;
logger : Logger;
}.

(** [func SetLogger(loggerName string, logger *Logger, primary ...bool)] on
  the map [loggers]. *)
Definition SetLogger (loggers : gmap string namedLogger) (loggerName : string)
  (logger : Logger) (primary : list bool) : gmap string namedLogger :=
let named := mkNamed loggerName logger in
let loggers := <[loggerName := named]> loggers in
match primary with
| true :: _ => <[EmptyString := named]> loggers
| _ => loggers
end.

(** [func GetLogger(loggerName string, typeName string) *Logger]; [None]
  is the nil logger. *)
Definition GetLogger (loggers : gmap string namedLogger) (loggerName typeName : string)
  : option Logger :=
match loggers !! loggerName with
| Some named =>
    Some (With (logger named)
            [("logger", name named); ("type", Base typeName)]%string)
| None => None
end.
End Registry.

End NamedLoggers.

(** Package [log] of [spring-base]: the loggers in use. *)
Module BaseLog.

Definition RootLoggerName : string := "Root".

(** The name [GetLogger] derives from the name of the calling function,
    [funcName[:i+j]]; [None] is the panic of a slice out of range. *)
Definition callerLoggerName (funcName : string) : option string :=
  let i := LastIndex funcName "/" in
  match sliceFrom funcName i with
  | None => None
  | Some tail =>
      let j := Index tail "." in
      sliceTo funcName (i + j)
  end.

(** The map [usingLoggers]; a [*Logger] is the number of the allocation
    that made it, and [allocated] counts the allocations. *)
Record loggers : Type := mkLoggers {
  usingLoggers : gmap string nat;
  allocated : nat;
}.

(** [func GetLogger(name ...string) *Logger].  [caller] is what
    [runtime.Caller(1)] finds: the name of the calling function, if any.
    The result is the logger and the loggers in use after the call;
    [None] is a run-time panic. *)
Definition GetLogger (st : loggers) (name : list string) (caller : option string)
    : option (nat * loggers) :=
  let name0 :=
    match name with
    | n :: _ => Some n
    | [] =>
        match caller with
        | Some funcName => callerLoggerName funcName
        | None => Some RootLoggerName
        end
    end in
  match name0 with
  | None => None
  | Some n =>
      match usingLoggers st !! n with
      | Some l => Some (l, st)
      | None =>
          let l := allocated st in
          Some (l, mkLoggers (<[n := l]> (usingLoggers st)) (S l))
      end
  end.

(** [func GetRootLogger() *Logger] *)
Definition GetRootLogger (st : loggers) : option (nat * loggers) :=
  GetLogger st [RootLoggerName] None.

End BaseLog.

(** ** Resources *)

(** Package [gs]: [FileResourceLocator]. *)
Module Resources.
Section Locate.
(** [Join] is [filepath.Join], [Open] is [os.Open] with the file or the
  error it returns, and [IsNotExist] is [os.IsNotExist]. *)
Context {File OsError : Type} (Join : string → string → string)
(Open : string → File + OsError) (IsNotExist : OsError → bool).

(** The loop of [Locate] over the locations, with the resources appended
  so far. *)
Fixpoint locateFrom (locations : list string) (filename : string)
  (resources : list File) : list File + OsError :=
match locations with
| [] => inl resources
| location :: locations' =>
    match Open (Join location filename) with
    | inr err =>
        if IsNotExist err then locateFrom locations' filename resources
        else inr err
    | inl file => locateFrom locations' filename (resources ++ [file])
    end
end.

(** [func (locator *FileResourceLocator) Locate(filename string) ([]Resource, error)] *)
Definition Locate (ConfigLocations : list string) (filename : string)
  : list File + OsError :=
locateFrom ConfigLocations filename [].
End Locate.
End Resources.

(** ** Notions the statements use *)

(** The tag [ParseTag] builds from the two parts of the body and the
    splitter. *)
Definition tagOf (key : string) (d : option string) (sp : string) : ParsedTag :=
  match d with
  | Some def => mkTag key def true sp
  | None => mkTag key "" false sp
  end.

(** The key [BindTag] looks up for the key written in a tag: [ROOT] is the
    empty key and the empty key is [ANONYMOUS]. *)
Definition bindKey (k : string) : string :=
  if String.eqb k "ROOT" then EmptyString
  else if String.eqb k "" then "ANONYMOUS"%string
  else k.

(** The text between [${] and its [}] is well nested: read from [depth]
    placeholders further in, every [}] closes a [${] that was opened in the
    text, and all of them are closed at the end. *)
Fixpoint closes (s : string) (depth : nat) : bool :=
  match s with
  | EmptyString => bool_decide (depth = 0%nat)
  | String c s' =>
      if Ascii.eqb c "$" && HasPrefix s' "{" then closes s' (S depth)
      else if Ascii.eqb c "}" then
        match depth with
        | O => false
        | S depth' => closes s' depth'
        end
      else closes s' depth
  end.

Section Absent.
Context {Properties : Type} `{HS : !Storage Properties}.

(** A key that is not in the store: [Has] reports it missing and [Get]
    returns the zero string. *)
Definition absent (p : Properties) (key : string) : Prop :=
  storage_Has p key = false ∧ storage_Get p key = EmptyString.

(** A key that is in the store. *)
Definition present (p : Properties) (key : string) : Prop :=
  storage_Has p key = true.
End Absent.

Section LeafNotions.
Context `{HE : !Externals} `{HR : !Registries}.

(** [Converts t val c stored]: binding the resolved string [val] to a
    leaf of type [t] converts it to [c], the value the validators see, and
    assigns [stored], which is [c] cut to the width of the target. *)
Inductive Converts : Ty → string → Value → Value → Prop :=
  | conv_registered t fn val out :
      (∃ n k, t = Scalar n k) ∨ (∃ n fs, t = StructOf n fs) →
      converters t = Some fn → fn val = Ok out →
      Converts t val out out
  | conv_uint n k val u :
      converters (Scalar n k) = None →
      k ∈ [Uint; Uint8; Uint16; Uint32; Uint64] →
      ParseUint val = Ok u →
      Converts (Scalar n k) val (VUint u) (VUint (wrapU (bitsOf k) u))
  | conv_int n k val i :
      converters (Scalar n k) = None →
      k ∈ [Int; Int8; Int16; Int32; Int64] →
      ParseInt val = Ok i →
      Converts (Scalar n k) val (VInt i) (VInt (wrapS (bitsOf k) i))
  | conv_float32 n val f :
      converters (Scalar n Float32) = None →
      ParseFloat val = Ok f →
      Converts (Scalar n Float32) val (VFloat f) (VFloat (toFloat32 f))
  | conv_float64 n val f :
      converters (Scalar n Float64) = None →
      ParseFloat val = Ok f →
      Converts (Scalar n Float64) val (VFloat f) (VFloat f)
  | conv_bool n val b :
      converters (Scalar n Bool) = None →
      ParseBool val = Ok b →
      Converts (Scalar n Bool) val (VBool b) (VBool b)
  | conv_string n val :
      converters (Scalar n String_) = None →
      Converts (Scalar n String_) val (VString val) (VString val).

(** Every validator of [vs] whose name the tag holds accepts [i]. *)
Definition allPass (vs : list (string * Validator)) (tag : string) (i : Value) : Prop :=
  ∀ name v s, (name, v) ∈ vs → Lookup tag name = Some s → v s i = None.

End LeafNotions.

Section Precedence.
Context {Ptr : Type} `{!EqDecision Ptr} (deref : Ptr → Configer).

(** [mustPrecede a b]: [a] names [b] in its [before] list, or [b] names
    [a] in its [after] list. *)
Definition mustPrecede (a b : Ptr) : Prop :=
  name (deref b) ∈ before (deref a) ∨ name (deref a) ∈ after (deref b).

(** The precedence relation of a collection: [a] before [b], equivalently
    [b] after [a], for two of its units. *)
Definition prec (cs : list Ptr) (a b : Ptr) : Prop :=
  a ∈ cs ∧ b ∈ cs ∧ mustPrecede a b.

(** No unit has to run before itself, directly or through others. *)
Definition acyclic (cs : list Ptr) : Prop := ∀ x, ¬ tc (prec cs) x x.

(** [a] stands at an earlier position of [l] than [b]. *)
Definition precedes (l : list Ptr) (a b : Ptr) : Prop :=
  ∃ i j, (i < j)%nat ∧ l !! i = Some a ∧ l !! j = Some b.

(** [cyc] is a cycle of the collection that starts at [first]: every unit
    of [cyc] has to run after the next one, and the last one after
    [first]. *)
Definition cycleFrom (cs : list Ptr) (first : Ptr) (cyc : list Ptr) : Prop :=
  head cyc = Some first
  ∧ (∀ x, x ∈ cyc → x ∈ cs)
  ∧ (∀ i a b, cyc !! i = Some a → (cyc ++ [first]) !! S i = Some b → prec cs b a).
End Precedence.

(** ** The invariant of the sorter *)

Section SortInvariant.
Context {Ptr : Type} `{!EqDecision Ptr} (deref : Ptr → Configer) (cs : list Ptr).

(** [d] is handed to the loop over the units that precede [x]. *)
Definition dep (d x : Ptr) : Prop := d ∈ cs ∧ mustPrecede deref d x.

(** [x] has to run before some unit of the collection. *)
Definition isDep (x : Ptr) : Prop := ∃ w, w ∈ cs ∧ mustPrecede deref x w.

(** Whatever precedes a unit of [l] stands before it in [l]. *)
Definition closed (l : list Ptr) : Prop :=
  ∀ i x d, l !! i = Some x → dep d x → ∃ j, (j < i)%nat ∧ l !! j = Some d.

(** Every unit of [l] has the next one among those that precede it. *)
Definition chain (l : list Ptr) : Prop :=
  ∀ i a b, l !! i = Some a → l !! S i = Some b → dep b a.

(** What holds of the three lists between the steps of the sorter. *)
Record Inv (st : lists) : Prop := mkInv {
  inv_sorted_nodup : NoDup (sorted st);
  inv_processing_nodup : NoDup (processing st);
  inv_toSort_nodup : NoDup (toSort st);
  inv_sorted_cs : ∀ x, x ∈ sorted st → x ∈ cs;
  inv_processing_cs : ∀ x, x ∈ processing st → x ∈ cs;
  inv_toSort_cs : ∀ x, x ∈ toSort st → x ∈ cs;
  inv_cover : ∀ x, x ∈ cs → x ∈ toSort st ∨ x ∈ sorted st ∨ x ∈ processing st;
  inv_sorted_toSort : ∀ x, x ∈ sorted st → x ∉ toSort st;
  inv_sorted_processing : ∀ x, x ∈ sorted st → x ∉ processing st;
  inv_closed : closed (sorted st);
  inv_chain : chain (processing st);
}.

(** [st'] is [st] after some units were sorted: they left [toSort], they
    were not being processed, and each of them precedes some unit. *)
Definition grows (st st' : lists) : Prop :=
  Inv st'
  ∧ processing st' = processing st
  ∧ toSort st' = filter (λ x, x ∉ sorted st') (toSort st)
  ∧ (∃ new, sorted st' = sorted st ++ new
            ∧ (∀ x, x ∈ new → (x ∉ processing st) ∧ isDep x)).

(** The state after the call for [cur], made with [toSort], [sorted] and
    [processing] as given. *)
Definition visited (tS srt proc : list Ptr) (cur : Ptr) (st' : lists) : Prop :=
  Inv st'
  ∧ processing st' = proc
  ∧ toSort st' = filter (λ x, x ∉ sorted st') tS
  ∧ (∃ new, sorted st' = srt ++ new ++ [cur]
            ∧ (∀ x, x ∈ new → (x ∉ proc) ∧ x ≠ cur ∧ isDep x)).

(** The error of a cycle that the sorter has found. *)
Definition cycleFound (msg : string) : Prop :=
  ∃ first cyc, msg = cycleError deref cyc first ∧ cycleFrom deref cs first cyc.

(** What a call may leave behind: a state as [post] describes it, or the
    panic of a cycle that is one; never another panic, and never the
    budget used up. *)
Definition leaves (post : @lists Ptr → Prop) (o : outcome (@lists Ptr)) : Prop :=
  match o with
  | Done st' => post st'
  | PanicError msg => cycleFound msg
  | PanicNil | NoFuel => False
  end.

(** A unit that precedes no other has every unit listed before it in the
    collection sorted before it. *)
Definition stable (l : list Ptr) : Prop :=
  ∀ u v, precedes cs u v → v ∈ l → ¬ isDep v → precedes l u v.

(** What holds between two rounds of [sortConfigers]. *)
Definition betweenRounds (st : lists) : Prop :=
  Inv st
  ∧ processing st = []
  ∧ toSort st = filter (λ x, x ∉ sorted st) cs
  ∧ stable (sorted st).
End SortInvariant.

(** The loggers in use are in order: every logger of the map has been
    allocated, and no two names share a logger. *)
Definition loggersOk (st : BaseLog.loggers) : Prop :=
  (∀ n l, BaseLog.usingLoggers st !! n = Some l → (l < BaseLog.allocated st)%nat)
  ∧ (∀ n1 n2 l, BaseLog.usingLoggers st !! n1 = Some l →
       BaseLog.usingLoggers st !! n2 = Some l → n1 = n2).

(** The file of a location, when it opens. *)
Definition opened {File OsError : Type} (Join : string → string → string)
    (Open : string → File + OsError) (filename location : string) : option File :=
  match Open (Join location filename) with
  | inl file => Some file
  | inr _ => None
  end.

(** [err] is an error that a bind makes for the path [path]:
    [bind <path> error: ...] or [validate <path> error: ...]. *)
Definition namesPath (path : string) (err : error) : Prop :=
  (∃ cause, err = bindError path cause) ∨ (∃ cause, err = validateError path cause).

Section FieldNotions.
Context `{HE : !Externals}.

(** A field that [bindStruct] passes over: it has no [value] tag and is
  either embedded without being a struct, or not embedded and not of a
  value type. *)
Definition skippedField (ft : Field) : Prop :=
Lookup (Tag ft) "value" = None
∧ if Anonymous ft then ∀ n fs, Type_ ft ≠ StructOf n fs
  else IsValueType (Type_ ft) = false.
End FieldNotions.

(** [notExistAt e key]: [e] is the error [property "key": not exist] that
    [resolve] makes for [key], as it is or wrapped by [resolveString] on
    the way out of nested placeholders. *)
Inductive notExistAt : error → string → Prop :=
  | notExist_here key : notExistAt (propertyNotExist key) key
  | notExist_wrapped s e key :
      notExistAt e key → notExistAt (resolveStringError s e) key.

(** ** An environment for the examples *)

(** The externals of the examples: a struct tag is a list of [name:text]
    pairs with blanks between them, the expressions are the two constants and the test
    that a string is not empty, and the number parsers know [0] and [1]. *)
#[global] Instance exampleExternals : Externals := {|
  intSize := 64;
  ParseUint s := if String.eqb s "0" then Ok 0 else if String.eqb s "1" then Ok 1
                 else Err (Errorf "strconv.ParseUint: parsing %q: invalid syntax" [s]);
  ParseInt s := if String.eqb s "0" then Ok 0 else if String.eqb s "1" then Ok 1
                else Err (Errorf "strconv.ParseInt: parsing %q: invalid syntax" [s]);
  ParseFloat s := Err (Errorf "strconv.ParseFloat: parsing %q: invalid syntax" [s]);
  toFloat32 f := f;
  Lookup tag name :=
    drop (String.length name + 1)
    <$> head (filter (λ item, HasPrefix item (name +:+ ":") = true) (Split tag " "));
  Sprint v := match v with VString s => s | _ => "?"%string end;
  exprEval e v :=
    if String.eqb e "true" then Ok (EvalBool true)
    else if String.eqb e "false" then Ok (EvalBool false)
    else if String.eqb e "$ != ''"
    then Ok (EvalBool (match v with VString s => nonEmpty s | _ => true end))
    else Ok EvalOther;
  IsValueType t := true;
  IsPrimitiveValueType t := match t with Scalar _ _ => true | _ => false end;
|}.

(** The registries as the package initialises them: no converter, no
    splitter, and the [expr] validator. *)
#[global] Instance exampleRegistries : Registries := {|
  converters t := None;
  splitters s := None;
  validators := [("expr"%string, exprValidator_Field)];
|}.


Definition stringTy : Ty := Scalar "string" String_.

Definition exampleStore : gmap string string :=
  {[ "a[0]" := "x"; "a[1]" := "y"; "a[3]" := "w";
     "m.a" := "1"; "m.b" := "0"; "s" := "p, q ,r"; "e" := ""; "k" := "val" ]}%string.

(** A heap of configers for the examples: the pointer [p] is the index of
    the configer in the list. *)
Definition heapOf (l : list Configer) (p : nat) : Configer :=
  default (mkConfiger "" [] []) (l !! p).

(** [A before B], [B before C], [C before A]. *)
Definition cyclicUnits : list Configer :=
  [mkConfiger "A" ["B"] []; mkConfiger "B" ["C"] []; mkConfiger "C" ["A"] []]%string.

(** [A], [B after A], [C before B]. *)
Definition orderedUnits : list Configer :=
  [mkConfiger "A" [] []; mkConfiger "B" [] ["A"]; mkConfiger "C" ["B"] []]%string.

(** [A], [B], [C before A]. *)
Definition pulledUnits : list Configer :=
  [mkConfiger "A" [] []; mkConfiger "B" [] []; mkConfiger "C" ["A"] []]%string.

Example ParseTag_full :
  ParseTag "${a.b:=x,y}||sp" = Ok (mkTag "a.b" "x,y" true "sp").
Proof. reflexivity. Qed.

Example ParseTag_no_default : ParseTag "${a}" = Ok (mkTag "a" "" false "").
Proof. reflexivity. Qed.

Example ParseTag_bad : ParseTag "a}" = Err (parseTagError "a}").
Proof. reflexivity. Qed.

Example ParseTag_slice_panic : ParseTag "x}${" = Panic.
Proof. reflexivity. Qed.

Example TrimSpace_ascii : TrimSpace "  a b  " = "a b"%string.
Proof. reflexivity. Qed.

(** * Properties *)

(** ** Byte strings *)

#[local] Arguments String.append !_ _ / : simpl nomatch.

Section StringFacts.
Implicit Types s x y sep : string.

Lemma append_nil_r s : s +:+ "" = s.
Proof. induction s; simpl; congruence. Qed.

Lemma append_assoc x y s : (x +:+ y) +:+ s = x +:+ y +:+ s.
Proof. induction x; simpl; congruence. Qed.

Lemma len_cons c s : len (String c s) = 1 + len s.
Proof. unfold len. simpl String.length. lia. Qed.

Lemma len_nonneg s : 0 ≤ len s.
Proof. unfold len. lia. Qed.

Lemma len_app x y : len (x +:+ y) = len x + len y.
Proof.
  induction x as [|c x IH]; simpl.
  - unfold len. simpl. lia.
  - rewrite !len_cons, IH. lia.
Qed.

Lemma take_app x y : take (String.length x) (x +:+ y) = x.
Proof. induction x; simpl; [by destruct y | congruence]. Qed.

Lemma drop_app x y : drop (String.length x) (x +:+ y) = y.
Proof. induction x; simpl; [by destruct y | congruence]. Qed.

Lemma take_all x : take (String.length x) x = x.
Proof. rewrite <- (append_nil_r x) at 2. apply take_app. Qed.

Lemma HasPrefix_nil s : HasPrefix s "" = true.
Proof. by destruct s. Qed.

Lemma HasPrefix_cons a b s sep :
  HasPrefix (String b s) (String a sep) = if Ascii.eqb a b then HasPrefix s sep else false.
Proof. done. Qed.

Lemma HasPrefix_app x y : HasPrefix (x +:+ y) x = true.
Proof.
  induction x as [|c x IH]; simpl; [by destruct y |].
  by rewrite Ascii.eqb_refl.
Qed.

Lemma HasPrefix_len s sep : HasPrefix s sep = true → len sep ≤ len s.
Proof.
  revert s. induction sep as [|a sep IH]; intros s H.
  - unfold len; simpl; lia.
  - destruct s as [|b s]; simpl in H; [done |].
    destruct (Ascii.eqb a b); [|done]. apply IH in H. rewrite !len_cons. lia.
Qed.

(** The slices of a string cut in three. *)
Lemma slice_middle x y s :
  slice (x +:+ y +:+ s) (len x) (len x + len y) = Some y.
Proof.
  unfold slice.
  pose proof (len_nonneg x). pose proof (len_nonneg y). pose proof (len_nonneg s).
  rewrite !len_app.
  replace ((0 <=? len x) && (len x <=? len x + len y)
           && (len x + len y <=? len x + (len y + len s))) with true
    by (symmetry; rewrite !andb_true_iff, !Z.leb_le; lia).
  f_equal.
  replace (Z.to_nat (len x)) with (String.length x) by (unfold len; lia).
  replace (Z.to_nat (len x + len y - len x)) with (String.length y)
    by (unfold len; lia).
  by rewrite drop_app, take_app.
Qed.

Lemma sliceFrom_app x y : sliceFrom (x +:+ y) (len x) = Some y.
Proof.
  unfold sliceFrom.
  pose proof (slice_middle x y "") as H.
  rewrite append_nil_r in H. by rewrite len_app.
Qed.

Lemma sliceTo_app x y : sliceTo (x +:+ y) (len x) = Some x.
Proof.
  unfold sliceTo.
  pose proof (slice_middle "" x y) as H. simpl in H.
  by replace (len "" + len x) with (len x) in H by (unfold len; simpl; lia).
Qed.

(** [Index] and [LastIndex] *)

Lemma Index_nil sep : Index "" sep = if HasPrefix "" sep then 0 else -1.
Proof. by destruct sep. Qed.

Lemma Index_cons c s sep :
  Index (String c s) sep =
    if HasPrefix (String c s) sep then 0
    else if Index s sep <? 0 then -1 else 1 + Index s sep.
Proof. done. Qed.

Lemma LastIndex_nil sep : LastIndex "" sep = if HasPrefix "" sep then 0 else -1.
Proof. done. Qed.

Lemma LastIndex_cons c s sep :
  LastIndex (String c s) sep =
    if 0 <=? LastIndex s sep then 1 + LastIndex s sep
    else if HasPrefix (String c s) sep then 0 else -1.
Proof. done. Qed.

Lemma Index_HasPrefix s sep : HasPrefix s sep = true → Index s sep = 0.
Proof.
  intros H. destruct s; [rewrite Index_nil | rewrite Index_cons]; by rewrite H.
Qed.

Lemma Index_range s sep : -1 ≤ Index s sep.
Proof.
  induction s as [|c s IH].
  - rewrite Index_nil. destruct (HasPrefix "" sep); lia.
  - rewrite Index_cons. destruct (HasPrefix (String c s) sep); [lia |].
    destruct (Index s sep <? 0) eqn:E; lia.
Qed.

Lemma Index_cons_neg c s sep :
  Index (String c s) sep < 0 ↔ HasPrefix (String c s) sep = false ∧ Index s sep < 0.
Proof.
  rewrite Index_cons. pose proof (Index_range s sep).
  destruct (HasPrefix (String c s) sep); [split; [lia | by intros [? _]] |].
  destruct (Index s sep <? 0) eqn:E; [apply Z.ltb_lt in E | apply Z.ltb_ge in E].
  - split; [done | lia].
  - split; [lia | intros [_ ?]; lia].
Qed.

Lemma HasPrefix_split s sep : HasPrefix s sep = true ↔ ∃ post, s = sep +:+ post.
Proof.
  revert s. induction sep as [|a sep IH]; intros s.
  - rewrite HasPrefix_nil. split; [by exists s | done].
  - destruct s as [|b s].
    + split; [done | by intros [post ?]].
    + rewrite HasPrefix_cons. destruct (Ascii.eqb_spec a b) as [-> | Hab].
      * rewrite IH. split; intros [post H]; exists post; simpl in *; congruence.
      * split; [done |]. intros [post H]. simpl in H. congruence.
Qed.

(** [Index] is negative exactly when [sep] does not occur in [s]. *)
Lemma Index_neg_iff s sep :
  Index s sep < 0 ↔ ∀ pre post, s ≠ pre +:+ sep +:+ post.
Proof.
  induction s as [|c s IH].
  - rewrite Index_nil. destruct sep as [|a sep]; simpl.
    + split; [lia |]. intros H. by destruct (H EmptyString EmptyString).
    + split; [|lia]. intros _ [|b pre] post; simpl; congruence.
  - rewrite Index_cons_neg, IH. split.
    + intros [Hp Hs] [|b pre] post Heq.
      * assert (HasPrefix (String c s) sep = true) by (apply HasPrefix_split; eauto).
        congruence.
      * simpl in Heq. injection Heq as _ Heq. by apply (Hs pre post).
    + intros H. split.
      * destruct (HasPrefix (String c s) sep) eqn:Hp; [|done].
        apply HasPrefix_split in Hp as [post Hp]. by destruct (H EmptyString post).
      * intros pre post ->. by apply (H (String c pre) post).
Qed.

Lemma Index_neg_LastIndex s sep : Index s sep < 0 → LastIndex s sep = -1.
Proof.
  induction s as [|c s IH].
  - rewrite Index_nil, LastIndex_nil. destruct (HasPrefix "" sep); [lia | done].
  - intros [Hp Hs]%Index_cons_neg. rewrite LastIndex_cons, (IH Hs), Hp. done.
Qed.

Lemma LastIndex_app x y sep :
  0 ≤ LastIndex y sep → LastIndex (x +:+ y) sep = len x + LastIndex y sep.
Proof.
  intros Hy. induction x as [|c x IH]; simpl "+:+".
  - unfold len; simpl; lia.
  - rewrite LastIndex_cons, IH, len_cons.
    pose proof (len_nonneg x).
    destruct (0 <=? len x + LastIndex y sep) eqn:E; [lia | apply Z.leb_gt in E; lia].
Qed.

Lemma LastIndex_bound s sep : 0 ≤ LastIndex s sep → LastIndex s sep + len sep ≤ len s.
Proof.
  induction s as [|c s IH].
  - rewrite LastIndex_nil. destruct (HasPrefix "" sep) eqn:E; [|lia].
    apply HasPrefix_len in E. lia.
  - rewrite LastIndex_cons. destruct (0 <=? LastIndex s sep) eqn:E.
    + apply Z.leb_le in E. rewrite len_cons. specialize (IH E). lia.
    + destruct (HasPrefix (String c s) sep) eqn:E'; [|lia].
      apply HasPrefix_len in E'. lia.
Qed.

Lemma LastIndex_zero s sep : LastIndex s sep = 0 → HasPrefix s sep = true.
Proof.
  destruct s as [|c s].
  - rewrite LastIndex_nil. by destruct (HasPrefix "" sep).
  - rewrite LastIndex_cons. destruct (0 <=? LastIndex s sep) eqn:E.
    + apply Z.leb_le in E. lia.
    + by destruct (HasPrefix (String c s) sep).
Qed.

(** The first [:=] of [key:=def] is the one written after a key that has
    none. *)
Lemma Index_assign key def :
  Index key ":=" < 0 → Index (key +:+ ":=" +:+ def) ":=" = len key.
Proof.
  induction key as [|c key IH].
  - intros _. by destruct def.
  - intros [Hp Hk]%Index_cons_neg. specialize (IH Hk).
    change (String c key +:+ ":=" +:+ def) with (String c (key +:+ ":=" +:+ def)).
    rewrite Index_cons, IH, len_cons.
    assert (HasPrefix (String c (key +:+ ":=" +:+ def)) ":=" = false) as ->.
    { rewrite HasPrefix_cons in Hp |- *. destruct (Ascii.eqb ":" c); [|done].
      destruct key as [|c' key]; [done |].
      change (String c' key +:+ ":=" +:+ def) with (String c' (key +:+ ":=" +:+ def)).
      rewrite HasPrefix_cons in Hp |- *.
      destruct (Ascii.eqb "=" c'); [by rewrite HasPrefix_nil in Hp | done]. }
    pose proof (len_nonneg key).
    destruct (len key <? 0) eqn:E; [apply Z.ltb_lt in E |]; lia.
Qed.

Lemma SplitN2_assign key def :
  Index key ":=" < 0 → SplitN2 (key +:+ ":=" +:+ def) ":=" = (key, Some def).
Proof.
  intros H. unfold SplitN2. rewrite (Index_assign _ _ H).
  pose proof (len_nonneg key).
  destruct (len key <? 0) eqn:E; [apply Z.ltb_lt in E; lia |].
  f_equal.
  - replace (Z.to_nat (len key)) with (String.length key) by (unfold len; lia).
    apply take_app.
  - f_equal.
    replace (Z.to_nat (len key + len ":=")) with (String.length (key +:+ ":="))
      by (pose proof (len_app key ":="); unfold len in *; lia).
    rewrite <- (append_assoc key ":=" def). apply drop_app.
Qed.

Lemma SplitN2_none key : Index key ":=" < 0 → SplitN2 key ":=" = (key, None).
Proof. intros H. unfold SplitN2. by apply Z.ltb_lt in H as ->. Qed.

End StringFacts.

(** ** Tags *)

Section TagFacts.
Implicit Types body sp : string.

Lemma ParseTag_unfold tag :
  ParseTag tag =
    if LastIndex tag "||" =? 0 then Err (parseTagError tag)
    else if LastIndex tag "}" <=? 0 then Err (parseTagError tag)
    else if Index tag "${" <? 0 then Err (parseTagError tag)
    else
      match (if LastIndex tag "}" <? LastIndex tag "||"
             then TrimSpace <$> sliceFrom tag (LastIndex tag "||" + 2)
             else Some EmptyString) with
      | None => Panic
      | Some splitter =>
          match slice tag (Index tag "${" + 2) (LastIndex tag "}") with
          | None => Panic
          | Some body =>
              let '(key, d) := SplitN2 body ":=" in Ok (tagOf key d splitter)
          end
      end.
Proof.
  unfold ParseTag. repeat case_match; simplify_eq/=; done.
Qed.

(** A tag that opens with [${]: the checks pass as soon as the last [}]
    and the last [||] are known. *)
Lemma ParseTag_at body rest (i : Z) sp :
  let tag := "${" +:+ body +:+ "}" +:+ rest in
  LastIndex rest "}" < 0 →
  LastIndex tag "||" = i →
  (if 2 + len body <? i
   then TrimSpace <$> sliceFrom tag (i + 2) else Some EmptyString) = Some sp →
  ParseTag tag =
    let '(key, d) := SplitN2 body ":=" in Ok (tagOf key d sp).
Proof.
  intros tag Hrest Hi Hsp.
  assert (LastIndex tag "}" = 2 + len body) as Hj.
  { subst tag. rewrite <- (append_assoc "${" body).
    change ("}" +:+ rest) with (String "}" rest).
    rewrite LastIndex_app.
    - rewrite len_app. rewrite LastIndex_cons.
      destruct (0 <=? LastIndex rest "}") eqn:E; [apply Z.leb_le in E; lia |].
      change (len "${") with 2. rewrite HasPrefix_cons. simpl. rewrite HasPrefix_nil. lia.
    - rewrite LastIndex_cons.
      destruct (0 <=? LastIndex rest "}") eqn:E; [apply Z.leb_le in E; lia |].
      rewrite HasPrefix_cons. simpl. by rewrite HasPrefix_nil. }
  assert (Index tag "${" = 0) as Hk by apply Index_HasPrefix, HasPrefix_app.
  assert (i ≠ 0) as Hi0.
  { intros ->. apply LastIndex_zero in Hi. subst tag.
    by simpl in Hi. }
  rewrite ParseTag_unfold, Hi, Hj, Hk.
  pose proof (len_nonneg body).
  destruct (i =? 0) eqn:E1; [apply Z.eqb_eq in E1; lia |].
  destruct (2 + len body <=? 0) eqn:E2; [apply Z.leb_le in E2; lia |].
  change (0 <? 0) with false. cbv iota. rewrite Hsp.
  subst tag. change (0 + 2) with (len "${").
  replace (2 + len body) with (len "${" + len body) by done.
  by rewrite slice_middle.
Qed.

Lemma ParseTag_plain body :
  ParseTag ("${" +:+ body +:+ "}") =
    let '(key, d) := SplitN2 body ":=" in Ok (tagOf key d "").
Proof.
  pose proof (ParseTag_at body "" (LastIndex ("${" +:+ body +:+ "}") "||") "") as H.
  rewrite !append_nil_r in H. apply H; [done | done |].
  pose proof (LastIndex_bound ("${" +:+ body +:+ "}") "||") as Hb.
  rewrite !len_app in Hb. change (len "${") with 2 in Hb.
  change (len "}") with 1 in Hb. change (len "||") with 2 in Hb.
  pose proof (len_nonneg body).
  destruct (_ <? _) eqn:E; [apply Z.ltb_lt in E; lia | done].
Qed.

Lemma ParseTag_splitter body sp :
  Index sp "}" < 0 → Index sp "||" < 0 → HasPrefix sp "|" = false →
  ParseTag ("${" +:+ body +:+ "}" +:+ "||" +:+ sp) =
    let '(key, d) := SplitN2 body ":=" in Ok (tagOf key d (TrimSpace sp)).
Proof.
  intros H1%Index_neg_LastIndex H2%Index_neg_LastIndex H3.
  assert (LastIndex ("||" +:+ sp) "||" = 0) as H0.
  { change ("||" +:+ sp) with (String "|" (String "|" sp)).
    rewrite !LastIndex_cons, H2. simpl (0 <=? -1). cbv iota.
    rewrite !HasPrefix_cons. simpl (Ascii.eqb _ _). cbv iota.
    rewrite H3. simpl. by rewrite HasPrefix_nil. }
  assert (LastIndex ("${" +:+ body +:+ "}" +:+ "||" +:+ sp) "||" = 3 + len body) as Hi.
  { rewrite <- (append_assoc body "}"), <- (append_assoc "${"), LastIndex_app by lia.
    rewrite H0, !len_app. change (len "${") with 2. change (len "}") with 1. lia. }
  apply (ParseTag_at body ("||" +:+ sp) (3 + len body)); [| done |].
  - change ("||" +:+ sp) with (String "|" (String "|" sp)).
    rewrite !LastIndex_cons, H1. simpl (0 <=? -1). cbv iota.
    rewrite !HasPrefix_cons. simpl. lia.
  - destruct (_ <? _) eqn:E; [| apply Z.ltb_ge in E; lia].
    replace (3 + len body + 2) with (len ("${" +:+ body +:+ "}" +:+ "||"))
      by (rewrite !len_app; change (len "${") with 2; change (len "}") with 1;
          change (len "||") with 2; lia).
    rewrite <- (append_assoc "}" "||"), <- (append_assoc body), <- (append_assoc "${").
    by rewrite sliceFrom_app.
Qed.

End TagFacts.

(** *** Rendering and parsing a tag *)

Lemma ParsedTag_String_shape tag :
  ParsedTag_String tag =
    "${" +:+ (Key tag +:+ (if HasDef tag then ":=" +:+ Def tag else ""))
    +:+ "}" +:+ (if nonEmpty (Splitter tag) then "||" +:+ Splitter tag else "").
Proof. unfold ParsedTag_String. by rewrite <- !append_assoc. Qed.

(** C4, as the code has it.  [ParseTag (tag.String())] is [tag] for every
    tag whose key holds no [:=], whose default is empty when [HasDef] is
    unset, and whose splitter holds neither [}] nor [||], does not begin
    with [|] and has no white space at either end.  The key may be empty. *)
Theorem ParseTag_String_roundtrip (tag : ParsedTag) :
  Index (Key tag) ":=" < 0 →
  (HasDef tag = false → Def tag = EmptyString) →
  Index (Splitter tag) "}" < 0 →
  Index (Splitter tag) "||" < 0 →
  HasPrefix (Splitter tag) "|" = false →
  TrimSpace (Splitter tag) = Splitter tag →
  ParseTag (ParsedTag_String tag) = Ok tag.
Proof.
  destruct tag as [key def hasDef sp]; simpl.
  intros Hkey Hdef Hsp1 Hsp2 Hsp3 Htrim.
  rewrite ParsedTag_String_shape; cbn [Key Def HasDef Splitter].
  assert (SplitN2 (key +:+ (if hasDef then ":=" +:+ def else "")) ":="
          = (key, if hasDef then Some def else None)) as Hsplit.
  { destruct hasDef.
    - by apply SplitN2_assign.
    - rewrite append_nil_r. by apply SplitN2_none. }
  destruct sp as [|c sp]; cbn [nonEmpty].
  - rewrite !append_nil_r, ParseTag_plain, Hsplit.
    destruct hasDef; simpl; [done |]. by rewrite Hdef.
  - rewrite ParseTag_splitter, Hsplit, Htrim by done.
    destruct hasDef; simpl; [done |]. by rewrite Hdef.
Qed.

Lemma ParseTag_String_roundtrip_witness :
  ParseTag (ParsedTag_String (mkTag "a.b" "x, y" true "sp"))
  = Ok (mkTag "a.b" "x, y" true "sp").
Proof.
  apply ParseTag_String_roundtrip; simpl; try reflexivity; discriminate.
Defined.

(** C4 as stated fails: a key that holds [:=] is read back as a key and a
    default, and a splitter written with a leading blank is read back
    without it.  Both tags have a non-empty key. *)
Lemma ParseTag_String_roundtrip_counterexample :
  let tag1 := mkTag "a:=b" "" false "" in
  let tag2 := mkTag "k" "" false " sp" in
  (Key tag1 ≠ EmptyString
   ∧ ParseTag (ParsedTag_String tag1) = Ok (mkTag "a" "b" true "")
   ∧ ParseTag (ParsedTag_String tag1) ≠ Ok tag1)
  ∧ (Key tag2 ≠ EmptyString
     ∧ ParseTag (ParsedTag_String tag2) = Ok (mkTag "k" "" false "sp")
     ∧ ParseTag (ParsedTag_String tag2) ≠ Ok tag2).
Proof. repeat split; try reflexivity; discriminate. Qed.

(** ** Placeholder resolution *)

Section ScanFacts.
Implicit Types s rest body : string.

Lemma scan_cons c rest i count start :
  scan (String c rest) i count start =
    if Ascii.eqb c "$" then
      if HasPrefix rest "{"
      then scan rest (i + 1) (count + 1) (if count =? 0 then i else start)
      else scan rest (i + 1) count start
    else if Ascii.eqb c "}" then
      if 0 <? count then
        if count - 1 =? 0 then (count - 1, start, i)
        else scan rest (i + 1) (count - 1) start
      else scan rest (i + 1) count start
    else scan rest (i + 1) count start.
Proof.
  cbn [scan]. destruct (Ascii.eqb c "$"); [|done].
  destruct rest as [|c' rest']; [done |].
  rewrite HasPrefix_cons, HasPrefix_nil, (Ascii.eqb_sym "{").
  by destruct (Ascii.eqb c' "{").
Qed.

(** Without [${] the loop ends with nothing opened. *)
Lemma scan_plain s i start :
  Index s "${" < 0 → scan s i 0 start = (0, start, -1).
Proof.
  revert i. induction s as [|c s IH]; intros i; [done |].
  intros [Hp Hs]%Index_cons_neg. rewrite scan_cons.
  rewrite HasPrefix_cons in Hp.
  rewrite (Ascii.eqb_sym c "$"). destruct (Ascii.eqb "$" c).
  - rewrite Hp. by apply IH.
  - change (0 <? 0) with false. destruct (Ascii.eqb c "}"); by apply IH.
Qed.

(** Inside a placeholder the loop stops at the [}] that closes it. *)
Lemma scan_closes body rest i depth start :
  closes body depth = true →
  scan (body +:+ "}" +:+ rest) i (Z.of_nat depth + 1) start
  = (0, start, i + len body).
Proof.
  revert i depth. induction body as [|c body IH]; intros i depth.
  - cbn [closes]. intros ->%bool_decide_eq_true.
    change ("" +:+ "}" +:+ rest) with (String "}" rest).
    rewrite scan_cons. change (len "") with 0.
    change (Ascii.eqb "}" "$") with false. change (Ascii.eqb "}" "}") with true.
    cbn. f_equal. lia.
  - cbn [closes].
    change (String c body +:+ "}" +:+ rest) with (String c (body +:+ "}" +:+ rest)).
    rewrite scan_cons, len_cons.
    assert (HasPrefix (body +:+ "}" +:+ rest) "{" = HasPrefix body "{") as ->.
    { destruct body as [|c' body]; [done |].
      change (String c' body +:+ "}" +:+ rest) with (String c' (body +:+ "}" +:+ rest)).
      by rewrite !HasPrefix_cons, !HasPrefix_nil. }
    destruct (Ascii.eqb_spec c "$") as [-> | _]; cbn [andb].
    + change (Ascii.eqb "$" "}") with false. cbv iota.
      destruct (HasPrefix body "{").
      * intros H. replace (Z.of_nat depth + 1 + 1) with (Z.of_nat (S depth) + 1) by lia.
        destruct (Z.of_nat depth + 1 =? 0) eqn:E; [apply Z.eqb_eq in E; lia |].
        rewrite (IH _ _ H). f_equal. lia.
      * intros H. rewrite (IH _ _ H). f_equal. lia.
    + destruct (Ascii.eqb c "}").
      * destruct depth as [|depth']; [done |]. intros H.
        destruct (0 <? Z.of_nat (S depth') + 1) eqn:E1;
          [| apply Z.ltb_ge in E1; lia].
        destruct (Z.of_nat (S depth') + 1 - 1 =? 0) eqn:E2;
          [apply Z.eqb_eq in E2; lia |].
        replace (Z.of_nat (S depth') + 1 - 1) with (Z.of_nat depth' + 1) by lia.
        rewrite (IH _ _ H). f_equal. lia.
      * intros H. rewrite (IH _ _ H). f_equal. lia.
Qed.

Lemma scan_placeholder body :
  closes body 0 = true →
  scan ("${" +:+ body +:+ "}") 0 0 (-1) = (0, 0, 2 + len body).
Proof.
  intros H.
  change ("${" +:+ body +:+ "}") with (String "$" (String "{" (body +:+ "}"))).
  rewrite !scan_cons. rewrite HasPrefix_cons, HasPrefix_nil.
  change (Ascii.eqb "$" "$") with true. change (Ascii.eqb "{" "{") with true.
  change (Ascii.eqb "{" "$") with false. change (Ascii.eqb "{" "}") with false.
  cbv iota. change (0 =? 0) with true. cbv iota.
  pose proof (scan_closes body "" (0 + 1 + 1) 0 0 H) as Hs.
  rewrite append_nil_r in Hs. change (Z.of_nat 0) with 0 in Hs. rewrite Hs. f_equal; lia.
Qed.

End ScanFacts.

Section ResolveFacts.
Context {Properties : Type} `{HS : !Storage Properties}.
Implicit Types (p : Properties) (s k d v : string) (n fuel : nat).

Lemma nonEmpty_false s : nonEmpty s = false ↔ s = EmptyString.
Proof. by destruct s. Qed.

Lemma slice_all s : slice s 0 (len s) = Some s.
Proof.
  pose proof (slice_middle "" s "") as H. rewrite append_nil_r in H.
  by replace (len "" + len s) with (len s) in H by (change (len "") with 0; lia).
Qed.

Lemma sliceFrom_end s : sliceFrom s (len s) = Some EmptyString.
Proof. pose proof (sliceFrom_app s "") as H. by rewrite append_nil_r in H. Qed.

Lemma sliceTo_0 s : sliceTo s 0 = Some EmptyString.
Proof. apply (sliceTo_app "" s). Qed.

Lemma resolveString_S n p s :
  resolveString (S n) p s =
    let '(count, start, end_) := scan s 0 0 (-1) in
    if start <? 0 then Ok s
    else if (end_ <? 0) || (0 <? count)
    then Err (resolveStringError s errInvalidSyntax)
    else
      match slice s start (end_ + 1) with
      | None => Panic
      | Some tag =>
          match (match BindTag zeroParam tag "" with
                 | Ok param => Some param
                 | Err _ => Some zeroParam
                 | Panic | OutOfFuel => None
                 end) with
          | None => Panic
          | Some param =>
              match resolve n p param with
              | Ok s1 =>
                  match sliceFrom s (end_ + 1) with
                  | None => Panic
                  | Some rest =>
                      match resolveString n p rest with
                      | Ok s2 =>
                          match sliceTo s start with
                          | None => Panic
                          | Some pre => Ok (pre +:+ s1 +:+ s2)
                          end
                      | Err e => Err (resolveStringError s e)
                      | Panic => Panic
                      | OutOfFuel => OutOfFuel
                      end
                  end
              | Err e => Err (resolveStringError s e)
              | Panic => Panic
              | OutOfFuel => OutOfFuel
              end
          end
      end.
Proof. done. Qed.

Lemma resolveString_empty n p : resolveString (S n) p "" = Ok EmptyString.
Proof. done. Qed.

(** What [BindTag] reads from a placeholder with a default. *)
Lemma BindTag_placeholder k d :
  Index k ":=" < 0 →
  BindTag zeroParam ("${" +:+ k +:+ ":=" +:+ d +:+ "}") ""
  = Ok (mkParam (bindKey k) "" (mkTag (bindKey k) d true "") "").
Proof.
  intros Hk. unfold BindTag.
  rewrite <- (append_assoc ":=" d "}"), <- (append_assoc k (":=" +:+ d) "}").
  rewrite ParseTag_plain, (SplitN2_assign _ _ Hk).
  cbn [tagOf Key Def HasDef Splitter zeroParam ParamKey ParamPath].
  unfold bindKey.
  destruct (String.eqb k "ROOT"); [done |].
  destruct (String.eqb k ""); done.
Qed.


Lemma resolveString_plain n p s :
  Index s "${" < 0 → resolveString (S n) p s = Ok s.
Proof.
  intros H. rewrite resolveString_S, (scan_plain _ _ _ H). done.
Qed.

(** C8.  A string in which [${] does not occur resolves, and resolves to
    itself. *)
Theorem resolveString_no_placeholder n p s :
  (∀ pre post, s ≠ pre +:+ "${" +:+ post) → resolveString (S n) p s = Ok s.
Proof. intros H. apply resolveString_plain. by apply Index_neg_iff. Qed.

(** A single well-nested placeholder with a default: what [resolve]
    returns for its tag is what it resolves to. *)
Lemma resolveString_placeholder_outcome n p k d :
  Index k ":=" < 0 →
  closes (k +:+ ":=" +:+ d) 0 = true →
  resolveString (S n) p ("${" +:+ k +:+ ":=" +:+ d +:+ "}") =
    match resolve n p (mkParam (bindKey k) "" (mkTag (bindKey k) d true "") "") with
    | Ok s1 =>
        match resolveString n p "" with
        | Ok s2 => Ok (s1 +:+ s2)
        | Err e => Err (resolveStringError ("${" +:+ k +:+ ":=" +:+ d +:+ "}") e)
        | Panic => Panic
        | OutOfFuel => OutOfFuel
        end
    | Err e => Err (resolveStringError ("${" +:+ k +:+ ":=" +:+ d +:+ "}") e)
    | Panic => Panic
    | OutOfFuel => OutOfFuel
    end.
Proof.
  intros Hk Hc.
  rewrite resolveString_S.
  pose proof (BindTag_placeholder k d Hk) as Hb.
  set (s := "${" +:+ k +:+ ":=" +:+ d +:+ "}") in *.
  assert (s = "${" +:+ (k +:+ ":=" +:+ d) +:+ "}") as Hs
    by (subst s; by rewrite <- (append_assoc ":=" d "}"), <- (append_assoc k (":=" +:+ d) "}")).
  assert (len s = 2 + len (k +:+ ":=" +:+ d) + 1) as Hlen.
  { rewrite Hs, !len_app. change (len "${") with 2. change (len "}") with 1. lia. }
  rewrite Hs at 1. rewrite (scan_placeholder _ Hc).
  change (0 <? 0) with false.
  pose proof (len_nonneg (k +:+ ":=" +:+ d)).
  destruct (2 + len (k +:+ ":=" +:+ d) <? 0) eqn:E; [apply Z.ltb_lt in E; lia |].
  cbn [orb]. cbv iota.
  replace (2 + len (k +:+ ":=" +:+ d) + 1) with (len s) by lia.
  rewrite slice_all, Hb, sliceFrom_end, sliceTo_0. reflexivity.
Qed.

(** C6, as the code has it.  In a well-nested [${k:=d}] whose key is not
    in the store, the placeholder resolves to what the default resolves
    to: the value of the default when its resolution succeeds, the
    default itself when it holds no placeholder, and the error of the
    default, wrapped, when its resolution fails; when the resolution of
    the default does not return, neither does that of the placeholder.
    The key is the one [BindTag] looks up: [k] itself, but the empty key
    for [ROOT] and [ANONYMOUS] for the empty key. *)
Theorem resolveString_default_outcome n p k d :
  Index k ":=" < 0 →
  closes (k +:+ ":=" +:+ d) 0 = true →
  absent p (bindKey k) →
  resolveString (S n) p ("${" +:+ k +:+ ":=" +:+ d +:+ "}")
  = match resolveString n p d with
    | Ok v => Ok v
    | Err e => Err (resolveStringError ("${" +:+ k +:+ ":=" +:+ d +:+ "}") e)
    | Panic => Panic
    | OutOfFuel => OutOfFuel
    end
  ∧ (Index d "${" < 0 →
     resolveString (S (S n)) p ("${" +:+ k +:+ ":=" +:+ d +:+ "}") = Ok d).
Proof.
  intros Hk Hc [_ Hget].
  assert (∀ m, resolveString (S m) p ("${" +:+ k +:+ ":=" +:+ d +:+ "}")
               = match resolveString m p d with
                 | Ok v => Ok v
                 | Err e => Err (resolveStringError ("${" +:+ k +:+ ":=" +:+ d +:+ "}") e)
                 | Panic => Panic
                 | OutOfFuel => OutOfFuel
                 end) as Heq.
  { intros m. rewrite (resolveString_placeholder_outcome _ _ _ _ Hk Hc).
    unfold resolve, resolveWith. cbn [ParamKey ParamTag HasDef Def].
    rewrite Hget. cbn [nonEmpty].
    destruct m as [|m]; [done |]. rewrite resolveString_empty.
    destruct (resolveString (S m) p d); [|done..]. by rewrite append_nil_r. }
  split; [apply Heq |].
  intros Hd. by rewrite Heq, (resolveString_plain _ _ _ Hd).
Qed.


(** Every error of [resolveString] wraps the string it was called for. *)
Lemma resolveString_Err n p s e :
  resolveString n p s = Err e → ∃ e', e = resolveStringError s e'.
Proof.
  destruct n as [|n]; [done |]. rewrite resolveString_S.
  intros H. repeat (case_match; simplify_eq; try done); eauto.
Qed.

(** Every failure of [resolveString] that [errors.Is] [errNotExist] is
    the error that [resolve] has made for a key that is not in the store,
    with the wrappers of the placeholders it was nested in. *)
Lemma resolveString_notExistAt n p s e :
  resolveString n p s = Err e → isNotExist e = true →
  ∃ key, notExistAt e key ∧ absent p key.
Proof.
  revert s e. induction n as [|n IH]; intros s e; [done |].
  rewrite resolveString_S.
  destruct (scan s 0 0 (-1)) as [[count start] end_].
  destruct (start <? 0); [done |].
  destruct ((end_ <? 0) || (0 <? count)); [by intros [= <-] |].
  destruct (slice s start (end_ + 1)) as [tag|]; [|done].
  destruct (match BindTag zeroParam tag "" with
            | Ok param => Some param | Err _ => Some zeroParam | _ => None
            end) as [param|]; [|done].
  destruct (resolve n p param) as [s1|e1| |] eqn:Hr; try done.
  - destruct (sliceFrom s (end_ + 1)) as [rest|]; [|done].
    destruct (resolveString n p rest) as [s2|e2| |] eqn:Hrest; try done.
    + by destruct (sliceTo s start).
    + intros [= <-] He. destruct (IH _ _ Hrest He) as (key & Hat & Habs).
      exists key. split; [by constructor | done].
  - intros [= <-] He. cbn in He.
    assert (∃ key, notExistAt e1 key ∧ absent p key) as (key & Hat & Habs).
    { unfold resolve, resolveWith in Hr.
      destruct (nonEmpty (storage_Get p (ParamKey param))) eqn:Hval.
      { by eapply IH. }
      destruct (HasDef (ParamTag param)).
      { by eapply IH. }
      destruct (storage_Has p (ParamKey param)) eqn:Hhas; [done |].
      injection Hr as <-. exists (ParamKey param). split; [constructor |].
      split; [done | by apply nonEmpty_false]. }
    exists key. split; [by constructor | done].
Qed.

(** C10, as the code has it.  A key stored with the empty string and
    read through a tag without default resolves to the empty string.
    [resolve] makes the error [property "key": not exist] exactly for
    its own key, when that key is not in the store and the tag has no
    default.  Every other error of [resolve] that [errors.Is]
    [errNotExist] is the error of the resolution of the stored value,
    or of the default when nothing is stored: it is the error made for
    a key that a nested placeholder names and that is not in the store,
    and it is returned although the key of [resolve] is in the store or
    its tag has a default. *)
Theorem resolve_empty_value fuel p param :
  (present p (ParamKey param) →
   storage_Get p (ParamKey param) = EmptyString →
   HasDef (ParamTag param) = false →
   resolve fuel p param = Ok EmptyString)
  ∧ (∀ key, resolve fuel p param = Err (propertyNotExist key) ↔
       key = ParamKey param ∧ absent p key ∧ HasDef (ParamTag param) = false)
  ∧ (∀ e, resolve fuel p param = Err e → isNotExist e = true →
       (∃ key, notExistAt e key ∧ absent p key)
       ∧ (e = propertyNotExist (ParamKey param)
          ∨ ∃ s e',
              e = resolveStringError s e'
              ∧ resolveString fuel p s = Err e
              ∧ (if nonEmpty (storage_Get p (ParamKey param))
                 then s = storage_Get p (ParamKey param)
                 else HasDef (ParamTag param) = true ∧ s = Def (ParamTag param)))).
Proof.
  unfold resolve, resolveWith, present. split; [|split].
  - by intros -> -> ->.
  - intros key. split.
    + destruct (nonEmpty (storage_Get p (ParamKey param))) eqn:Hval.
      { by intros (e' & [=])%resolveString_Err. }
      destruct (HasDef (ParamTag param)).
      { by intros (e' & [=])%resolveString_Err. }
      destruct (storage_Has p (ParamKey param)) eqn:Hhas; [done |].
      intros [= <-]. repeat split; [done | by apply nonEmpty_false].
    + intros (-> & [Hhas Hget] & Hdef). by rewrite Hget, Hdef, Hhas.
  - intros e.
    destruct (nonEmpty (storage_Get p (ParamKey param))) eqn:Hval.
    { intros Hr He. split; [by eapply resolveString_notExistAt |].
      right. destruct (resolveString_Err _ _ _ _ Hr) as [e' ->].
      by exists (storage_Get p (ParamKey param)), e'. }
    destruct (HasDef (ParamTag param)).
    { intros Hr He. split; [by eapply resolveString_notExistAt |].
      right. destruct (resolveString_Err _ _ _ _ Hr) as [e' ->].
      by exists (Def (ParamTag param)), e'. }
    destruct (storage_Has p (ParamKey param)) eqn:Hhas; [done |].
    intros [= <-] _. split; [|by left].
    exists (ParamKey param). split; [constructor |].
    split; [done | by apply nonEmpty_false].
Qed.

End ResolveFacts.

(** *** On concrete stores *)

Example resolveString_nested :
  let p : gmap string string := {[ "a" := "x${b}y"; "b" := "B" ]}%string in
  resolveString 5 p "1${a}2${c:=d${b}}3" = Ok "1xBy2dB3"%string.
Proof. vm_compute. reflexivity. Qed.

Example resolveString_unbalanced :
  resolveString 5 (∅ : gmap string string) "${a"
  = Err (resolveStringError "${a" errInvalidSyntax).
Proof. vm_compute. reflexivity. Qed.

Example resolveString_self_reference :
  let p : gmap string string := {[ "loop" := "${loop}" ]}%string in
  ∀ n, resolveString n p "${loop}" = OutOfFuel.
Proof.
  intros p n. induction n as [|n IH]; [done |].
  rewrite resolveString_S.
  change (scan "${loop}" 0 0 (-1)) with (0, 0, 6). cbv iota beta.
  change (0 <? 0) with false. change (6 <? 0) with false. cbv iota. cbn [orb].
  change (slice "${loop}" 0 (6 + 1)) with (Some "${loop}"%string). cbv iota.
  change (BindTag zeroParam "${loop}" "")
    with (Ok (mkParam "loop" "" (mkTag "loop" "" false "") "")).
  cbv iota. unfold resolve, resolveWith. cbn [ParamKey ParamTag].
  change (storage_Get p "loop") with "${loop}"%string. cbn [nonEmpty].
  by rewrite IH.
Qed.

Lemma resolveString_no_placeholder_witness :
  resolveString 1 (∅ : gmap string string) "a $ {b} }c" = Ok "a $ {b} }c"%string.
Proof.
  apply (resolveString_no_placeholder 0). apply Index_neg_iff. vm_compute. reflexivity.
Defined.

Lemma resolveString_default_outcome_witness :
  let p : gmap string string := {[ "b" := "B" ]}%string in
  resolveString 3 p "${k:=x${b}}" = Ok "xB"%string
  ∧ resolveString 2 p "${k:=d}" = Ok "d"%string.
Proof.
  intros p. split.
  - etrans.
    + refine (proj1 (resolveString_default_outcome 2 p "k" "x${b}" _ _ _));
        [| | split]; vm_compute; reflexivity.
    + vm_compute. reflexivity.
  - refine (proj2 (resolveString_default_outcome 0 p "k" "d" _ _ _) _);
      [| | split |]; vm_compute; reflexivity.
Defined.

(** C6 as stated fails: the placeholder is well nested and its key is not
    in the store, and its resolution does not succeed, because the default
    names a key that is not in the store either. *)
Lemma resolveString_default_counterexample :
  let p : gmap string string := ∅ in
  Index "k" ":=" < 0
  ∧ closes "k:=${z}" 0 = true
  ∧ absent p (bindKey "k")
  ∧ resolveString 5 p "${k:=${z}}"
    = Err (resolveStringError "${k:=${z}}"
             (resolveStringError "${z}" (propertyNotExist "z"))).
Proof. repeat split; vm_compute; reflexivity. Qed.



Lemma resolve_empty_value_witness :
  let p : gmap string string := {[ "k" := "" ]}%string in
  let param := mkParam "k" "" zeroTag "" in
  resolve 1 p param = Ok EmptyString
  ∧ resolve 1 (∅ : gmap string string) param = Err (propertyNotExist "k").
Proof.
  intros p param. split.
  - apply (proj1 (resolve_empty_value 1 p param)); vm_compute; reflexivity.
  - apply (proj2 (proj1 (proj2 (resolve_empty_value 1 (∅ : gmap string string) param)) "k")).
    repeat split; vm_compute; reflexivity.
Defined.

(** C10 as stated fails in its second half: [resolve] returns an error
    that [errors.Is] [errNotExist] for a key that is in the store, and for
    a tag that has a default, when the stored value or the default names a
    key that is not in the store. *)
Lemma resolve_NotExist_counterexample :
  let p : gmap string string := {[ "k" := "${z}" ]}%string in
  let e := resolveStringError "${z}" (propertyNotExist "z") in
  (present p "k"
   ∧ resolve 3 p (mkParam "k" "" zeroTag "") = Err e
   ∧ isNotExist e = true)
  ∧ (HasDef (mkTag "j" "${z}" true "") = true
     ∧ resolve 3 p (mkParam "j" "" (mkTag "j" "${z}" true "") "") = Err e
     ∧ isNotExist e = true).
Proof. repeat split; vm_compute; reflexivity. Qed.

(** ** Binding *)

Section BindFacts.
Context {Properties : Type} `{HS : !Storage Properties}
  `{HE : !Externals} `{HR : !Registries}.
Implicit Types (p : Properties) (v c stored : Value) (t et : Ty)
  (param : BindParam) (filter : option Filter) (fuel : nat).

(** *** Validation *)

Lemma ValidateIn_None vs tag i : ValidateIn vs tag i = None ↔ allPass vs tag i.
Proof.
  unfold allPass. induction vs as [|[name v] vs IH]; cbn [ValidateIn].
  - split; [intros _ ???; by rewrite elem_of_nil | done].
  - destruct (Lookup tag name) as [s|] eqn:Hs.
    + destruct (v s i) as [err|] eqn:Hv.
      * split; [done |]. intros H. specialize (H name v s).
        rewrite Hv in H. apply H; [left | done].
      * rewrite IH. split.
        -- intros H name' v' s' [[= -> ->] | Hin]%elem_of_cons Hl; [congruence | eauto].
        -- intros H name' v' s' Hin. apply H. by right.
    + rewrite IH. split.
      * intros H name' v' s' [[= -> ->] | Hin]%elem_of_cons Hl; [congruence | eauto].
      * intros H name' v' s' Hin. apply H. by right.
Qed.




(** *** Leaves *)

Lemma BindValue_leaf fuel p v t param filter :
  IsValueType t = true →
  (∃ n k, t = Scalar n k) ∨ ((∃ n fs, t = StructOf n fs) ∧ is_Some (converters t)) →
  BindValue (S fuel) p v t param filter = bindLeaf fuel p v t param.
Proof.
  intros Hvt Ht. cbn [BindValue]. rewrite Hvt. cbn [negb].
  destruct Ht as [(n & k & ->) | [(n & fs & ->) [fn Hfn]]]; [done |].
  by rewrite Hfn.
Qed.

Lemma bindLeaf_converts fuel p v t param val c stored :
  resolve fuel p param = Ok val →
  Converts t val c stored →
  bindLeaf fuel p v t param = validateAndSet v param c stored.
Proof.
  intros Hr Hc. unfold bindLeaf. rewrite Hr.
  destruct Hc as [t fn val out _ Hfn Hout | n k val u Hcv Hk Hp | n k val i Hcv Hk Hp
                 | n val f Hcv Hp | n val f Hcv Hp | n val b Hcv Hp | n val Hcv].
  - by rewrite Hfn, Hout.
  - rewrite Hcv. unfold bindKind. rewrite Hp.
    repeat (apply elem_of_cons in Hk as [-> | Hk]; [done |]). by apply elem_of_nil in Hk.
  - rewrite Hcv. unfold bindKind. rewrite Hp.
    repeat (apply elem_of_cons in Hk as [-> | Hk]; [done |]). by apply elem_of_nil in Hk.
  - rewrite Hcv. unfold bindKind. by rewrite Hp.
  - rewrite Hcv. unfold bindKind. by rewrite Hp.
  - rewrite Hcv. unfold bindKind. by rewrite Hp.
  - by rewrite Hcv.
Qed.



End BindFacts.

Section ContainerFacts.
Context {Properties : Type} `{HS : !Storage Properties}
  `{HE : !Externals} `{HR : !Registries}.
Implicit Types (p : Properties) (v : Value) (t et : Ty)
  (param : BindParam) (filter : option Filter) (fuel : nat)
  (bv : Properties → Value → Ty → BindParam → option Filter → bound).

(** *** Slices and maps are assigned as a whole *)

Lemma bindSliceWith_spec bv fuel p v et param filter v' r :
  bindSliceWith bv fuel p v et param filter = (v', r) →
  (r ≠ Ok () ∧ v' = v)
  ∨ (r = Ok () ∧ getSlice p et param = Ok None ∧ v' = VSlice [])
  ∨ (r = Ok ()
     ∧ ∃ p' elems,
         getSlice p et param = Ok (Some p')
         ∧ sliceLoop bv fuel p' et param filter 0 [] = Ok elems
         ∧ Validate (ParamValidate param) (VSlice elems) = None
         ∧ v' = VSlice elems).
Proof.
  unfold bindSliceWith.
  destruct (getSlice p et param) as [[p'|]|e| |] eqn:Hg;
    try (intros [= <- <-]; left; by split).
  - destruct (sliceLoop bv fuel p' et param filter 0 []) as [elems|e| |] eqn:Hl;
      try (intros [= <- <-]; left; by split).
    destruct (Validate (ParamValidate param) (VSlice elems)) eqn:Hval;
      intros [= <- <-]; [left; by split |].
    right; right. split; [done |]. by exists p', elems.
  - intros [= <- <-]. right; left. done.
Qed.

Lemma bindMapWith_spec bv p v keyIsString et param filter v' r :
  bindMapWith bv p v keyIsString et param filter = (v', r) →
  (r ≠ Ok () ∧ v' = v)
  ∨ (r = Ok ()
     ∧ ∃ keys ret,
         storage_SubKeys p (ParamKey param) = Ok keys
         ∧ mapLoop bv p keyIsString et param filter keys ∅ = Ok ret
         ∧ Validate (ParamValidate param) (VMap ret) = None
         ∧ v' = VMap ret).
Proof.
  unfold bindMapWith.
  destruct (HasDef (ParamTag param) && nonEmpty (Def (ParamTag param)));
    [intros [= <- <-]; left; by split |].
  destruct (storage_SubKeys p (ParamKey param)) as [keys|e| |] eqn:Hk;
    try (intros [= <- <-]; left; by split).
  destruct (mapLoop bv p keyIsString et param filter keys ∅) as [ret|e| |] eqn:Hl;
    try (intros [= <- <-]; left; by split).
  destruct (Validate (ParamValidate param) (VMap ret)) eqn:Hval;
    intros [= <- <-]; [left; by split |].
  right. split; [done |]. by exists keys, ret.
Qed.

(** C9, as the code has it.  Whatever binds the elements, a call of
    [bindSlice] or [bindMap] that does not return nil leaves the target as
    it was.  A call that returns nil has assigned the whole container;
    for a map, and for a slice read from a store, its elements are those
    the loop has bound and the validator of the container has accepted
    them. *)
Theorem bind_container_atomic bv fuel p v keyIsString et param filter v' r :
  (bindSliceWith bv fuel p v et param filter = (v', r) →
     (r ≠ Ok () → v' = v)
     ∧ (r = Ok () → ∀ p', getSlice p et param = Ok (Some p') →
          ∃ elems,
            sliceLoop bv fuel p' et param filter 0 [] = Ok elems
            ∧ Validate (ParamValidate param) (VSlice elems) = None
            ∧ v' = VSlice elems))
  ∧ (bindMapWith bv p v keyIsString et param filter = (v', r) →
     (r ≠ Ok () → v' = v)
     ∧ (r = Ok () →
          ∃ keys ret,
            storage_SubKeys p (ParamKey param) = Ok keys
            ∧ mapLoop bv p keyIsString et param filter keys ∅ = Ok ret
            ∧ Validate (ParamValidate param) (VMap ret) = None
            ∧ v' = VMap ret)).
Proof.
  split.
  - intros [[Hr ->] | [(-> & Hg & ->) | (-> & p1 & elems & Hg & Hl & Hv & ->)]]%bindSliceWith_spec.
    + split; [done | by intros ?].
    + split; [done |]. intros _ p'. by rewrite Hg.
    + split; [done |]. intros _ p'. rewrite Hg. intros [= <-]. by exists elems.
  - intros [[Hr ->] | (-> & keys & ret & Hk & Hl & Hv & ->)]%bindMapWith_spec.
    + split; [done | by intros ?].
    + split; [done |]. intros _. by exists keys, ret.
Qed.

(** *** Indexed keys *)

Lemma indexed_0 key : indexed key 0 = key +:+ "[0]".
Proof. done. Qed.




Lemma sliceLoop_elements bv fuel p et param filter i acc elems :
  sliceLoop bv fuel p et param filter i acc = Ok elems →
  ∃ new,
    elems = acc ++ new
    ∧ (∀ j e, new !! j = Some e →
         bv p (zero et) et
           (mkParam (indexed (ParamKey param) (i + j))
              (indexed (ParamPath param) (i + j)) zeroTag "") filter = (e, Ok ()))
    ∧ ∃ err,
        (bv p (zero et) et
           (mkParam (indexed (ParamKey param) (i + length new))
              (indexed (ParamPath param) (i + length new)) zeroTag "") filter).2
        = Err err
        ∧ isNotExist err = true.
Proof.
  revert i acc. induction fuel as [|fuel IH]; intros i acc; [done |].
  cbn [sliceLoop].
  destruct (bv p (zero et) et _ filter) as [e [[]|err| |]] eqn:Hb; try done.
  - intros (new & -> & Hnew & err & Herr & Hne)%IH.
    exists (e :: new). rewrite <- app_assoc. split; [done |]. split.
    + intros [|j] e' Hj.
      * cbn in Hj. simplify_eq. by rewrite Nat.add_0_r.
      * replace (i + S j)%nat with (S i + j)%nat by lia. by apply Hnew.
    + exists err. cbn [length].
      replace (i + S (length new))%nat with (S i + length new)%nat by lia. done.
  - destruct (isNotExist err) eqn:Hne; [|done]. intros [= <-].
    exists []. rewrite List.app_nil_r. split; [done |]. split; [done |].
    exists err. cbn [length]. rewrite Nat.add_0_r, Hb. done.
Qed.


End ContainerFacts.

(** *** On a concrete store *)

Example bindSlice_split :
  bindSlice 5 exampleStore VNil stringTy (mkParam "s" "S" zeroTag "") None
  = (VSlice [VString "p"; VString "q"; VString "r"], Ok ()).
Proof. vm_compute. reflexivity. Qed.

Example bindMap_ints :
  bindMap 5 exampleStore VNil true (Scalar "int" Int) (mkParam "m" "M" zeroTag "") None
  = (VMap {[ "a" := VInt 1; "b" := VInt 0 ]}%string, Ok ()).
Proof. vm_compute. reflexivity. Qed.

(** A struct keeps the fields bound before the one that fails. *)
Example BindValue_struct_partial :
  let t := StructOf "T"
             [mkField "A" "value:${a}" false (SliceOf "[]string" stringTy);
              mkField "B" "value:${m.a} expr:false" false (Scalar "int" Int)] in
  (BindValue 10 exampleStore (VStruct [VNil; VInt 7]) t (mkParam "" "T" zeroTag "") None).1
  = VStruct [VSlice [VString "x"; VString "y"]; VInt 7].
Proof. vm_compute. reflexivity. Qed.




Lemma bind_container_atomic_witness :
  let old := VOther "old" in
  let param := mkParam "a" "S" zeroTag "expr:false" in
  let e := validateError "S" (Errorf "validate failed on %q for value %v" ["false"; "?"]%string) in
  bindSliceWith (BindValue 5) 5 exampleStore old stringTy param None = (old, Err e)
  ∧ bindMapWith (BindValue 5) exampleStore old true stringTy
      (mkParam "m" "S" zeroTag "expr:false") None = (old, Err e)
  ∧ old = old.
Proof.
  intros old param e.
  assert (bindSliceWith (BindValue 5) 5 exampleStore old stringTy param None = (old, Err e))
    as Hs by (vm_compute; reflexivity).
  assert (bindMapWith (BindValue 5) exampleStore old true stringTy
            (mkParam "m" "S" zeroTag "expr:false") None = (old, Err e))
    as Hm by (vm_compute; reflexivity).
  split; [exact Hs |]. split; [exact Hm |].
  apply (proj1 (proj1 (bind_container_atomic (BindValue 5) 5 exampleStore old true
                         stringTy param None old (Err e)) Hs)).
  discriminate.
Defined.

(** C9 as stated fails: a slice whose text is the empty string is assigned
    without its validator having been called; here the validator rejects
    every value, the call returns nil and the target holds the empty
    slice. *)
Lemma bind_container_unvalidated_counterexample :
  let param := mkParam "e" "S" zeroTag "expr:false" in
  bindSlice 5 exampleStore (VOther "old") stringTy param None = (VSlice [], Ok ())
  ∧ Validate (ParamValidate param) (VSlice [])
    = Some (Errorf "validate failed on %q for value %v" ["false"; "?"]%string).
Proof. split; vm_compute; reflexivity. Qed.

(** ** Ordering the configers *)

Local Close Scope Z_scope.

Section SortFacts.
Context {Ptr : Type} `{!EqDecision Ptr} (deref : Ptr → Configer).
Implicit Types (cs l deps : list Ptr) (st : lists (Ptr := Ptr)) (c d x cur : Ptr).

(** *** The lists *)

Lemma elem_of_getBeforeConfigers cs d cur :
  d ∈ getBeforeConfigers deref cs cur ↔ d ∈ cs ∧ mustPrecede deref d cur.
Proof.
  unfold getBeforeConfigers, mustPrecede.
  assert (∀ (a : string) (names : list string) c,
            d ∈ (nm ← names; if String.eqb a nm then [c] else []) ↔ d = c ∧ a ∈ names)
    as Hin.
  { intros a names c. rewrite list_elem_of_bind. split.
    - intros (nm & Hd & Hnm). destruct (String.eqb_spec a nm) as [-> | _].
      + apply list_elem_of_singleton in Hd. by subst.
      + by apply elem_of_nil in Hd.
    - intros [-> Ha]. exists a. rewrite String.eqb_refl. split; [left | done]. }
  rewrite list_elem_of_bind. split.
  - intros (c & [H | H]%elem_of_app & Hc); apply Hin in H as [-> H]; auto.
  - intros [Hd H]. exists d. split; [|done].
    apply elem_of_app. destruct H as [H | H]; [left | right]; by apply Hin.
Qed.

Lemma suffixFrom_None c l : suffixFrom c l = None ↔ c ∉ l.
Proof.
  induction l as [|x l IH]; cbn [suffixFrom].
  - split; [intros _; apply not_elem_of_nil | done].
  - rewrite not_elem_of_cons. destruct (decide (x = c)) as [-> | Hne].
    + split; [done | by intros [? _]].
    + rewrite IH. split; [intros ?; split; [congruence | done] | by intros [_ ?]].
Qed.

Lemma suffixFrom_Some c l chain :
  suffixFrom c l = Some chain → ∃ pre rest, l = pre ++ chain ∧ chain = c :: rest.
Proof.
  induction l as [|x l IH]; cbn [suffixFrom]; [done |].
  destruct (decide (x = c)) as [-> | Hne].
  - intros [= <-]. by exists [], l.
  - intros (pre & rest & -> & ->)%IH. by exists (x :: pre), rest.
Qed.

Lemma filter_all (P : Ptr → Prop) `{!∀ x, Decision (P x)} l :
  (∀ x, x ∈ l → P x) → filter P l = l.
Proof.
  induction l as [|x l IH]; intros Hall; [done |].
  rewrite filter_cons_True by (apply Hall; left).
  f_equal. apply IH. intros y Hy. apply Hall. by right.
Qed.

Lemma removeFirst_filter c l :
  NoDup l → removeFirst c l = filter (λ x, x ≠ c) l.
Proof.
  induction 1 as [|x l Hx Hl IH]; cbn [removeFirst]; [done |].
  destruct (decide (x = c)) as [-> | Hne].
  - rewrite filter_cons_False by naive_solver.
    symmetry. apply filter_all. intros y Hy ->. done.
  - rewrite filter_cons_True by done. by rewrite IH.
Qed.

Lemma removeFirst_snoc c l : c ∉ l → removeFirst c (l ++ [c]) = l.
Proof.
  induction l as [|x l IH]; cbn [removeFirst app].
  - intros _. by rewrite decide_True.
  - intros [Hne Hl]%not_elem_of_cons. rewrite decide_False by done. by rewrite IH.
Qed.

(** The head of what a filter keeps comes after whatever it drops. *)
Lemma filter_head_before (P : Ptr → Prop) `{!∀ x, Decision (P x)} l c rest u :
  NoDup l → filter P l = c :: rest → precedes l u c → ¬ P u.
Proof.
  intros Hnd Hf (i & j & Hij & Hi & Hj) Hu.
  revert i j Hij Hi Hj Hf.
  induction Hnd as [|x l Hx Hl IH]; intros i j Hij Hi Hj Hf; [done |].
  destruct j as [|j]; [lia |]. cbn in Hj.
  destruct i as [|i]; cbn in Hi.
  - simplify_eq. rewrite filter_cons_True in Hf by done. simplify_eq.
    apply Hx. by eapply list_elem_of_lookup_2.
  - destruct (decide (P x)).
    + rewrite filter_cons_True in Hf by done. simplify_eq.
      apply Hx. by eapply list_elem_of_lookup_2.
    + rewrite filter_cons_False in Hf by done. eapply (IH i j); [lia | done..].
Qed.

Section Fixed.
Variable cs : list Ptr.
#[local] Abbreviation dep := (dep deref cs).
#[local] Abbreviation isDep := (isDep deref cs).
#[local] Abbreviation closed := (closed deref cs).
#[local] Abbreviation chain := (chain deref cs).
#[local] Abbreviation Inv := (Inv deref cs).
#[local] Abbreviation grows := (grows deref cs).
#[local] Abbreviation visited := (visited deref cs).
#[local] Abbreviation leaves := (leaves deref cs).
#[local] Abbreviation cycleFound := (cycleFound deref cs).
#[local] Abbreviation stable := (stable deref cs).
#[local] Abbreviation betweenRounds := (betweenRounds deref cs).

Lemma closed_snoc l x :
  closed l → (∀ d, dep d x → d ∈ l) → closed (l ++ [x]).
Proof.
  intros Hl Hx i y d Hi Hd.
  destruct (decide (i < length l)) as [Hlt | Hge].
  - rewrite lookup_app_l in Hi by done.
    destruct (Hl i y d Hi Hd) as (j & Hj & Hjd).
    exists j. split; [done |]. rewrite lookup_app_l by lia. done.
  - rewrite lookup_app_r in Hi by lia.
    destruct (i - length l) as [|k] eqn:Hk; [|by destruct k].
    cbn in Hi. simplify_eq.
    destruct (list_elem_of_lookup_1 _ _ (Hx d Hd)) as [j Hj].
    pose proof (lookup_lt_Some _ _ _ Hj).
    exists j. split; [lia |]. by rewrite lookup_app_l.
Qed.

Lemma chain_nil : chain [].
Proof. intros i a b Hi. done. Qed.

Lemma chain_prefix l k : chain (l ++ k) → chain l.
Proof.
  intros H i a b Hi Hj. apply (H i a b).
  - apply lookup_app_l_Some. done.
  - apply lookup_app_l_Some. done.
Qed.

Lemma chain_suffix l k : chain (l ++ k) → chain k.
Proof.
  intros H i a b Hi Hj. apply (H (length l + i) a b).
  - by rewrite lookup_app_r, Nat.add_sub' by lia.
  - replace (S (length l + i)) with (length l + S i) by lia.
    by rewrite lookup_app_r, Nat.add_sub' by lia.
Qed.

Lemma chain_snoc l x :
  chain l → (∀ y, last l = Some y → dep x y) → chain (l ++ [x]).
Proof.
  intros Hl Hx i a b Hi Hj.
  destruct (decide (S i < length l)) as [Hlt | Hge].
  - rewrite lookup_app_l in Hi, Hj by lia. by apply (Hl i).
  - pose proof (lookup_lt_Some _ _ _ Hj) as Hlen. rewrite length_app in Hlen.
    cbn in Hlen. assert (S i = length l) as Heq by lia.
    rewrite lookup_app_l in Hi by lia.
    rewrite lookup_app_r, Heq, Nat.sub_diag in Hj by lia. cbn in Hj. simplify_eq.
    apply Hx. rewrite last_lookup. rewrite <- Heq. done.
Qed.

(** *** The invariant *)

Lemma NoDup_length_le l : NoDup l → (∀ x, x ∈ l → x ∈ cs) → length l ≤ length cs.
Proof. intros Hl Hin. apply submseteq_length. by apply NoDup_submseteq. Qed.

Lemma grows_refl st : Inv st → grows st st.
Proof.
  intros Hinv. split; [done |]. split; [done |]. split.
  - symmetry. apply filter_all. intros x Hx Hs.
    by apply (inv_sorted_toSort _ _ _ Hinv x).
  - exists []. split; [by rewrite List.app_nil_r | by intros x ?%elem_of_nil].
Qed.

Lemma grows_trans st1 st2 st3 : grows st1 st2 → grows st2 st3 → grows st1 st3.
Proof.
  intros (_ & Hp12 & Ht12 & new12 & Hs12 & Hn12)
         (Hinv & Hp23 & Ht23 & new23 & Hs23 & Hn23).
  split; [done |]. split; [congruence |]. split.
  - rewrite Ht23, Ht12. apply list_filter_filter_l.
    intros x Hx Hin. apply Hx. rewrite Hs23. apply elem_of_app. by left.
  - exists (new12 ++ new23). split; [by rewrite Hs23, Hs12, <- app_assoc |].
    intros x [Hx | Hx]%elem_of_app; [by apply Hn12 |].
    rewrite <- Hp12. by apply Hn23.
Qed.

Lemma grows_sorted st st' x : grows st st' → x ∈ sorted st → x ∈ sorted st'.
Proof.
  intros (_ & _ & _ & new & -> & _) Hx. apply elem_of_app. by left.
Qed.

(** Entering [c] from inside the loop over the units before [cur]. *)
Lemma Inv_push st c cur :
  Inv st → last (processing st) = Some cur → dep c cur →
  c ∉ sorted st → c ∉ processing st →
  Inv (mkLists (toSort st) (sorted st) (processing st ++ [c])).
Proof.
  intros [Hsn Hpn Htn Hsc Hpc Htc Hcov Hst Hsp Hcl Hch] Hlast Hdep Hs Hp.
  split; cbn; try done.
  - apply NoDup_app. split; [done |]. split; [|apply NoDup_singleton].
    intros x Hx ->%list_elem_of_singleton. done.
  - intros x [Hx | ->%list_elem_of_singleton]%elem_of_app; [auto | apply Hdep].
  - intros x Hx. rewrite elem_of_app.
    destruct (Hcov x Hx) as [? | [? | ?]]; auto.
  - intros x Hx [Hx' | ->%list_elem_of_singleton]%elem_of_app; [|done].
    by apply (Hsp x).
  - apply chain_snoc; [done |]. intros y Hy. by simplify_eq.
Qed.

(** Entering [c], the head of [toSort], between two rounds. *)
Lemma Inv_pop st c rest :
  Inv st → processing st = [] → toSort st = c :: rest →
  Inv (mkLists rest (sorted st) ([] ++ [c])) ∧ c ∉ sorted st.
Proof.
  intros [Hsn Hpn Htn Hsc Hpc Htc Hcov Hst Hsp Hcl Hch] Hp Ht.
  rewrite Hp in *. rewrite Ht in *.
  apply NoDup_cons in Htn as [Hc Hrest].
  assert (c ∉ sorted st) as Hcs.
  { intros Hin. apply (Hst c Hin). left. }
  split; [|done]. split; cbn; try done.
  - apply NoDup_singleton.
  - intros x ->%list_elem_of_singleton. apply Htc. left.
  - intros x Hx. apply Htc. by right.
  - intros x Hx. destruct (Hcov x Hx) as [[-> | ?]%elem_of_cons | [? | ?%elem_of_nil]];
      [right; right; by left | by left | right; by left | done].
  - intros x Hx Hin. apply (Hst x Hx). by right.
  - intros x Hx ->%list_elem_of_singleton. done.
Qed.

Lemma cycleFound_suffix st c cur found :
  Inv st → last (processing st) = Some cur → dep c cur →
  suffixFrom c (processing st) = Some found →
  cycleFound (cycleError deref found c).
Proof.
  intros Hinv Hlast Hdep (pre & rest & Hproc & ->)%suffixFrom_Some.
  exists c, (c :: rest). split; [done |].
  assert (∀ x, x ∈ c :: rest → x ∈ cs) as Hcs.
  { intros x Hx. apply (inv_processing_cs _ _ _ Hinv). rewrite Hproc.
    apply elem_of_app. by right. }
  assert (chain (c :: rest)) as Hchain.
  { apply (chain_suffix pre). rewrite <- Hproc. apply (inv_chain _ _ _ Hinv). }
  assert (last (c :: rest) = Some cur) as Hl.
  { rewrite Hproc in Hlast. by rewrite last_app_cons in Hlast. }
  split; [done |]. split; [done |].
  intros i a b Hi Hj.
  assert (a ∈ cs) as Ha by (eapply Hcs, list_elem_of_lookup_2; done).
  destruct (decide (S i < length (c :: rest))) as [Hlt | Hge].
  - rewrite lookup_app_l in Hj by done.
    destruct (Hchain i a b Hi Hj) as [Hb Hm]. done.
  - pose proof (lookup_lt_Some _ _ _ Hi) as Hlen.
    assert (S i = length (c :: rest)) as Heq by lia.
    rewrite lookup_app_r, Heq, Nat.sub_diag in Hj by lia. cbn in Hj. simplify_eq.
    rewrite last_lookup in Hl. rewrite <- Heq in Hl. cbn in Hl.
    rewrite Hi in Hl. simplify_eq. destruct Hdep as [Hb Hm]. done.
Qed.

(** *** The loop over the units that precede [cur] *)

Lemma beforeLoop_spec recurse cur proc1 :
  last proc1 = Some cur →
  (∀ st c,
     Inv st → processing st = proc1 → c ∈ toSort st → c ∉ sorted st →
     c ∉ proc1 → dep c cur →
     leaves (visited (toSort st) (sorted st) proc1 c) (recurse st c)) →
  ∀ deps st,
    Inv st → processing st = proc1 → (∀ d, d ∈ deps → dep d cur) →
    leaves (λ st', grows st st' ∧ ∀ d, d ∈ deps → d ∈ sorted st')
      (beforeLoop deref recurse deps st).
Proof.
  intros Hlast Hrec deps. induction deps as [|c deps IH]; intros st Hinv Hproc Hdeps.
  { cbn. split; [by apply grows_refl | by intros d ?%elem_of_nil]. }
  assert (dep c cur) as Hc by (apply Hdeps; left).
  assert (∀ d, d ∈ deps → dep d cur) as Hdeps' by (intros d Hd; apply Hdeps; by right).
  cbn [beforeLoop].
  destruct (suffixFrom c (processing st)) as [found|] eqn:Hsuf.
  { cbn. eapply cycleFound_suffix; [done | by rewrite Hproc | done | done]. }
  apply suffixFrom_None in Hsuf.
  destruct (bool_decide (c ∈ sorted st)) eqn:Hs; cbn [negb andb].
  - apply bool_decide_eq_true in Hs.
    specialize (IH st Hinv Hproc Hdeps').
    destruct (beforeLoop deref recurse deps st) as [st'| | |]; cbn in *; try done.
    destruct IH as [Hg Hall]. split; [done |].
    intros d [-> | Hd]%elem_of_cons; [by eapply grows_sorted | auto].
  - apply bool_decide_eq_false in Hs.
    destruct (bool_decide (c ∈ toSort st)) eqn:Ht.
    + apply bool_decide_eq_true in Ht.
      rewrite Hproc in Hsuf.
      specialize (Hrec st c Hinv Hproc Ht Hs Hsuf Hc).
      destruct (recurse st c) as [st1| | |]; cbn in Hrec; try done.
      destruct Hrec as (Hinv1 & Hp1 & Ht1 & new & Hs1 & Hnew).
      assert (grows st st1) as Hg1.
      { split; [done |]. split; [congruence |]. split; [done |].
        exists (new ++ [c]). split; [done |].
        intros x [Hx | ->%list_elem_of_singleton]%elem_of_app.
        - rewrite Hproc. destruct (Hnew x Hx) as (? & _ & ?). done.
        - rewrite Hproc. split; [done |]. exists cur. split; [|apply Hc].
          apply (inv_processing_cs _ _ _ Hinv). rewrite Hproc.
          eapply list_elem_of_lookup_2. rewrite last_lookup in Hlast. done. }
      specialize (IH st1 Hinv1 Hp1 Hdeps').
      destruct (beforeLoop deref recurse deps st1) as [st'| | |]; cbn in *; try done.
      destruct IH as [Hg Hall]. split; [by eapply grows_trans |].
      intros d [-> | Hd]%elem_of_cons; [|auto].
      eapply grows_sorted; [done |]. rewrite Hs1, !elem_of_app.
      right; right. left.
    + apply bool_decide_eq_false in Ht. exfalso.
      destruct Hc as [Hcs _].
      destruct (inv_cover _ _ _ Hinv c Hcs) as [? | [? | ?]]; done.
Qed.

(** *** One call of [sortConfigersByAfter] *)

(** The lists after the loop of the call for [cur] has ended in [st2]
    and [cur] has been moved to [sorted]. *)
Lemma visited_finish tS srt proc cur st2 :
  Inv (mkLists tS srt (proc ++ [cur])) →
  grows (mkLists tS srt (proc ++ [cur])) st2 →
  (∀ d, dep d cur → d ∈ sorted st2) →
  visited tS srt proc cur
    (mkLists (removeFirst cur (toSort st2)) (sorted st2 ++ [cur])
       (removeFirst cur (processing st2))).
Proof.
  intros Hinv1 (Hinv & Hp & Ht & new & Hs & Hnew) Hdeps. cbn in Hp, Ht, Hs, Hnew.
  destruct Hinv as [Hsn Hpn Htn Hsc Hpc Htc Hcov Hst Hsp Hcl Hch].
  rewrite Hp in *.
  apply NoDup_app in Hpn as (Hprocn & Hcurp & _).
  assert (cur ∉ proc) as Hcur
    by (intros Hin; apply (Hcurp cur Hin); left).
  assert (cur ∉ sorted st2) as Hcs.
  { intros Hin. apply (Hsp cur Hin). apply elem_of_app. right. left. }
  assert (cur ∈ cs) as Hcc by (apply Hpc, elem_of_app; right; left).
  assert (removeFirst cur (toSort st2) = filter (λ x, x ≠ cur) (toSort st2)) as Hrm
    by (by apply removeFirst_filter).
  rewrite removeFirst_snoc by done.
  split; [|split; [done | split]]; cbn.
  - split; cbn.
    + apply NoDup_app. split; [done |]. split; [|apply NoDup_singleton].
      intros x Hx ->%list_elem_of_singleton. done.
    + done.
    + rewrite Hrm. by apply NoDup_filter.
    + intros x [Hx | ->%list_elem_of_singleton]%elem_of_app; auto.
    + intros x Hx. apply Hpc, elem_of_app. by left.
    + rewrite Hrm. intros x [_ Hx]%list_elem_of_filter. auto.
    + intros x Hx. rewrite Hrm, list_elem_of_filter, elem_of_app, list_elem_of_singleton.
      destruct (decide (x = cur)) as [-> | Hne]; [right; left; by right |].
      destruct (Hcov x Hx) as [? | [? | [? | ->%list_elem_of_singleton]%elem_of_app]];
        auto; done.
    + rewrite Hrm. intros x [Hx | ->%list_elem_of_singleton]%elem_of_app
                            [Hne Hin]%list_elem_of_filter; [|done].
      by apply (Hst x).
    + intros x [Hx | ->%list_elem_of_singleton]%elem_of_app Hin; [|done].
      apply (Hsp x Hx), elem_of_app. by left.
    + by apply closed_snoc.
    + by apply (chain_prefix _ [cur]).
  - rewrite Hrm, Ht, list_filter_filter. apply list_filter_iff. intros x.
    rewrite elem_of_app, list_elem_of_singleton. tauto.
  - exists new. split; [by rewrite Hs, <- app_assoc |].
    intros x Hx. destruct (Hnew x Hx) as [Hxp Hxd].
    rewrite elem_of_app, list_elem_of_singleton in Hxp.
    repeat split; [tauto | tauto | done].
Qed.

Lemma sortConfigersByAfter_spec fuel :
  ∀ st current cur tS,
    (current = Some cur ∧ tS = toSort st) ∨ (current = None ∧ toSort st = cur :: tS) →
    Inv (mkLists tS (sorted st) (processing st ++ [cur])) →
    length cs < fuel + length (processing st) →
    leaves (visited tS (sorted st) (processing st) cur)
      (sortConfigersByAfter deref fuel cs st current).
Proof.
  induction fuel as [|fuel IH]; intros st current cur tS Hcur Hinv Hfuel.
  { exfalso.
    pose proof (NoDup_length_le _ (inv_processing_nodup _ _ _ Hinv)
                  (inv_processing_cs _ _ _ Hinv)) as Hlen.
    cbn in Hlen. rewrite length_app in Hlen. cbn in Hlen. lia. }
  cbn [sortConfigersByAfter].
  assert (match current with
          | Some c => Some (c, toSort st)
          | None => match toSort st with c :: rest => Some (c, rest) | [] => None end
          end = Some (cur, tS)) as ->.
  { destruct Hcur as [[-> ->] | [-> ->]]; done. }
  set (st1 := mkLists tS (sorted st) (processing st ++ [cur])) in *.
  pose proof (beforeLoop_spec
                (λ st c, sortConfigersByAfter deref fuel cs st (Some c))
                cur (processing st ++ [cur]) (last_snoc _ _)) as Hloop.
  specialize (Hloop
    (λ st2 c Hinv2 Hp2 Hin Hns Hnp Hdep,
       ltac:(rewrite <- Hp2; apply (IH st2 (Some c) c (toSort st2));
             [by left
             | apply (Inv_push st2 c cur); [done | by rewrite Hp2, last_snoc | done
                                           | done | by rewrite Hp2]
             | rewrite Hp2, length_app; cbn; lia]))
    (getBeforeConfigers deref cs cur) st1 Hinv eq_refl
    (λ d Hd, proj1 (elem_of_getBeforeConfigers cs d cur) Hd)).
  destruct (beforeLoop deref _ (getBeforeConfigers deref cs cur) st1)
    as [st2| | |]; cbn in Hloop |- *; try done.
  destruct Hloop as [Hg Hall].
  apply visited_finish; [done | done |].
  intros d Hd. apply Hall. by apply elem_of_getBeforeConfigers.
Qed.

(** *** The rounds of [sortConfigers] *)

Lemma betweenRounds_start : NoDup cs → betweenRounds (mkLists cs [] []).
Proof.
  intros Hcs. split; [|split; [done | split]]; cbn.
  - split; cbn; try done; try apply NoDup_nil_2;
      try (intros x Hx; by apply elem_of_nil in Hx).
    intros x Hx. by left.
  - symmetry. apply filter_all. intros x _. apply not_elem_of_nil.
  - intros u v _ Hv. by apply elem_of_nil in Hv.
Qed.

Lemma precedes_app_l l k a b : precedes l a b → precedes (l ++ k) a b.
Proof.
  intros (i & j & Hij & Hi & Hj). exists i, j.
  split; [done |]. split; by apply lookup_app_l_Some.
Qed.

Lemma precedes_app l k a b : a ∈ l → b ∈ k → precedes (l ++ k) a b.
Proof.
  intros [i Hi]%list_elem_of_lookup_1 [j Hj]%list_elem_of_lookup_1.
  pose proof (lookup_lt_Some _ _ _ Hi).
  exists i, (length l + j). split; [lia |]. split.
  - by apply lookup_app_l_Some.
  - by rewrite lookup_app_r, Nat.add_sub' by lia.
Qed.

Lemma betweenRounds_step st c rest st' :
  NoDup cs → betweenRounds st → toSort st = c :: rest →
  visited rest (sorted st) [] c st' →
  betweenRounds st' ∧ length (toSort st') ≤ length rest.
Proof.
  intros Hcs (Hinv & Hp & Ht & Hstable) Htc (Hinv' & Hp' & Ht' & new & Hs' & Hnew).
  assert (c ∈ sorted st') as Hc
    by (rewrite Hs', !elem_of_app; right; right; left).
  split; [|rewrite Ht'; apply length_filter].
  split; [done |]. split; [done |]. split.
  - rewrite Ht'.
    rewrite <- (list_filter_filter_l (λ x, x ∉ sorted st') (λ x, x ∉ sorted st) cs).
    + rewrite <- Ht, Htc. by rewrite filter_cons_False by (intros Hn; by apply Hn).
    + intros x Hx Hin. apply Hx. rewrite Hs'. apply elem_of_app. by left.
  - intros u v Huv Hv Hnd. rewrite Hs' in Hv |- *.
    apply elem_of_app in Hv as [Hv | [Hv | ->%list_elem_of_singleton]%elem_of_app].
    + apply precedes_app_l. by apply Hstable.
    + destruct (Hnew v Hv) as (_ & _ & Hd). done.
    + rewrite app_assoc. apply precedes_app; [|left].
      apply elem_of_app. left.
      destruct (decide (u ∈ sorted st)) as [Hu | Hu]; [done | exfalso].
      rewrite Htc in Ht. symmetry in Ht.
      by apply (filter_head_before (λ x, x ∉ sorted st) cs c rest u Hcs Ht Huv).
Qed.

Lemma sortLoop_spec rounds :
  NoDup cs →
  ∀ st, betweenRounds st → length (toSort st) ≤ rounds →
    leaves (λ st', betweenRounds st' ∧ toSort st' = [])
      (sortLoop deref rounds (S (length cs)) cs st).
Proof.
  intros Hcs. induction rounds as [|rounds IH]; intros st Hst Hlen.
  - destruct (toSort st) eqn:Ht; [|cbn in Hlen; lia].
    cbn. rewrite Ht. cbn. done.
  - cbn [sortLoop]. destruct (toSort st) as [|c rest] eqn:Ht; [done |].
    destruct Hst as (Hinv & Hp & Hrest).
    destruct (Inv_pop st c rest Hinv Hp Ht) as [Hinv1 Hc].
    pose proof (sortConfigersByAfter_spec (S (length cs)) st None c rest
                  (or_intror (conj eq_refl Ht))) as Hv.
    rewrite Hp in Hv. specialize (Hv Hinv1 ltac:(cbn; lia)).
    destruct (sortConfigersByAfter deref (S (length cs)) cs st None)
      as [st'| | |]; cbn in Hv |- *; try done.
    destruct (betweenRounds_step st c rest st' Hcs (conj Hinv (conj Hp Hrest)) Ht Hv)
      as [Hst' Hlen'].
    apply IH; [done |]. cbn in Hlen. lia.
Qed.

(** *** The result *)

Lemma sortConfigers_outcome :
  NoDup cs →
  match sortConfigers deref cs with
  | Done l => NoDup l ∧ l ≡ₚ cs ∧ closed l ∧ stable l
  | PanicError msg => cycleFound msg
  | PanicNil | NoFuel => False
  end.
Proof.
  intros Hcs. unfold sortConfigers.
  pose proof (sortLoop_spec (length cs) Hcs (mkLists cs [] [])
                (betweenRounds_start Hcs) (le_n _)) as H.
  destruct (sortLoop deref (length cs) (S (length cs)) cs (mkLists cs [] []))
    as [st| | |]; cbn in H |- *; try done.
  destruct H as [(Hinv & Hp & Ht & Hstable) Hempty].
  pose proof (inv_sorted_nodup _ _ _ Hinv) as Hnd.
  split; [done |]. split; [|split; [apply (inv_closed _ _ _ Hinv) | done]].
  apply NoDup_Permutation; [done | done |].
  intros x. split; [apply (inv_sorted_cs _ _ _ Hinv) |].
  intros Hx. destruct (decide (x ∈ sorted st)) as [? | Hn]; [done | exfalso].
  rewrite Hempty in Ht. symmetry in Ht.
  by apply (filter_nil_not_elem_of _ _ x Ht Hn).
Qed.

Lemma closed_precedes l a b :
  closed l → (∀ x, x ∈ cs → x ∈ l) → prec deref cs a b → precedes l a b.
Proof.
  intros Hcl Hall (Ha & Hb & Hm).
  destruct (list_elem_of_lookup_1 _ _ (Hall b Hb)) as [j Hj].
  destruct (Hcl j b a Hj (conj Ha Hm)) as (i & Hij & Hi).
  by exists i, j.
Qed.

Lemma precedes_trans l a b c :
  NoDup l → precedes l a b → precedes l b c → precedes l a c.
Proof.
  intros Hnd (i & j & Hij & Hi & Hj) (j' & k & Hjk & Hj' & Hk).
  assert (j = j') as <- by (by eapply NoDup_lookup).
  exists i, k. split; [lia | done].
Qed.

Lemma precedes_irrefl l a : NoDup l → ¬ precedes l a a.
Proof.
  intros Hnd (i & j & Hij & Hi & Hj).
  assert (i = j) by (by eapply NoDup_lookup). lia.
Qed.

Lemma tc_precedes l a b :
  NoDup l → closed l → (∀ x, x ∈ cs → x ∈ l) →
  tc (prec deref cs) a b → precedes l a b.
Proof.
  intros Hnd Hcl Hall. induction 1 as [a b Hab | a b c Hab _ IH].
  - by apply closed_precedes.
  - eapply precedes_trans; [done | by apply closed_precedes | done].
Qed.

(** A cycle as the sorter reports it is a cycle of the precedence
    relation. *)
Lemma cycleFrom_tc first cyc :
  cycleFrom deref cs first cyc → tc (prec deref cs) first first.
Proof.
  intros (Hhead & _ & Hstep).
  destruct cyc as [|x cyc]; [done |]. cbn in Hhead. simplify_eq.
  assert (∀ i y, ((first :: cyc) ++ [first]) !! S i = Some y →
                 tc (prec deref cs) y first) as Hwalk.
  { induction i as [|i IH]; intros y Hy.
    - apply tc_once. by apply (Hstep 0 first y).
    - assert (is_Some (((first :: cyc) ++ [first]) !! S i)) as [z Hz].
      { apply lookup_lt_is_Some. apply lookup_lt_Some in Hy. lia. }
      eapply tc_l; [|by apply IH].
      apply (Hstep (S i) z y); [|done].
      apply lookup_lt_Some in Hy. rewrite length_app in Hy. cbn in Hy.
      rewrite lookup_app_l in Hz by (cbn; lia). done. }
  apply (Hwalk (length cyc)).
  rewrite lookup_app_r by (cbn; lia).
  by replace (S (length cyc) - length (first :: cyc)) with 0 by (cbn; lia).
Qed.

(** C1, as the code has it.  The units of the collection are distinct
    pointers and their precedence relation has no cycle.  Then
    [sortConfigers] returns a list that holds every unit exactly once
    and in which [a] stands before [b] whenever [a] is before [b] or
    [b] is after [a].  A unit that is not required before any other
    stands after every unit that was listed before it: units without
    any constraint keep their order. *)
Theorem sortConfigers_sorts :
  NoDup cs → acyclic deref cs →
  ∃ l, sortConfigers deref cs = Done l
       ∧ NoDup l ∧ l ≡ₚ cs
       ∧ (∀ a b, prec deref cs a b → precedes l a b)
       ∧ (∀ u v, precedes cs u v → (∀ w, ¬ prec deref cs v w) → precedes l u v).
Proof.
  intros Hcs Hacyc. pose proof (sortConfigers_outcome Hcs) as H.
  destruct (sortConfigers deref cs) as [l|msg| |]; try done.
  - destruct H as (Hnd & Hperm & Hcl & Hstable).
    assert (∀ x, x ∈ cs → x ∈ l) as Hall
      by (intros x Hx; by apply (proj2 (elem_of_Permutation_proper x l cs Hperm))).
    exists l. repeat split; try done.
    + intros a b Hab. by apply closed_precedes.
    + intros u v Huv Hfree.
      assert (v ∈ cs) as Hv.
      { destruct Huv as (i & j & _ & _ & Hj). by eapply list_elem_of_lookup_2. }
      apply Hstable; [done | by apply Hall |].
      intros (w & Hw & Hm). by apply (Hfree w).
  - destruct H as (first & cyc & _ & Hcyc).
    destruct (Hacyc first). by eapply cycleFrom_tc.
Qed.

(** The text of the error: the names of the chain and of the unit that
    closes it, with arrows between them. *)
Lemma cycleError_concat chain pc :
  cycleError deref chain pc
  = "found cycle config: "
    +:+ String.concat " -> " ((λ x, name (deref x)) <$> (chain ++ [pc])).
Proof.
  unfold cycleError. f_equal. induction chain as [|t chain IH]; [done |].
  cbn [foldr]. rewrite IH. cbn [app fmap list_fmap String.concat].
  by destruct chain.
Qed.

Lemma concat_names (sep : string) (l : list string) (nm : string) :
  nm ∈ l → ∃ pre post, String.concat sep l = pre +:+ nm +:+ post.
Proof.
  induction l as [|y l IH]; [by intros ?%elem_of_nil |].
  intros [-> | Hx]%elem_of_cons.
  - destruct l as [|z l].
    + exists EmptyString, EmptyString. cbn. by rewrite append_nil_r.
    + exists EmptyString, (sep +:+ String.concat sep (z :: l)). done.
  - destruct (IH Hx) as (pre & post & Heq). destruct l as [|z l].
    { by apply elem_of_nil in Hx. }
    exists (y +:+ sep +:+ pre), post.
    change (String.concat sep (y :: z :: l))
      with (y +:+ sep +:+ String.concat sep (z :: l)).
    by rewrite Heq, !append_assoc.
Qed.

(** C2.  The units of the collection are distinct pointers and their
    precedence relation has a cycle.  Then [sortConfigers] returns no
    list: it panics.  The units [cyc] of the error are a cycle of the
    relation, each of which has to run after the next one and the last
    one after the first, and the text of the error is
    [found cycle config: ] followed by their names in this order, with
    [ -> ] between them, and closed by the name of the first: the name
    of every unit of the cycle stands in it. *)
Theorem sortConfigers_cycle :
  NoDup cs → (∃ x, tc (prec deref cs) x x) →
  ∃ first cyc msg,
    sortConfigers deref cs = PanicError msg
    ∧ cycleFrom deref cs first cyc
    ∧ msg = "found cycle config: "
            +:+ String.concat " -> " ((λ x, name (deref x)) <$> (cyc ++ [first]))
    ∧ ∀ x, x ∈ cyc → ∃ pre post, msg = pre +:+ name (deref x) +:+ post.
Proof.
  intros Hcs [x Hx]. pose proof (sortConfigers_outcome Hcs) as H.
  destruct (sortConfigers deref cs) as [l|msg| |]; try done.
  - destruct H as (Hnd & Hperm & Hcl & _). exfalso.
    apply (precedes_irrefl l x Hnd).
    apply tc_precedes; try done.
    intros y Hy. by apply (proj2 (elem_of_Permutation_proper y l cs Hperm)).
  - destruct H as (first & cyc & -> & Hcyc). exists first, cyc, (cycleError deref cyc first).
    split; [done |]. split; [done |]. split; [apply cycleError_concat |].
    intros y Hy. rewrite cycleError_concat.
    destruct (concat_names " -> " ((λ x, name (deref x)) <$> (cyc ++ [first]))
                (name (deref y))) as (pre & post & Heq).
    { apply list_elem_of_fmap. exists y. split; [done |].
      apply elem_of_app. by left. }
    exists ("found cycle config: " +:+ pre), post.
    by rewrite Heq, !append_assoc.
Qed.

End Fixed.
End SortFacts.

(** *** On concrete collections *)

#[local] Set Warnings "-clear-no-such-hyp".

Example sortConfigers_spec_cycle :
  sortConfigers (heapOf cyclicUnits) [0; 1; 2]
  = PanicError "found cycle config: A -> C -> B -> A".
Proof. vm_compute. reflexivity. Qed.

Example sortConfigers_spec_order :
  sortConfigers (heapOf orderedUnits) [0; 1; 2] = Done [0; 2; 1].
Proof. vm_compute. reflexivity. Qed.

Example sortConfigers_self_cycle :
  sortConfigers (heapOf [mkConfiger "A" ["A"%string] []]) [0]
  = PanicError "found cycle config: A -> A".
Proof. vm_compute. reflexivity. Qed.

Lemma NoDup_012 : NoDup [0; 1; 2].
Proof. repeat (apply NoDup_cons; split; [set_solver |]). apply NoDup_nil_2. Qed.

Lemma prec_orderedUnits a b :
  prec (heapOf orderedUnits) [0; 1; 2] a b → b = 1 ∧ a ≠ 1.
Proof.
  intros (Ha & Hb & Hm).
  repeat (apply elem_of_cons in Ha as [-> | Ha]); [| | |by apply elem_of_nil in Ha];
    (repeat (apply elem_of_cons in Hb as [-> | Hb]); [| | |by apply elem_of_nil in Hb]);
    unfold mustPrecede in Hm; cbn in Hm; set_solver.
Qed.

Lemma acyclic_orderedUnits : acyclic (heapOf orderedUnits) [0; 1; 2].
Proof.
  assert (∀ a b, tc (prec (heapOf orderedUnits) [0; 1; 2]) a b → b = 1 ∧ a ≠ 1) as H.
  { induction 1 as [a b Hab | a b c Hab _ IH].
    - by apply prec_orderedUnits.
    - apply prec_orderedUnits in Hab. split; [apply IH | apply Hab]. }
  intros x Hx. apply H in Hx. by destruct Hx.
Qed.

Lemma prec_pulledUnits a b :
  prec (heapOf pulledUnits) [0; 1; 2] a b → a = 2 ∧ b = 0.
Proof.
  intros (Ha & Hb & Hm).
  repeat (apply elem_of_cons in Ha as [-> | Ha]); [| | |by apply elem_of_nil in Ha];
    (repeat (apply elem_of_cons in Hb as [-> | Hb]); [| | |by apply elem_of_nil in Hb]);
    unfold mustPrecede in Hm; cbn in Hm; set_solver.
Qed.

Lemma tc_pulledUnits a b :
  tc (prec (heapOf pulledUnits) [0; 1; 2]) a b → a = 2 ∧ b = 0.
Proof.
  induction 1 as [a b Hab | a b c Hab _ IH].
  - by apply prec_pulledUnits.
  - apply prec_pulledUnits in Hab. destruct Hab as [-> ->]. by destruct IH.
Qed.

Lemma sortConfigers_sorts_witness :
  ∃ l, sortConfigers (heapOf orderedUnits) [0; 1; 2] = Done l
       ∧ NoDup l ∧ l ≡ₚ [0; 1; 2]
       ∧ (∀ a b, prec (heapOf orderedUnits) [0; 1; 2] a b → precedes l a b)
       ∧ (∀ u v, precedes [0; 1; 2] u v
                 → (∀ w, ¬ prec (heapOf orderedUnits) [0; 1; 2] v w) → precedes l u v).
Proof.
  apply (sortConfigers_sorts (heapOf orderedUnits) [0; 1; 2]).
  - exact NoDup_012.
  - exact acyclic_orderedUnits.
Defined.

Lemma sortConfigers_cycle_witness :
  ∃ first cyc msg,
    sortConfigers (heapOf cyclicUnits) [0; 1; 2] = PanicError msg
    ∧ cycleFrom (heapOf cyclicUnits) [0; 1; 2] first cyc
    ∧ msg = "found cycle config: "
            +:+ String.concat " -> "
                  ((λ x, name (heapOf cyclicUnits x)) <$> (cyc ++ [first]))
    ∧ ∀ x, x ∈ cyc → ∃ pre post, msg = pre +:+ name (heapOf cyclicUnits x) +:+ post.
Proof.
  apply (sortConfigers_cycle (heapOf cyclicUnits) [0; 1; 2]).
  - exact NoDup_012.
  - exists 0.
    assert (∀ a b, a ∈ [0; 1; 2] → b ∈ [0; 1; 2] →
                   mustPrecede (heapOf cyclicUnits) a b →
                   prec (heapOf cyclicUnits) [0; 1; 2] a b) as Hp
      by (intros a b Ha Hb Hm; by split).
    eapply tc_l; [apply (Hp 0 1) | eapply tc_l; [apply (Hp 1 2) | apply tc_once, (Hp 2 0)]];
      try (unfold mustPrecede; cbn); set_solver.
Defined.

(** C1 as stated fails in its last part.  [C] is before [A] and nothing
    else is required, so [B] and [C] have no constraint between them, not
    even through other units; [B] is listed before [C], and [C] is sorted
    before [B]. *)
Lemma sortConfigers_order_counterexample :
  let heap := heapOf pulledUnits in
  let cs := [0; 1; 2] in
  NoDup cs
  ∧ acyclic heap cs
  ∧ ¬ tc (prec heap cs) 1 2
  ∧ ¬ tc (prec heap cs) 2 1
  ∧ precedes cs 1 2
  ∧ sortConfigers heap cs = Done [2; 0; 1]
  ∧ precedes [2; 0; 1] 2 1
  ∧ ¬ precedes [2; 0; 1] 1 2.
Proof.
  intros heap cs. repeat split.
  - exact NoDup_012.
  - intros x Hx. apply tc_pulledUnits in Hx. by destruct Hx as [-> ?].
  - intros H. apply tc_pulledUnits in H. by destruct H.
  - intros H. apply tc_pulledUnits in H. by destruct H.
  - exists 1, 2. split; [lia | done].
  - exists 0, 2. split; [lia | done].
  - intros (i & j & Hij & Hi & Hj).
    destruct i as [|[|[|i]]]; destruct j as [|[|[|j]]]; cbn in Hi, Hj; simplify_eq; lia.
Qed.

(** * Further properties of the code *)

Local Open Scope Z_scope.

(** ** Tags *)

Section MoreStringFacts.
Implicit Types s x y sep : string.

Lemma HasPrefix_take n s sep :
  HasPrefix (take n s) sep = true → HasPrefix s sep = true.
Proof.
  revert n s. induction sep as [|a sep IH]; intros n s; [by rewrite !HasPrefix_nil |].
  destruct n as [|n], s as [|b s]; try done.
  change (take (S n) (String b s)) with (String b (take n s)).
  rewrite !HasPrefix_cons. destruct (Ascii.eqb a b); [apply IH | done].
Qed.

(** The text before the first occurrence of [sep] holds no [sep]. *)
Lemma Index_take_neg s a sep :
  0 ≤ Index s (String a sep) →
  Index (take (Z.to_nat (Index s (String a sep))) s) (String a sep) < 0.
Proof.
  induction s as [|c s IH]; [done |].
  rewrite Index_cons.
  destruct (HasPrefix (String c s) (String a sep)) eqn:Hp; [done |].
  destruct (Index s (String a sep) <? 0) eqn:E; [lia |]. apply Z.ltb_ge in E.
  intros _. replace (Z.to_nat (1 + Index s (String a sep)))
    with (S (Z.to_nat (Index s (String a sep)))) by lia.
  change (take (S ?n) (String c s)) with (String c (take n s)).
  apply Index_cons_neg. split; [|by apply IH].
  destruct (HasPrefix (String c (take _ s)) (String a sep)) eqn:Hp'; [|done].
  apply (HasPrefix_take (S (Z.to_nat (Index s (String a sep)))) (String c s)) in Hp'.
  congruence.
Qed.

(** A string is its parts around the first occurrence of [sep]. *)
Lemma Index_split s sep :
  0 ≤ Index s sep →
  take (Z.to_nat (Index s sep)) s +:+ sep
    +:+ drop (Z.to_nat (Index s sep + len sep)) s = s.
Proof.
  induction s as [|c s IH].
  - rewrite Index_nil. destruct sep; [done | simpl; lia].
  - rewrite Index_cons.
    destruct (HasPrefix (String c s) sep) eqn:Hp.
    + intros _. apply HasPrefix_split in Hp as [post Hp].
      change (Z.to_nat 0) with 0%nat. change (take 0 (String c s)) with EmptyString.
      rewrite Hp at 2. simpl "+:+" at 1. f_equal.
      replace (Z.to_nat (0 + len sep)) with (String.length sep) by (unfold len; lia).
      rewrite Hp. apply drop_app.
    + destruct (Index s sep <? 0) eqn:E; [lia |]. apply Z.ltb_ge in E. intros _.
      replace (Z.to_nat (1 + Index s sep)) with (S (Z.to_nat (Index s sep))) by lia.
      replace (Z.to_nat (1 + Index s sep + len sep))
        with (S (Z.to_nat (Index s sep + len sep))) by (pose proof (len_nonneg sep); lia).
      change (take (S ?n) (String c s)) with (String c (take n s)).
      change (drop (S ?n) (String c s)) with (drop n s).
      simpl "+:+". f_equal. by apply IH.
Qed.

Lemma slice_Some s lo hi :
  0 ≤ lo → lo ≤ hi → hi ≤ len s → is_Some (slice s lo hi).
Proof.
  intros H1 H2 H3. unfold slice.
  destruct (0 <=? lo) eqn:E1; [|apply Z.leb_gt in E1; lia].
  destruct (lo <=? hi) eqn:E2; [|apply Z.leb_gt in E2; lia].
  destruct (hi <=? len s) eqn:E3; [|apply Z.leb_gt in E3; lia].
  by eexists.
Qed.

Lemma slice_None s lo hi : hi < lo → slice s lo hi = None.
Proof.
  intros H. unfold slice.
  destruct (lo <=? hi) eqn:E2; [apply Z.leb_le in E2; lia |].
  by rewrite andb_false_r.
Qed.
End MoreStringFacts.

(** X1.  [ParseTag] returns its one error, the wrapped [errInvalidSyntax],
    exactly when the tag begins with its last [||], or has no [}] after
    its first byte, or has no [${].  Otherwise it panics with a slice out
    of range when the last [}] stands before the end of the first [${],
    and returns a tag in every other case; the tag has a splitter only
    when the last [||] stands behind the last [}]. *)
Theorem ParseTag_outcome (tag : string) :
  let i := LastIndex tag "||" in
  let j := LastIndex tag "}" in
  let k := Index tag "${" in
  if (i =? 0) || (j <=? 0) || (k <? 0) then ParseTag tag = Err (parseTagError tag)
  else if j <? k + 2 then ParseTag tag = Panic
  else ∃ ret, ParseTag tag = Ok ret ∧ (j < i ∨ Splitter ret = EmptyString).
Proof.
  intros i j k. rewrite ParseTag_unfold. fold i j k.
  destruct (i =? 0) eqn:Ei; [done |].
  destruct (j <=? 0) eqn:Ej; [done |].
  destruct (k <? 0) eqn:Ek; [done |]. cbn [orb].
  apply Z.eqb_neq in Ei. apply Z.leb_gt in Ej. apply Z.ltb_ge in Ek.
  pose proof (LastIndex_bound tag "||") as Hi. fold i in Hi.
  pose proof (LastIndex_bound tag "}") as Hj. fold j in Hj.
  change (len "||") with 2 in Hi. change (len "}") with 1 in Hj.
  assert (∃ splitter,
             (if j <? i then TrimSpace <$> sliceFrom tag (i + 2) else Some EmptyString)
             = Some splitter ∧ (j < i ∨ splitter = EmptyString)) as (sp & -> & Hsp).
  { destruct (j <? i) eqn:E; [apply Z.ltb_lt in E | by exists EmptyString; auto].
    destruct (slice_Some tag (i + 2) (len tag)) as [x Hx]; [lia | lia | lia |].
    exists (TrimSpace x). unfold sliceFrom. rewrite Hx. auto. }
  destruct (j <? k + 2) eqn:E; [apply Z.ltb_lt in E | apply Z.ltb_ge in E].
  - by rewrite slice_None.
  - destruct (slice_Some tag (k + 2) j) as [body ->]; [lia | lia | lia |].
    destruct (SplitN2 body ":=") as [key d]. exists (tagOf key d sp).
    split; [done |]. destruct Hsp as [? | ->]; [by left | right; by destruct d].
Qed.

(** X2.  A tag that [ParseTag] returns has a key without [:=] and an empty
    default unless it has one; when it has no splitter, rendering it and
    parsing the text again gives the same tag. *)
Theorem ParseTag_normal (tag : string) (ret : ParsedTag) :
  ParseTag tag = Ok ret →
  Index (Key ret) ":=" < 0
  ∧ (HasDef ret = false → Def ret = EmptyString)
  ∧ (Splitter ret = EmptyString → ParseTag (ParsedTag_String ret) = Ok ret).
Proof.
  intros H.
  assert (∃ body key d0 sp, SplitN2 body ":=" = (key, d0) ∧ ret = tagOf key d0 sp)
    as (body & key & d0 & sp & Hsplit & ->).
  { rewrite ParseTag_unfold in H.
    repeat (case_match; try done); simplify_eq; eauto 10. }
  assert (Index key ":=" < 0) as Hkey.
  { unfold SplitN2 in Hsplit.
    destruct (Index body ":=" <? 0) eqn:E; simplify_eq.
    - by apply Z.ltb_lt in E.
    - apply Z.ltb_ge in E. by apply Index_take_neg. }
  split; [by destruct d0 |]. split; [by destruct d0 |].
  intros Hsp. rewrite ParsedTag_String_shape, Hsp. cbn [nonEmpty].
  rewrite !append_nil_r, ParseTag_plain.
  destruct d0 as [def|]; cbn [tagOf Key Def HasDef Splitter] in *; subst.
  - by rewrite (SplitN2_assign _ _ Hkey).
  - by rewrite append_nil_r, (SplitN2_none _ Hkey).
Qed.

Lemma ParseTag_normal_witness :
  Index "a.b" ":=" < 0
  ∧ (true = false → "x:=y"%string = EmptyString)
  ∧ (EmptyString = EmptyString →
     ParseTag (ParsedTag_String (mkTag "a.b" "x:=y" true "")) = Ok (mkTag "a.b" "x:=y" true "")).
Proof.
  apply (ParseTag_normal "pre ${a.b:=x:=y} post" (mkTag "a.b" "x:=y" true "")).
  vm_compute. reflexivity.
Defined.

(** X3.  Whatever stands between the braces, [ParseTag] accepts the
    placeholder [${body}], so the error that [resolveString] discards
    cannot occur; the tag has no splitter and its rendering is the
    placeholder again. *)
Theorem ParsedTag_String_ParseTag (body : string) :
  ∃ ret, ParseTag ("${" +:+ body +:+ "}") = Ok ret
         ∧ Splitter ret = EmptyString
         ∧ ParsedTag_String ret = "${" +:+ body +:+ "}".
Proof.
  rewrite ParseTag_plain. unfold SplitN2.
  destruct (Index body ":=" <? 0) eqn:E.
  - eexists. split; [done |]. split; [done |].
    rewrite ParsedTag_String_shape. cbn. by rewrite !append_nil_r.
  - apply Z.ltb_ge in E. eexists. split; [done |]. split; [done |].
    rewrite ParsedTag_String_shape. cbn [tagOf Key Def HasDef Splitter nonEmpty].
    rewrite append_nil_r. do 2 f_equal.
    apply (Index_split body ":=" E).
Qed.

(** ** Placeholder resolution *)

Section MoreScanFacts.
Implicit Types s pre rest body post : string.

(** Text without [${] in front of [rest] is passed over. *)
Lemma scan_skip pre rest i start :
  Index pre "${" < 0 → HasPrefix rest "{" = false →
  scan (pre +:+ rest) i 0 start = scan rest (i + len pre) 0 start.
Proof.
  intros Hpre Hrest. revert i Hpre.
  induction pre as [|c pre IH]; intros i Hpre.
  - change (len "") with 0. by rewrite Z.add_0_r.
  - apply Index_cons_neg in Hpre as [Hp Hpre].
    change (String c pre +:+ rest) with (String c (pre +:+ rest)).
    rewrite scan_cons, len_cons, (IH (i + 1) Hpre).
    replace (i + 1 + len pre) with (i + (1 + len pre)) by lia.
    rewrite HasPrefix_cons, (Ascii.eqb_sym "$" c) in Hp.
    destruct (Ascii.eqb c "$").
    + assert (HasPrefix (pre +:+ rest) "{" = false) as ->; [|done].
      destruct pre as [|c' pre]; [done |].
      change (String c' pre +:+ rest) with (String c' (pre +:+ rest)).
      rewrite HasPrefix_cons in Hp |- *. rewrite !HasPrefix_nil in *. done.
    + change (0 <? 0) with false. by destruct (Ascii.eqb c "}").
Qed.

(** Once a placeholder is open, text without [}] leaves it open. *)
Lemma scan_open rest i count start :
  Index rest "}" < 0 → 0 < count →
  ∃ count', 0 < count' ∧ scan rest i count start = (count', start, -1).
Proof.
  revert i count. induction rest as [|c rest IH]; intros i count Hrest Hcount.
  - exists count. done.
  - apply Index_cons_neg in Hrest as [Hp Hrest].
    rewrite scan_cons. rewrite HasPrefix_cons, HasPrefix_nil, (Ascii.eqb_sym "}" c) in Hp.
    destruct (Ascii.eqb c "}"); [done |].
    destruct (count =? 0) eqn:E; [apply Z.eqb_eq in E; lia |].
    destruct (Ascii.eqb c "$"); [destruct (HasPrefix rest "{") |];
      apply IH; try done; lia.
Qed.

(** The first placeholder of a string. *)
Lemma scan_first pre body post :
  Index pre "${" < 0 → closes body 0 = true →
  scan (pre +:+ "${" +:+ body +:+ "}" +:+ post) 0 0 (-1)
  = (0, len pre, len pre + 2 + len body).
Proof.
  intros Hpre Hbody. rewrite scan_skip by done.
  change ("${" +:+ body +:+ "}" +:+ post)
    with (String "$" (String "{" (body +:+ "}" +:+ post))).
  rewrite !scan_cons. rewrite HasPrefix_cons, HasPrefix_nil.
  change (Ascii.eqb "$" "$") with true. change (Ascii.eqb "{" "{") with true.
  change (Ascii.eqb "{" "$") with false. change (Ascii.eqb "{" "}") with false.
  cbv iota. change (0 =? 0) with true. cbv iota.
  pose proof (scan_closes body post (0 + len pre + 1 + 1) 0 (0 + len pre) Hbody) as Hs.
  change (Z.of_nat 0) with 0 in Hs. rewrite Hs, !Z.add_0_l. f_equal. lia.
Qed.

(** What [BindTag] reads from a placeholder, with or without default. *)
Lemma BindTag_body body :
  BindTag zeroParam ("${" +:+ body +:+ "}") ""
  = let '(key, d) := SplitN2 body ":=" in
    Ok (mkParam (bindKey key) "" (tagOf (bindKey key) d "") "").
Proof.
  unfold BindTag. rewrite ParseTag_plain.
  destruct (SplitN2 body ":=") as [key [def|]];
    cbn [tagOf Key Def HasDef Splitter zeroParam ParamKey ParamPath]; unfold bindKey;
    destruct (String.eqb key "ROOT"); try done;
    destruct (String.eqb key ""); done.
Qed.
End MoreScanFacts.

Section MoreResolveFacts.
Context {Properties : Type} `{HS : !Storage Properties}.
Implicit Types (p : Properties) (s pre rest body post k : string) (n : nat).

Lemma resolveString_first n p pre body post :
  Index pre "${" < 0 → closes body 0 = true →
  resolveString (S n) p (pre +:+ "${" +:+ body +:+ "}" +:+ post) =
    let s := pre +:+ "${" +:+ body +:+ "}" +:+ post in
    let '(key, d) := SplitN2 body ":=" in
    match resolve n p (mkParam (bindKey key) "" (tagOf (bindKey key) d "") "") with
    | Ok s1 =>
        match resolveString n p post with
        | Ok s2 => Ok (pre +:+ s1 +:+ s2)
        | Err e => Err (resolveStringError s e)
        | Panic => Panic
        | OutOfFuel => OutOfFuel
        end
    | Err e => Err (resolveStringError s e)
    | Panic => Panic
    | OutOfFuel => OutOfFuel
    end.
Proof.
  intros Hpre Hbody.
  rewrite resolveString_S, (scan_first _ _ _ Hpre Hbody).
  pose proof (len_nonneg pre). pose proof (len_nonneg body).
  destruct (len pre <? 0) eqn:E1; [apply Z.ltb_lt in E1; lia |].
  destruct (len pre + 2 + len body <? 0) eqn:E2; [apply Z.ltb_lt in E2; lia |].
  change (0 <? 0) with false. cbn [orb]. cbv iota.
  assert (slice (pre +:+ "${" +:+ body +:+ "}" +:+ post) (len pre)
            (len pre + 2 + len body + 1) = Some ("${" +:+ body +:+ "}")) as ->.
  { pose proof (slice_middle pre ("${" +:+ body +:+ "}") post) as Hs.
    rewrite !len_app in Hs. change (len "${") with 2 in Hs. change (len "}") with 1 in Hs.
    rewrite <- !append_assoc in Hs |- *. rewrite <- Hs. f_equal. lia. }
  assert (sliceFrom (pre +:+ "${" +:+ body +:+ "}" +:+ post)
            (len pre + 2 + len body + 1) = Some post) as ->.
  { pose proof (sliceFrom_app (pre +:+ "${" +:+ body +:+ "}") post) as Hs.
    rewrite !len_app in Hs. change (len "${") with 2 in Hs. change (len "}") with 1 in Hs.
    rewrite !append_assoc in Hs. rewrite <- Hs. f_equal. lia. }
  rewrite sliceTo_app, BindTag_body.
  destruct (SplitN2 body ":=") as [key d]. done.
Qed.

(** X4.  A string whose first [${] opens a well-nested placeholder
    resolves to the text before it, what [resolve] returns for its tag,
    and the resolution of the text behind it, in this order; an error of
    either is returned wrapped with the whole string. *)
Theorem resolveString_first_placeholder n p pre body post :
  Index pre "${" < 0 → closes body 0 = true →
  resolveString (S n) p (pre +:+ "${" +:+ body +:+ "}" +:+ post) =
    let s := pre +:+ "${" +:+ body +:+ "}" +:+ post in
    let '(key, d) := SplitN2 body ":=" in
    match resolve n p (mkParam (bindKey key) "" (tagOf (bindKey key) d "") "") with
    | Ok s1 =>
        match resolveString n p post with
        | Ok s2 => Ok (pre +:+ s1 +:+ s2)
        | Err e => Err (resolveStringError s e)
        | Panic => Panic
        | OutOfFuel => OutOfFuel
        end
    | Err e => Err (resolveStringError s e)
    | Panic => Panic
    | OutOfFuel => OutOfFuel
    end.
Proof. apply resolveString_first. Qed.

(** X5.  A [${] that is not closed is a syntax error, whatever the store
    holds. *)
Theorem resolveString_unclosed n p pre rest :
  Index pre "${" < 0 → Index rest "}" < 0 →
  resolveString (S n) p (pre +:+ "${" +:+ rest)
  = Err (resolveStringError (pre +:+ "${" +:+ rest) errInvalidSyntax).
Proof.
  intros Hpre Hrest. rewrite resolveString_S, scan_skip by done.
  change ("${" +:+ rest) with (String "$" (String "{" rest)).
  rewrite scan_cons. rewrite HasPrefix_cons, HasPrefix_nil.
  change (Ascii.eqb "$" "$") with true. change (Ascii.eqb "{" "{") with true.
  cbv iota. change (0 =? 0) with true. cbv iota.
  destruct (scan_open (String "{" rest) (0 + len pre + 1) (0 + 1) (0 + len pre))
    as (count & Hcount & ->); [|lia |].
  { apply Index_cons_neg. split; [|done]. by rewrite HasPrefix_cons. }
  pose proof (len_nonneg pre).
  destruct (0 + len pre <? 0) eqn:E1; [apply Z.ltb_lt in E1; lia |].
  done.
Qed.

(** X6.  A value whose first placeholder names its own key is never
    resolved: whatever the depth allowed to the recursion, the call has
    not returned. *)
Theorem resolveString_self_reference_diverges p k pre post :
  Index k ":=" < 0 → closes k 0 = true → Index pre "${" < 0 →
  storage_Get p (bindKey k) = pre +:+ "${" +:+ k +:+ "}" +:+ post →
  ∀ n, resolveString n p (pre +:+ "${" +:+ k +:+ "}" +:+ post) = OutOfFuel.
Proof.
  intros Hk Hc Hpre Hget n. induction n as [|n IH]; [done |].
  rewrite (resolveString_first _ _ _ _ _ Hpre Hc), (SplitN2_none _ Hk).
  unfold resolve, resolveWith. cbn [ParamKey]. rewrite Hget.
  assert (nonEmpty (pre +:+ "${" +:+ k +:+ "}" +:+ post) = true) as ->
    by (by destruct pre).
  by rewrite IH.
Qed.
End MoreResolveFacts.

Lemma resolveString_first_placeholder_witness :
  let p : gmap string string := {[ "a" := "x"; "b" := "B" ]}%string in
  resolveString 4 p "1${a}2${c:=d${b}}3" = Ok "1x2dB3"%string.
Proof.
  intros p. etrans.
  - apply (resolveString_first_placeholder 3 p "1" "a" "2${c:=d${b}}3");
      vm_compute; reflexivity.
  - vm_compute. reflexivity.
Defined.

Lemma resolveString_unclosed_witness :
  resolveString 1 (∅ : gmap string string) "a}${b"
  = Err (resolveStringError "a}${b" errInvalidSyntax).
Proof.
  apply (resolveString_unclosed 0 (∅ : gmap string string) "a}" "b");
    vm_compute; reflexivity.
Defined.

Lemma resolveString_self_reference_diverges_witness :
  let p : gmap string string := {[ "loop" := "again ${loop}!" ]}%string in
  resolveString 7 p "again ${loop}!" = OutOfFuel.
Proof.
  intros p.
  apply (resolveString_self_reference_diverges p "loop" "again " "!");
    vm_compute; reflexivity.
Defined.

(** ** Binding *)

Section MoreBindFacts.
Context {Properties : Type} `{HS : !Storage Properties}
  `{HE : !Externals} `{HR : !Registries}.
Implicit Types (p : Properties) (v e : Value) (t et : Ty)
  (param : BindParam) (filter : option Filter) (fuel : nat)
  (bv : Properties → Value → Ty → BindParam → option Filter → bound).

Lemma validateAndSet_error v param c stored v' r :
  validateAndSet v param c stored = (v', r) → r ≠ Ok () → v' = v.
Proof.
  unfold validateAndSet. destruct (Validate _ _); intros [= <- <-]; done.
Qed.

Lemma bindLeaf_error fuel p v t param v' r :
  bindLeaf fuel p v t param = (v', r) → r ≠ Ok () → v' = v.
Proof.
  unfold bindLeaf.
  destruct (resolve fuel p param) as [val|err| |]; try (by intros [= <- <-]).
  destruct (converters t) as [fn|].
  { destruct (fn val); try (by intros [= <- <-]). apply validateAndSet_error. }
  destruct t as [n k| | | |]; try (by intros [= <- <-]).
  unfold bindKind.
  destruct k;
    repeat match goal with
           | |- context [match ?x with Ok _ => _ | _ => _ end] => destruct x
           end;
    try (by intros [= <- <-]); apply validateAndSet_error.
Qed.

(** X7.  A target that is not bound field by field, that is every target
    but a struct without converter, keeps its value whenever [BindValue]
    does not return nil: be the key missing, the text not a number, the
    kind unsupported, a validator failing or an element of a slice or
    map not bound. *)
Theorem BindValue_error_keeps_target fuel p v t param filter v' r :
  (∀ n fs, t = StructOf n fs → is_Some (converters t)) →
  BindValue fuel p v t param filter = (v', r) → r ≠ Ok () → v' = v.
Proof.
  intros Ht. destruct fuel as [|fuel]; [by intros [= <- <-] |].
  cbn [BindValue]. destruct (IsValueType t); cbn [negb]; [|by intros [= <- <-]].
  destruct t as [n k|n et|n sz et|n ks et|n fs].
  - apply bindLeaf_error.
  - intros [[_ ->] | [(-> & _) | (-> & _)]]%bindSliceWith_spec; done.
  - by intros [= <- <-].
  - intros [[_ ->] | (-> & _)]%bindMapWith_spec; done.
  - destruct (Ht n fs eq_refl) as [fn ->]. apply bindLeaf_error.
Qed.

(** *** Validation and the order of the registry *)

Lemma allPass_Permutation vs vs' tag i :
  vs ≡ₚ vs' → allPass vs tag i → allPass vs' tag i.
Proof.
  intros Hperm H name w s Hin. apply H.
  by apply (proj2 (elem_of_Permutation_proper (name, w) vs vs' Hperm)).
Qed.

(** X8.  Whether [Validate] accepts a value does not depend on the order
    in which the registry is visited; only the error reported for a
    rejected value may. *)
Theorem Validate_order_irrelevant vs vs' tag i :
  vs ≡ₚ vs' →
  (ValidateIn vs tag i = None ↔ ValidateIn vs' tag i = None).
Proof.
  intros Hperm. rewrite !ValidateIn_None.
  split; apply allPass_Permutation; done.
Qed.

(** *** The elements of a slice *)

(** X9.  A slice read from indexed keys holds, in order, what the binding
    of the elements at [key[0]], [key[1]], ... has produced, and it ends
    at the first index whose binding reports an error that is
    [errNotExist], whatever was missing: the error is not returned. *)
Theorem bindSlice_elements bv fuel p v et param filter p' elems :
  getSlice p et param = Ok (Some p') →
  bindSliceWith bv fuel p v et param filter = (VSlice elems, Ok ()) →
  (∀ j e, elems !! j = Some e →
     bv p' (zero et) et
       (mkParam (indexed (ParamKey param) j) (indexed (ParamPath param) j) zeroTag "")
       filter = (e, Ok ()))
  ∧ ∃ err,
      (bv p' (zero et) et
         (mkParam (indexed (ParamKey param) (length elems))
            (indexed (ParamPath param) (length elems)) zeroTag "") filter).2
      = Err err
      ∧ isNotExist err = true.
Proof.
  intros Hg [[? _] | [(_ & Hg' & _) | (_ & p1 & elems1 & Hg' & Hl & _ & Heq)]]%bindSliceWith_spec;
    [done | congruence |].
  rewrite Hg in Hg'. injection Hg' as <-. injection Heq as ->.
  apply sliceLoop_elements in Hl as (new & -> & Hnew & Hend). done.
Qed.

(** *** The entries of a map *)

Lemma mapLoop_entries bv p keyIsString et param filter keys acc ret :
  mapLoop bv p keyIsString et param filter keys acc = Ok ret →
  ∀ key,
    (key ∈ keys ∧ ∃ e,
       ret !! key = Some e
       ∧ bv p (zero et) et
           (mkParam (if nonEmpty (ParamKey param)
                     then ParamKey param +:+ "." +:+ key else key)
              (ParamPath param) zeroTag "") filter = (e, Ok ()))
    ∨ ((key ∉ keys) ∧ ret !! key = acc !! key).
Proof.
  revert acc. induction keys as [|k keys IH]; intros acc.
  - intros [= <-] key. right. split; [apply not_elem_of_nil | done].
  - cbn [mapLoop].
    destruct (bv p (zero et) et _ filter) as [e [[]|err| |]] eqn:Hb; try done.
    destruct keyIsString; [|done]. intros H key.
    destruct (IH _ H key) as [[Hin He] | [Hnin Hret]].
    + left. split; [by right | done].
    + destruct (decide (key = k)) as [-> | Hne].
      * left. split; [left |]. exists e. rewrite Hret, lookup_insert_eq. done.
      * right. split; [|by rewrite Hret, lookup_insert_ne].
        intros [? | ?]%elem_of_cons; done.
Qed.

(** X10.  A map that [bindMap] has bound holds exactly the sub-keys of
    its key, each with what the binding of the property [key.sub] (of
    [sub] alone under the empty key) has produced. *)
Theorem bindMap_entries bv p v keyIsString et param filter ret :
  bindMapWith bv p v keyIsString et param filter = (VMap ret, Ok ()) →
  ∃ keys,
    storage_SubKeys p (ParamKey param) = Ok keys
    ∧ (∀ key, is_Some (ret !! key) ↔ key ∈ keys)
    ∧ (∀ key e, ret !! key = Some e →
         bv p (zero et) et
           (mkParam (if nonEmpty (ParamKey param)
                     then ParamKey param +:+ "." +:+ key else key)
              (ParamPath param) zeroTag "") filter = (e, Ok ())).
Proof.
  intros [[? _] | (_ & keys & ret1 & Hk & Hl & _ & Heq)]%bindMapWith_spec; [done |].
  simplify_eq. exists keys. split; [done |].
  pose proof (mapLoop_entries _ _ _ _ _ _ _ _ _ Hl) as H. split.
  - intros key. destruct (H key) as [[Hin (e & -> & _)] | [Hnin ->]].
    + split; [done | by eexists].
    + rewrite lookup_empty. split; [by intros [? ?] | done].
  - intros key e He. destruct (H key) as [[Hin (e' & He' & Hb)] | [Hnin Hret]].
    + by simplify_eq.
    + rewrite Hret, lookup_empty in He. done.
Qed.

(** *** Integers *)

Lemma wrapS_range w i :
  0 < w → - 2 ^ (w - 1) ≤ wrapS w i < 2 ^ (w - 1).
Proof.
  intros Hw. unfold wrapS.
  assert (2 ^ w = 2 * 2 ^ (w - 1)) as Hp.
  { replace w with (Z.succ (w - 1)) at 1 by lia. apply Z.pow_succ_r. lia. }
  assert (0 < 2 ^ (w - 1)) by (apply Z.pow_pos_nonneg; lia).
  pose proof (Z.mod_pos_bound (i + 2 ^ (w - 1)) (2 ^ w)). lia.
Qed.

Lemma wrapS_id w i :
  0 < w → (wrapS w i = i ↔ - 2 ^ (w - 1) ≤ i < 2 ^ (w - 1)).
Proof.
  intros Hw. split.
  - intros <-. by apply wrapS_range.
  - intros Hi. unfold wrapS.
    assert (2 ^ w = 2 * 2 ^ (w - 1)) as Hp.
    { replace w with (Z.succ (w - 1)) at 1 by lia. apply Z.pow_succ_r. lia. }
    rewrite Z.mod_small by lia. lia.
Qed.

(** X11.  A signed integer field takes the number that [strconv.ParseInt]
    has read cut to the width of the field, without any error: the
    validators have seen the number as read, the field holds it only if
    it fits, and otherwise the number of the field's range that differs
    from it by a multiple of [2^width]. *)
Theorem BindValue_int_wraps fuel p v n k param filter val i :
  IsValueType (Scalar n k) = true →
  converters (Scalar n k) = None →
  k ∈ [Int; Int8; Int16; Int32; Int64] →
  0 < intSize →
  resolve fuel p param = Ok val →
  ParseInt val = Ok i →
  Validate (ParamValidate param) (VInt i) = None →
  BindValue (S fuel) p v (Scalar n k) param filter
  = (VInt (wrapS (bitsOf k) i), Ok ())
  ∧ - 2 ^ (bitsOf k - 1) ≤ wrapS (bitsOf k) i < 2 ^ (bitsOf k - 1)
  ∧ (wrapS (bitsOf k) i = i ↔ - 2 ^ (bitsOf k - 1) ≤ i < 2 ^ (bitsOf k - 1))
  ∧ (wrapS (bitsOf k) i - i) mod 2 ^ bitsOf k = 0.
Proof.
  intros Hvt Hcv Hk Hsize Hr Hp Hval.
  assert (0 < bitsOf k) as Hw.
  { repeat (apply elem_of_cons in Hk as [-> | Hk]; [by cbn |]).
    by apply elem_of_nil in Hk. }
  split; [|split; [by apply wrapS_range | split; [by apply wrapS_id |]]].
  - rewrite BindValue_leaf by eauto.
    rewrite (bindLeaf_converts _ _ _ _ _ _ _ _ Hr (conv_int n k val i Hcv Hk Hp)).
    unfold validateAndSet. by rewrite Hval.
  - unfold wrapS.
    assert (0 < 2 ^ bitsOf k) as Hpos by (apply Z.pow_pos_nonneg; lia).
    rewrite (Z.mod_eq (i + 2 ^ (bitsOf k - 1))) by lia.
    replace (i + 2 ^ (bitsOf k - 1)
             - 2 ^ bitsOf k * ((i + 2 ^ (bitsOf k - 1)) / 2 ^ bitsOf k)
             - 2 ^ (bitsOf k - 1) - i)
      with (- ((i + 2 ^ (bitsOf k - 1)) / 2 ^ bitsOf k) * 2 ^ bitsOf k) by lia.
    apply Z.mod_mul. lia.
Qed.
End MoreBindFacts.

(** *** The errors of a bind *)

Section BindErrorFacts.
Context {Properties : Type} `{HS : !Storage Properties}
  `{HE : !Externals} `{HR : !Registries}.
Implicit Types (p : Properties) (v e : Value) (t et : Ty)
  (param : BindParam) (filter : option Filter) (fuel : nat)
  (bv bs : Properties → Value → Ty → BindParam → option Filter → bound).

Lemma validateAndSet_names_path v param c stored v' err :
  validateAndSet v param c stored = (v', Err err) → namesPath (ParamPath param) err.
Proof.
  unfold validateAndSet. destruct (Validate _ _); intros [= <- <-]. right. eauto.
Qed.

Lemma bindLeaf_names_path fuel p v t param v' err :
  bindLeaf fuel p v t param = (v', Err err) → namesPath (ParamPath param) err.
Proof.
  unfold bindLeaf.
  destruct (resolve fuel p param) as [val|err0| |];
    try (by intros [= <- <-]; left; eauto).
  destruct (converters t) as [fn|].
  { destruct (fn val); try (by intros [= <- <-]; left; eauto).
    apply validateAndSet_names_path. }
  destruct t as [n k| | | |]; try (by intros [= <- <-]; left; eauto).
  unfold bindKind.
  destruct k;
    repeat match goal with
           | |- context [match ?x with Ok _ => _ | _ => _ end] => destruct x
           end;
    try (by intros [= <- <-]; left; eauto); apply validateAndSet_names_path.
Qed.

Lemma sliceLoop_names_path bv fuel p et param filter i acc err :
  sliceLoop bv fuel p et param filter i acc = Err err →
  namesPath (ParamPath param) err.
Proof.
  revert i acc. induction fuel as [|fuel IH]; intros i acc; [done |].
  cbn [sliceLoop].
  destruct (bv p (zero et) et _ filter) as [e [[]|err0| |]]; try done.
  - apply IH.
  - destruct (isNotExist err0); [done |]. intros [= <-]. left. eauto.
Qed.

Lemma mapLoop_names_path bv p keyIsString et param filter keys acc err :
  mapLoop bv p keyIsString et param filter keys acc = Err err →
  namesPath (ParamPath param) err.
Proof.
  revert acc. induction keys as [|k keys IH]; intros acc; [done |].
  cbn [mapLoop].
  destruct (bv p (zero et) et _ filter) as [e [[]|err0| |]]; try done.
  - destruct keyIsString; [apply IH | done].
  - intros [= <-]. left. eauto.
Qed.

Lemma structLoop_names_path bv bs p param filter fields i vs vs' err :
  structLoop bv bs p param filter fields i vs = (vs', Err err) →
  namesPath (ParamPath param) err.
Proof.
  revert i vs. induction fields as [|ft fields IH]; intros i vs; [done |].
  cbn [structLoop]. intros H.
  repeat (case_match; simplify_eq; try done);
    first [by eapply IH | left; eauto].
Qed.

(** X12.  Every error that [BindValue] returns is one that it has made
    for the path it was called with: [bind <path> error: ...] or
    [validate <path> error: ...], wrapped around the cause. *)
Theorem BindValue_error_names_path fuel p v t param filter v' err :
  BindValue fuel p v t param filter = (v', Err err) →
  namesPath (ParamPath param) err.
Proof.
  destruct fuel as [|fuel]; [done |].
  cbn [BindValue]. destruct (IsValueType t); cbn [negb];
    [|by intros [= <- <-]; left; eauto].
  assert (∀ n fs, bindStruct fuel p v (StructOf n fs) param filter = (v', Err err) →
                  namesPath (ParamPath param) err) as Hstruct.
  { intros n fs. destruct fuel as [|fuel]; [done |].
    cbn [bindStruct]. unfold bindStructWith.
    destruct (_ && _); [by intros [= <- <-]; left; eauto |].
    destruct v; try done.
    destruct (structLoop _ _ _ _ _ _ _ _) as [vs' r] eqn:Hl. intros [= <- ->].
    by eapply structLoop_names_path. }
  destruct t as [n k|n et|n sz et|n ks et|n fs].
  - apply bindLeaf_names_path.
  - unfold bindSliceWith.
    destruct (getSlice p et param) as [[p'|]|err0| |];
      try (by intros [= <- <-]; left; eauto); try done.
    destruct (sliceLoop _ _ _ _ _ _ _ _) as [elems|err0| |] eqn:Hl; try done.
    + destruct (Validate _ _); intros [= <- <-]. right. eauto.
    + intros [= <- <-]. by eapply sliceLoop_names_path.
  - intros [= <- <-]. left. eauto.
  - unfold bindMapWith.
    destruct (_ && _); [by intros [= <- <-]; left; eauto |].
    destruct (storage_SubKeys p (ParamKey param)) as [keys|err0| |];
      try (by intros [= <- <-]; left; eauto); try done.
    destruct (mapLoop _ _ _ _ _ _ _ _) as [ret|err0| |] eqn:Hl; try done.
    + destruct (Validate _ _); intros [= <- <-]. right. eauto.
    + intros [= <- <-]. by eapply mapLoop_names_path.
  - destruct (converters (StructOf n fs)); [apply bindLeaf_names_path | apply Hstruct].
Qed.
End BindErrorFacts.

(** *** The fields of a struct *)

Section StructFacts.
Context {Properties : Type} `{HS : !Storage Properties}
  `{HE : !Externals} `{HR : !Registries}.
Implicit Types (p : Properties) (v : Value) (t : Ty) (vs : list Value)
  (param : BindParam) (filter : option Filter) (fuel : nat) (fields : list Field)
  (bv bs : Properties → Value → Ty → BindParam → option Filter → bound).

(** The loop writes to no field before the one it stands at, and keeps
    the number of fields. *)
Lemma structLoop_frame bv bs p param filter fields i vs vs' r :
  structLoop bv bs p param filter fields i vs = (vs', r) →
  length vs' = length vs ∧ ∀ j, (j < i)%nat → vs' !! j = vs !! j.
Proof.
  revert i vs. induction fields as [|ft fields IH]; intros i vs.
  { by intros [= <- <-]. }
  cbn [structLoop]. intros H.
  repeat (case_match; simplify_eq; try done);
    try (split; [by rewrite ?length_insert |];
         intros j Hj; by rewrite ?list_lookup_insert_ne by lia);
    match goal with
    | H : structLoop _ _ _ _ _ _ _ _ = _ |- _ =>
        apply IH in H as [Hlen Hlow]; split;
        [by rewrite Hlen, ?length_insert
        | intros j Hj; rewrite Hlow by lia; by rewrite ?list_lookup_insert_ne by lia]
    end.
Qed.

Lemma structLoop_skips bv bs p param filter fields i vs vs' r :
  structLoop bv bs p param filter fields i vs = (vs', r) →
  ∀ j ft, fields !! j = Some ft → skippedField ft → vs' !! (i + j)%nat = vs !! (i + j)%nat.
Proof.
  revert i vs. induction fields as [|ft0 fields IH]; intros i vs; [done |].
  intros H [|j] ft Hft Hskip.
  - cbn in Hft. simplify_eq. rewrite Nat.add_0_r.
    destruct Hskip as [Htag Hkind]. cbn [structLoop] in H. rewrite Htag in H.
    destruct (vs !! i) eqn:Hi; [rewrite <- Hi | by simplify_eq].
    destruct (Anonymous ft).
    + destruct (Type_ ft) eqn:Ht; try (by destruct (Hkind _ _ eq_refl));
        apply structLoop_frame in H as [_ H]; apply H; lia.
    + rewrite Hkind in H. apply structLoop_frame in H as [_ H]. apply H. lia.
  - cbn in Hft. replace (i + S j)%nat with (S i + j)%nat by lia.
    cbn [structLoop] in H.
    repeat (case_match; simplify_eq; try done);
      try (by rewrite ?list_lookup_insert_ne by lia);
      match goal with
      | H : structLoop _ _ _ _ _ _ _ _ = _ |- _ =>
          rewrite (IH _ _ H j ft Hft Hskip); by rewrite ?list_lookup_insert_ne by lia
      end.
Qed.

(** X13.  Whatever [bindStruct] returns, the struct has the fields it
    had, and a field without [value] tag that is embedded without being
    a struct, or not embedded and not of a value type, holds what it
    held. *)
Theorem bindStruct_skips fuel p vs n fields param filter v' r :
  bindStruct fuel p (VStruct vs) (StructOf n fields) param filter = (v', r) →
  ∃ vs', v' = VStruct vs'
         ∧ length vs' = length vs
         ∧ ∀ j ft, fields !! j = Some ft → skippedField ft → vs' !! j = vs !! j.
Proof.
  destruct fuel as [|fuel]; [intros [= <- <-]; by exists vs |].
  cbn [bindStruct]. unfold bindStructWith.
  destruct (_ && _); [intros [= <- <-]; by exists vs |].
  destruct (structLoop _ _ _ _ _ _ _ _) as [vs' r'] eqn:Hl. intros [= <- <-].
  exists vs'. split; [done |]. split; [by apply structLoop_frame in Hl as [? _] |].
  intros j ft Hft Hskip. by apply (structLoop_skips _ _ _ _ _ _ _ _ _ _ Hl j ft).
Qed.
End StructFacts.

(** *** On the concrete store *)

Example wrapS_int8 : wrapS 8 300 = 44 ∧ wrapS 8 (-129) = 127 ∧ wrapU 8 256 = 0.
Proof. done. Qed.

Lemma BindValue_error_keeps_target_witness :
  (BindValue 2 exampleStore (VOther "old") (Scalar "int" Int)
     (mkParam "k" "P" zeroTag "") None).1 = VOther "old".
Proof.
  apply (BindValue_error_keeps_target 2 exampleStore (VOther "old") (Scalar "int" Int)
           (mkParam "k" "P" zeroTag "") None _
           (BindValue 2 exampleStore (VOther "old") (Scalar "int" Int)
              (mkParam "k" "P" zeroTag "") None).2).
  - intros n fs [=].
  - apply surjective_pairing.
  - vm_compute. discriminate.
Defined.

Lemma Validate_order_irrelevant_witness :
  let expr := ("expr"%string, exprValidator_Field) in
  let never := ("never"%string, (λ tag i, Some (Errorf "never" [tag])) : Validator) in
  ValidateIn [expr; never] "expr:true" (VString "x") = None
  ↔ ValidateIn [never; expr] "expr:true" (VString "x") = None.
Proof.
  intros expr never. apply Validate_order_irrelevant. apply perm_swap.
Defined.

Lemma bindSlice_elements_witness :
  (∀ j e, [VString "x"; VString "y"] !! j = Some e →
     BindValue 5 exampleStore (zero stringTy) stringTy
       (mkParam (indexed "a" j) (indexed "A" j) zeroTag "") None = (e, Ok ()))
  ∧ ∃ err,
      (BindValue 5 exampleStore (zero stringTy) stringTy
         (mkParam (indexed "a" 2) (indexed "A" 2) zeroTag "") None).2 = Err err
      ∧ isNotExist err = true.
Proof.
  apply (bindSlice_elements (BindValue 5) 5 exampleStore VNil stringTy
           (mkParam "a" "A" zeroTag "") None exampleStore [VString "x"; VString "y"]);
    vm_compute; reflexivity.
Defined.

Lemma bindMap_entries_witness :
  let ret : gmap string Value := {[ "a" := VInt 1; "b" := VInt 0 ]}%string in
  ∃ keys,
    storage_SubKeys exampleStore "m" = Ok keys
    ∧ (∀ key, is_Some (ret !! key) ↔ key ∈ keys)
    ∧ (∀ key e, ret !! key = Some e →
         BindValue 5 exampleStore (zero (Scalar "int" Int)) (Scalar "int" Int)
           (mkParam ("m" +:+ "." +:+ key) "M" zeroTag "") None = (e, Ok ())).
Proof.
  intros ret.
  apply (bindMap_entries (BindValue 5) exampleStore VNil true (Scalar "int" Int)
           (mkParam "m" "M" zeroTag "") None ret).
  vm_compute. reflexivity.
Defined.

Lemma BindValue_int_wraps_witness :
  BindValue 2 exampleStore (VInt 7) (Scalar "int8" Int8)
    (mkParam "m.a" "P" zeroTag "") None = (VInt 1, Ok ()).
Proof.
  refine (proj1 (BindValue_int_wraps (HE := exampleExternals) (HR := exampleRegistries)
                   1 exampleStore (VInt 7) "int8" Int8
                   (mkParam "m.a" "P" zeroTag "") None "1" 1 _ _ _ _ _ _ _));
    [reflexivity | reflexivity | set_solver | reflexivity | reflexivity
    | reflexivity | reflexivity].
Defined.

Lemma BindValue_error_names_path_witness :
  namesPath "P"
    (bindError "P" (Errorf "strconv.ParseInt: parsing %q: invalid syntax" ["val"%string])).
Proof.
  apply (BindValue_error_names_path 2 exampleStore (VOther "old") (Scalar "int" Int)
           (mkParam "k" "P" zeroTag "") None (VOther "old")).
  vm_compute. reflexivity.
Defined.

Example bindStruct_embedded_int :
  let fields := [mkField "E" "" true (Scalar "int" Int);
                 mkField "B" "value:${m.a}" false (Scalar "int" Int)] in
  bindStruct 10 exampleStore (VStruct [VInt 7; VInt 0]) (StructOf "T" fields)
    (mkParam "" "T" zeroTag "") None
  = (VStruct [VInt 7; VInt 1], Ok ())
  ∧ skippedField (mkField "E" "" true (Scalar "int" Int)).
Proof. split; [vm_compute; reflexivity |]. split; [vm_compute; reflexivity | done]. Qed.

Lemma bindStruct_skips_witness :
  let fields := [mkField "E" "" true (Scalar "int" Int);
                 mkField "B" "value:${m.a}" false (Scalar "int" Int)] in
  let vs := [VInt 7; VInt 0] in
  ∃ vs',
    (bindStruct 10 exampleStore (VStruct vs) (StructOf "T" fields)
       (mkParam "" "T" zeroTag "") None).1 = VStruct vs'
    ∧ length vs' = length vs
    ∧ ∀ j ft, fields !! j = Some ft → skippedField ft → vs' !! j = vs !! j.
Proof.
  intros fields vs.
  apply (bindStruct_skips 10 exampleStore vs "T" fields (mkParam "" "T" zeroTag "") None _
           (bindStruct 10 exampleStore (VStruct vs) (StructOf "T" fields)
              (mkParam "" "T" zeroTag "") None).2).
  apply surjective_pairing.
Defined.

(** ** Ordering the configers *)

Local Close Scope Z_scope.

Section MoreSortFacts.
Context {Ptr : Type} `{!EqDecision Ptr} (deref : Ptr → Configer).
Implicit Types (cs l rest : list Ptr) (c d x cur : Ptr).

(** X14.  The units handed to the loop of [sortConfigersByAfter] for
    [cur] are the units of the collection that name [cur] in their
    [before] list or that [cur] names in its [after] list; a name that no
    unit of the collection carries adds nothing. *)
Theorem getBeforeConfigers_spec cs cur d :
  d ∈ getBeforeConfigers deref cs cur
  ↔ d ∈ cs ∧ (name (deref cur) ∈ before (deref d) ∨ name (deref d) ∈ after (deref cur)).
Proof. apply elem_of_getBeforeConfigers. Qed.

(** X15.  For units that are distinct pointers, [sortConfigers] returns a
    list exactly when the precedence relation has no cycle, and panics
    with the error of a cycle exactly when it has one. *)
Theorem sortConfigers_decides_acyclic cs :
  NoDup cs →
  ((∃ l, sortConfigers deref cs = Done l) ↔ acyclic deref cs)
  ∧ ((∃ msg, sortConfigers deref cs = PanicError msg) ↔ ¬ acyclic deref cs).
Proof.
  intros Hcs. pose proof (sortConfigers_outcome deref cs Hcs) as H.
  assert (∀ l, sortConfigers deref cs = Done l → acyclic deref cs) as Hdone.
  { intros l Hl. rewrite Hl in H. destruct H as (Hnd & Hperm & Hcl & _).
    intros x Hx. apply (precedes_irrefl l x Hnd).
    apply (tc_precedes deref cs); try done.
    intros y Hy. by apply (proj2 (elem_of_Permutation_proper y l cs Hperm)). }
  destruct (sortConfigers deref cs) as [l|msg| |] eqn:Hs; try done.
  - split; split.
    + intros _. by apply (Hdone l).
    + intros _. by exists l.
    + by intros [msg ?].
    + intros Hn. destruct Hn. by apply (Hdone l).
  - destruct H as (first & cyc & _ & Hcyc).
    assert (¬ acyclic deref cs) as Hn.
    { intros Hacyc. destruct (Hacyc first). by eapply cycleFrom_tc. }
    split; split.
    + by intros [l ?].
    + intros Hacyc. by destruct Hn.
    + done.
    + intros _. by exists msg.
Qed.

Lemma removeFirst_not_elem_of c l : c ∉ l → removeFirst c l = l.
Proof.
  induction l as [|x l IH]; [done |].
  intros [Hx Hl]%not_elem_of_cons. cbn [removeFirst].
  destruct (decide (x = c)); [done |]. by rewrite IH.
Qed.

Lemma sortLoop_unconstrained cs rounds depth rest done_ :
  (∀ c, c ∈ rest → getBeforeConfigers deref cs c = []) →
  NoDup rest → length rest ≤ rounds →
  sortLoop deref rounds (S depth) cs (mkLists rest done_ [])
  = Done (mkLists [] (done_ ++ rest) []).
Proof.
  revert rounds done_. induction rest as [|c rest IH]; intros rounds done_ Hfree Hnd Hlen.
  - destruct rounds; cbn; by rewrite List.app_nil_r.
  - destruct rounds as [|rounds]; [cbn in Hlen; lia |].
    apply NoDup_cons in Hnd as [Hc Hnd].
    cbn [sortLoop toSort sortConfigersByAfter sorted processing].
    rewrite (Hfree c) by left. cbn [beforeLoop toSort sorted processing app].
    assert (removeFirst c [c] = []) as ->
      by (cbn; by destruct (decide (c = c))).
    rewrite removeFirst_not_elem_of by done.
    rewrite IH; [by rewrite <- app_assoc | | done | cbn in Hlen; lia].
    intros x Hx. apply Hfree. by right.
Qed.

(** X16.  Units that are distinct pointers and of which none has to run
    before another one come back in the order in which they were given. *)
Theorem sortConfigers_unconstrained cs :
  NoDup cs →
  (∀ a b, a ∈ cs → b ∈ cs → ¬ mustPrecede deref a b) →
  sortConfigers deref cs = Done cs.
Proof.
  intros Hnd Hfree. unfold sortConfigers.
  rewrite sortLoop_unconstrained; [done | | done | done].
  intros c Hc. apply elem_of_nil_inv. intros d [Hd Hm]%elem_of_getBeforeConfigers.
  by apply (Hfree d c).
Qed.
End MoreSortFacts.

Lemma sortConfigers_decides_acyclic_witness :
  ((∃ l, sortConfigers (heapOf orderedUnits) [0; 1; 2] = Done l)
   ↔ acyclic (heapOf orderedUnits) [0; 1; 2])
  ∧ ((∃ msg, sortConfigers (heapOf orderedUnits) [0; 1; 2] = PanicError msg)
     ↔ ¬ acyclic (heapOf orderedUnits) [0; 1; 2]).
Proof. apply sortConfigers_decides_acyclic. exact NoDup_012. Defined.

Lemma sortConfigers_unconstrained_witness :
  let units := [mkConfiger "A" [] ["X"]; mkConfiger "B" ["Y"] []; mkConfiger "C" [] []]%string in
  sortConfigers (heapOf units) [2; 0; 1] = Done [2; 0; 1].
Proof.
  intros units. apply sortConfigers_unconstrained.
  - repeat (apply NoDup_cons; split; [set_solver |]). apply NoDup_nil_2.
  - intros a b Ha Hb.
    repeat (apply elem_of_cons in Ha as [-> | Ha]); [| | |by apply elem_of_nil in Ha];
      (repeat (apply elem_of_cons in Hb as [-> | Hb]); [| | |by apply elem_of_nil in Hb]);
      unfold mustPrecede; cbn; set_solver.
Defined.

(** ** The loggers *)

Local Open Scope Z_scope.

Section PathFacts.
Implicit Types s x y dir a b : string.

Lemma LastIndex_range s sep : -1 ≤ LastIndex s sep.
Proof.
  induction s as [|c s IH].
  - rewrite LastIndex_nil. destruct (HasPrefix "" sep); lia.
  - rewrite LastIndex_cons. destruct (0 <=? LastIndex s sep) eqn:E; [lia |].
    destruct (HasPrefix (String c s) sep); lia.
Qed.

(** The last occurrence of a one-byte separator. *)
Lemma LastIndex_last x c b :
  Index b (String c "") < 0 →
  LastIndex (x +:+ String c b) (String c "") = len x.
Proof.
  intros Hb%Index_neg_LastIndex.
  assert (LastIndex (String c b) (String c "") = 0) as H0.
  { rewrite LastIndex_cons, Hb. change (0 <=? -1) with false. cbv iota.
    by rewrite HasPrefix_cons, Ascii.eqb_refl, HasPrefix_nil. }
  rewrite LastIndex_app; lia.
Qed.

(** The first occurrence of a one-byte separator. *)
Lemma Index_first x c y :
  Index x (String c "") < 0 →
  Index (x +:+ String c y) (String c "") = len x.
Proof.
  induction x as [|d x IH].
  - intros _. change ("" +:+ String c y) with (String c y).
    apply Index_HasPrefix. by rewrite HasPrefix_cons, Ascii.eqb_refl, HasPrefix_nil.
  - intros [Hp Hx]%Index_cons_neg.
    change (String d x +:+ String c y) with (String d (x +:+ String c y)).
    rewrite Index_cons, (IH Hx), len_cons.
    rewrite HasPrefix_cons, HasPrefix_nil in Hp |- *. rewrite Hp.
    pose proof (len_nonneg x).
    destruct (len x <? 0) eqn:E; [apply Z.ltb_lt in E; lia | done].
Qed.

Lemma Index_char_app x y c :
  Index x (String c "") < 0 → Index y (String c "") < 0 →
  Index (x +:+ y) (String c "") < 0.
Proof.
  intros Hx Hy. induction x as [|d x IH]; [done |].
  apply Index_cons_neg in Hx as [Hp Hx].
  change (String d x +:+ y) with (String d (x +:+ y)).
  apply Index_cons_neg. split; [|by apply IH].
  by rewrite HasPrefix_cons, HasPrefix_nil in Hp |- *.
Qed.

Lemma string_length_take n s : (n ≤ String.length s)%nat → String.length (take n s) = n.
Proof.
  revert s. induction n as [|n IH]; intros [|c s]; cbn; try lia.
  intros H. rewrite IH; lia.
Qed.

Lemma string_length_drop n s : String.length (drop n s) = (String.length s - n)%nat.
Proof. revert s. induction n as [|n IH]; intros [|c s]; cbn; try done. Qed.

Lemma string_take_drop n s : take n s +:+ drop n s = s.
Proof.
  revert s. induction n as [|n IH]; intros [|c s]; cbn; try done.
  by rewrite IH.
Qed.

Lemma slice_len s lo hi y : slice s lo hi = Some y → len y = hi - lo.
Proof.
  unfold slice. destruct (_ && _) eqn:E; [|done]. intros [= <-].
  apply andb_true_iff in E as [[E1 E2]%andb_true_iff E3].
  apply Z.leb_le in E1, E2, E3. unfold len in *.
  rewrite string_length_take; [lia |]. rewrite string_length_drop. lia.
Qed.

(** [s[lo:]] is the end of [s]. *)
Lemma sliceFrom_suffix s lo y : sliceFrom s lo = Some y → ∃ pre, s = pre +:+ y.
Proof.
  unfold sliceFrom, slice. destruct (_ && _) eqn:E; [|done]. intros [= <-].
  apply andb_true_iff in E as [[E1 E2]%andb_true_iff E3].
  apply Z.leb_le in E1, E2, E3.
  exists (take (Z.to_nat lo) s).
  rewrite <- (string_take_drop (Z.to_nat lo) s) at 1. f_equal.
  rewrite <- (take_all (drop (Z.to_nat lo) s)) at 1. f_equal.
  rewrite string_length_drop. unfold len. lia.
Qed.
End PathFacts.

(** X17.  [ReplaceAttr] cuts the file of a source position to its last two
    components, the directory and the file name; a file with fewer than
    two [/] is kept as it is. *)
Theorem ReplaceAttr_last_two (dir a b : string) :
  Index a "/" < 0 → Index b "/" < 0 →
  NamedLoggers.ReplaceAttr NamedLoggers.SourceKey
    (NamedLoggers.SourceOf (dir +:+ "/" +:+ a +:+ "/" +:+ b))
  = Some (NamedLoggers.SourceOf (a +:+ "/" +:+ b))
  ∧ NamedLoggers.ReplaceAttr NamedLoggers.SourceKey (NamedLoggers.SourceOf (a +:+ "/" +:+ b))
    = Some (NamedLoggers.SourceOf (a +:+ "/" +:+ b))
  ∧ NamedLoggers.ReplaceAttr NamedLoggers.SourceKey (NamedLoggers.SourceOf b)
    = Some (NamedLoggers.SourceOf b).
Proof.
  intros Ha Hb. unfold NamedLoggers.ReplaceAttr.
  change (String.eqb NamedLoggers.SourceKey NamedLoggers.SourceKey) with true. cbv iota.
  split; [|split].
  - set (x := dir +:+ "/" +:+ a).
    assert (dir +:+ "/" +:+ a +:+ "/" +:+ b = x +:+ String "/" b) as ->
      by (subst x; by rewrite !append_assoc).
    rewrite (LastIndex_last x "/" b Hb).
    pose proof (len_nonneg x).
    destruct (len x =? -1) eqn:E; [apply Z.eqb_eq in E; lia |].
    rewrite (sliceTo_app x (String "/" b)).
    assert (LastIndex x "/" = len dir) as -> by apply (LastIndex_last dir "/" a Ha).
    pose proof (len_nonneg dir).
    destruct (len dir =? -1) eqn:E'; [apply Z.eqb_eq in E'; lia |].
    pose proof (sliceFrom_app (dir +:+ "/") (a +:+ "/" +:+ b)) as H3.
    rewrite len_app in H3. change (len "/") with 1 in H3.
    replace (x +:+ String "/" b) with ((dir +:+ "/") +:+ a +:+ "/" +:+ b)
      by (subst x; by rewrite !append_assoc).
    by rewrite H3.
  - change ("/" +:+ b) with (String "/" b).
    rewrite (LastIndex_last a "/" b Hb).
    pose proof (len_nonneg a).
    destruct (_ =? -1) eqn:E; [apply Z.eqb_eq in E; lia |].
    rewrite (sliceTo_app a (String "/" b)), (Index_neg_LastIndex _ _ Ha). done.
  - by rewrite (Index_neg_LastIndex _ _ Hb).
Qed.

Lemma ReplaceAttr_last_two_witness :
  NamedLoggers.ReplaceAttr "source" (NamedLoggers.SourceOf "/home/go/src/conf/bind.go")
  = Some (NamedLoggers.SourceOf "conf/bind.go").
Proof.
  apply (proj1 (ReplaceAttr_last_two "/home/go/src" "conf" "bind.go" eq_refl eq_refl)).
Defined.

(** X18.  [ReplaceAttr] does not panic on a source position, whatever its
    file, and the file it leaves is an end of the file it was given; an
    attribute with another key is returned as it is. *)
Theorem ReplaceAttr_total (key file : string) (value : NamedLoggers.AttrValue) :
  (∃ pre file',
     NamedLoggers.ReplaceAttr NamedLoggers.SourceKey (NamedLoggers.SourceOf file)
     = Some (NamedLoggers.SourceOf file')
     ∧ file = pre +:+ file')
  ∧ (key ≠ NamedLoggers.SourceKey → NamedLoggers.ReplaceAttr key value = Some value).
Proof.
  split.
  - unfold NamedLoggers.ReplaceAttr.
    change (String.eqb NamedLoggers.SourceKey NamedLoggers.SourceKey) with true. cbv iota.
    pose proof (LastIndex_range file "/") as Hr.
    pose proof (LastIndex_bound file "/") as Hb. change (len "/") with 1 in Hb.
    destruct (LastIndex file "/" =? -1) eqn:E; [by exists EmptyString, file |].
    apply Z.eqb_neq in E.
    destruct (slice_Some file 0 (LastIndex file "/")) as [dir Hdir]; [lia | lia | lia |].
    unfold sliceTo. rewrite Hdir.
    pose proof (slice_len _ _ _ _ Hdir) as Hlen.
    pose proof (LastIndex_range dir "/") as Hr'.
    pose proof (LastIndex_bound dir "/") as Hb'. change (len "/") with 1 in Hb'.
    destruct (LastIndex dir "/" =? -1) eqn:E'; [by exists EmptyString, file |].
    apply Z.eqb_neq in E'.
    destruct (slice_Some file (LastIndex dir "/" + 1) (len file)) as [y Hy]; [lia | lia | lia |].
    fold (sliceFrom file (LastIndex dir "/" + 1)) in Hy. rewrite Hy.
    destruct (sliceFrom_suffix _ _ _ Hy) as [pre Hpre]. by exists pre, y.
  - intros Hkey. unfold NamedLoggers.ReplaceAttr.
    destruct (String.eqb_spec NamedLoggers.SourceKey key); [congruence | done].
Qed.

Lemma ReplaceAttr_total_witness :
  NamedLoggers.ReplaceAttr "time" (NamedLoggers.AnyOf "12:00") = Some (NamedLoggers.AnyOf "12:00").
Proof.
  apply (proj2 (ReplaceAttr_total "time" "" (NamedLoggers.AnyOf "12:00"))). discriminate.
Defined.

Section NamedLoggersFacts.
Context {Logger : Type} (With : Logger → list (string * string) → Logger)
  (Base : string → string).
Implicit Types (loggers : gmap string (NamedLoggers.namedLogger (Logger := Logger)))
  (l : Logger) (primary : list bool).

(** X19.  A logger set under a name is the one got under that name,
    labelled with the name; set as primary, it is also the one got under
    the empty name, labelled with its own name; and setting it leaves
    what is got under every other name as it was. *)
Theorem SetLogger_GetLogger loggers loggerName l primary typeName :
  let labelled :=
    Some (With l [("logger", loggerName); ("type", Base typeName)]%string) in
  let loggers' := NamedLoggers.SetLogger loggers loggerName l primary in
  NamedLoggers.GetLogger With Base loggers' loggerName typeName = labelled
  ∧ (head primary = Some true →
     NamedLoggers.GetLogger With Base loggers' "" typeName = labelled)
  ∧ (∀ other, other ≠ loggerName →
       other ≠ EmptyString ∨ head primary ≠ Some true →
       NamedLoggers.GetLogger With Base loggers' other typeName
       = NamedLoggers.GetLogger With Base loggers other typeName).
Proof.
  intros labelled loggers'. subst labelled loggers'.
  unfold NamedLoggers.GetLogger, NamedLoggers.SetLogger. split; [|split].
  - destruct primary as [|[] ?].
    + by rewrite lookup_insert_eq.
    + destruct (decide (loggerName = EmptyString)) as [-> | Hne].
      * by rewrite lookup_insert_eq.
      * rewrite lookup_insert_ne by done. by rewrite lookup_insert_eq.
    + by rewrite lookup_insert_eq.
  - destruct primary as [|[] ?]; [done | | done]. intros _.
    by rewrite lookup_insert_eq.
  - intros other Hother Hp. destruct primary as [|[] ?].
    + by rewrite lookup_insert_ne.
    + destruct Hp as [Hp | Hp]; [|done].
      rewrite lookup_insert_ne by done. by rewrite lookup_insert_ne.
    + by rewrite lookup_insert_ne.
Qed.
End NamedLoggersFacts.

Lemma SetLogger_GetLogger_witness :
  let With := λ (l : string) (attrs : list (string * string)), (l, attrs) in
  let loggers := NamedLoggers.SetLogger (∅ : gmap string (NamedLoggers.namedLogger (Logger := string)))
                   "go-spring" "text" [true] in
  NamedLoggers.GetLogger (Logger := string) (λ l attrs, l) id loggers "" "a/b.T" = Some "text"%string.
Proof.
  intros With loggers.
  apply (proj1 (proj2 (SetLogger_GetLogger (Logger := string) (λ l attrs, l) id ∅
                         "go-spring" "text" [true] "a/b.T"))).
  reflexivity.
Defined.

(** X20.  Without a name, [GetLogger] takes the name of the logger from
    the calling function [dir/pkg.Func]: it is [dir/pkg], the text before
    the first [.] behind the last [/].  When the name of the function
    holds no [/], as for a function of package [main], the call panics
    with a slice out of range. *)
Theorem callerLoggerName_package (dir pkg fn funcName : string) :
  (Index pkg "." < 0 → Index pkg "/" < 0 → Index fn "/" < 0 →
   BaseLog.callerLoggerName (dir +:+ "/" +:+ pkg +:+ "." +:+ fn) = Some (dir +:+ "/" +:+ pkg))
  ∧ (Index funcName "/" < 0 → BaseLog.callerLoggerName funcName = None).
Proof.
  split.
  - intros Hdot Hpkg Hfn. unfold BaseLog.callerLoggerName.
    assert (Index (pkg +:+ "." +:+ fn) "/" < 0) as Htail.
    { apply Index_char_app; [done |]. change ("." +:+ fn) with (String "." fn).
      apply Index_cons_neg. split; [by rewrite HasPrefix_cons | done]. }
    pose proof (LastIndex_last dir "/" (pkg +:+ "." +:+ fn) Htail) as Hi.
    change (String "/" (pkg +:+ "." +:+ fn)) with ("/" +:+ pkg +:+ "." +:+ fn) in Hi.
    rewrite Hi, sliceFrom_app.
    change ("/" +:+ pkg +:+ "." +:+ fn) with (String "/" (pkg +:+ String "." fn)).
    rewrite Index_cons. rewrite HasPrefix_cons. change (Ascii.eqb "." "/") with false.
    cbv iota. rewrite (Index_first pkg "." fn Hdot).
    pose proof (len_nonneg pkg).
    destruct (len pkg <? 0) eqn:E; [apply Z.ltb_lt in E; lia |].
    pose proof (sliceTo_app (dir +:+ "/" +:+ pkg) ("." +:+ fn)) as Hs.
    rewrite !len_app in Hs. change (len "/") with 1 in Hs.
    rewrite !append_assoc in Hs.
    change ("/" +:+ pkg +:+ "." +:+ fn) with (String "/" (pkg +:+ String "." fn)) in Hs.
    by rewrite Hs.
  - intros H. unfold BaseLog.callerLoggerName.
    by rewrite (Index_neg_LastIndex _ _ H).
Qed.

Lemma callerLoggerName_package_witness :
  BaseLog.callerLoggerName "github.com/go-spring/spring-core/gs.(*App).Run"
  = Some "github.com/go-spring/spring-core/gs"%string
  ∧ BaseLog.callerLoggerName "main.main" = None.
Proof.
  split.
  - apply (proj1 (callerLoggerName_package "github.com/go-spring/spring-core" "gs"
                    "(*App).Run" "")); reflexivity.
  - apply (proj2 (callerLoggerName_package "" "" "" "main.main")). reflexivity.
Defined.

(** X21.  [GetLogger] makes one logger per name: asked for a name again it
    returns the logger it has made for it and allocates nothing, a new
    name gets a logger that no other name has, and the loggers of the
    other names stay. *)
Theorem GetLogger_registers (st : BaseLog.loggers) (name : string) (more : list string)
    (caller : option string) :
  loggersOk st →
  ∃ l st',
    BaseLog.GetLogger st (name :: more) caller = Some (l, st')
    ∧ BaseLog.usingLoggers st' !! name = Some l
    ∧ (∀ l0, BaseLog.usingLoggers st !! name = Some l0 → l = l0 ∧ st' = st)
    ∧ (∀ other, other ≠ name →
         BaseLog.usingLoggers st' !! other = BaseLog.usingLoggers st !! other)
    ∧ loggersOk st'
    ∧ BaseLog.GetLogger st' [name] caller = Some (l, st').
Proof.
  intros [Halloc Hinj]. unfold BaseLog.GetLogger.
  destruct (BaseLog.usingLoggers st !! name) as [l|] eqn:Hl.
  - exists l, st. rewrite Hl. repeat split; try done; congruence.
  - exists (BaseLog.allocated st),
      (BaseLog.mkLoggers (<[name := BaseLog.allocated st]> (BaseLog.usingLoggers st))
         (S (BaseLog.allocated st))).
    cbn [BaseLog.usingLoggers BaseLog.allocated]. rewrite lookup_insert_eq.
    repeat split; try done; cbn [BaseLog.usingLoggers BaseLog.allocated].
    + intros other Hother. by rewrite lookup_insert_ne.
    + intros n l. destruct (decide (n = name)) as [-> | Hne].
      * rewrite lookup_insert_eq. intros [= <-]. lia.
      * rewrite lookup_insert_ne by done. intros H%Halloc. lia.
    + intros n1 n2 l.
      destruct (decide (n1 = name)) as [-> | Hne1], (decide (n2 = name)) as [-> | Hne2];
        rewrite ?lookup_insert_eq, ?lookup_insert_ne by done; try done.
      * intros [= <-] H%Halloc. lia.
      * intros H%Halloc [= <-]. lia.
      * apply Hinj.
Qed.

Lemma GetLogger_registers_witness :
  ∃ l st',
    BaseLog.GetLogger (BaseLog.mkLoggers ∅ 0) ["Root"%string] None = Some (l, st')
    ∧ BaseLog.usingLoggers st' !! "Root"%string = Some l
    ∧ (∀ l0, (∅ : gmap string nat) !! "Root"%string = Some l0
             → l = l0 ∧ st' = BaseLog.mkLoggers ∅ 0)
    ∧ (∀ other, other ≠ "Root"%string →
         BaseLog.usingLoggers st' !! other = (∅ : gmap string nat) !! other)
    ∧ loggersOk st'
    ∧ BaseLog.GetLogger st' ["Root"%string] None = Some (l, st').
Proof.
  apply (GetLogger_registers (BaseLog.mkLoggers ∅ 0) "Root" [] None).
  split; intros ? ?; [|intros ?]; cbn; by rewrite lookup_empty.
Defined.

(** ** Resources *)

Section LocateFacts.
Context {File OsError : Type} (Join : string → string → string)
  (Open : string → File + OsError) (IsNotExist : OsError → bool).
Implicit Types (locations : list string) (filename : string) (resources : list File).

Lemma locateFrom_found locations filename resources :
  (∀ location err, location ∈ locations →
     Open (Join location filename) = inr err → IsNotExist err = true) →
  Resources.locateFrom Join Open IsNotExist locations filename resources
  = inl (resources ++ omap (opened Join Open filename) locations).
Proof.
  revert resources. induction locations as [|location locations IH]; intros resources H.
  - cbn. by rewrite List.app_nil_r.
  - cbn [Resources.locateFrom omap list_omap]. unfold opened at 1.
    destruct (Open (Join location filename)) as [file|err] eqn:Ho.
    + rewrite IH; [by rewrite <- app_assoc |]. intros l e Hl. apply H. by right.
    + rewrite (H location err) by (done || left).
      apply IH. intros l e Hl. apply H. by right.
Qed.

Lemma locateFrom_error found location rest filename resources err :
  (∀ l e, l ∈ found → Open (Join l filename) = inr e → IsNotExist e = true) →
  Open (Join location filename) = inr err → IsNotExist err = false →
  Resources.locateFrom Join Open IsNotExist (found ++ location :: rest) filename resources
  = inr err.
Proof.
  revert resources. induction found as [|l found IH]; intros resources H Ho Hne.
  - cbn. by rewrite Ho, Hne.
  - cbn [app Resources.locateFrom].
    destruct (Open (Join l filename)) as [file|e] eqn:Hl.
    + apply IH; [|done | done]. intros l' e' Hl'. apply H. by right.
    + rewrite (H l e) by (done || left).
      apply IH; [|done | done]. intros l' e' Hl'. apply H. by right.
Qed.

(** X22.  [Locate] returns the files that open, one for each location
    that has the file and in the order of the locations; a location
    without the file is passed over.  Any other error at a location ends
    the call with that error and without resources, also when files of
    earlier locations were opened. *)
Theorem Locate_spec locations filename :
  ((∀ location err, location ∈ locations →
      Open (Join location filename) = inr err → IsNotExist err = true) →
   Resources.Locate Join Open IsNotExist locations filename
   = inl (omap (opened Join Open filename) locations))
  ∧ (∀ found location rest err,
       locations = found ++ location :: rest →
       (∀ l e, l ∈ found → Open (Join l filename) = inr e → IsNotExist e = true) →
       Open (Join location filename) = inr err → IsNotExist err = false →
       Resources.Locate Join Open IsNotExist locations filename = inr err).
Proof.
  split.
  - intros H. unfold Resources.Locate. by rewrite locateFrom_found.
  - intros found location rest err -> H Ho Hne. by apply locateFrom_error.
Qed.
End LocateFacts.

Lemma Locate_spec_witness :
  let Join := λ dir file : string, dir +:+ file in
  let Open := λ path : string,
    if String.eqb path "config/app.properties" then inl path
    else if String.eqb path "locked/app.properties" then inr false
    else inr true in
  Resources.Locate (File := string) Join Open id ["missing/"; "config/"] "app.properties"
  = inl ["config/app.properties"%string]
  ∧ Resources.Locate (File := string) Join Open id ["config/"; "locked/"; "missing/"]
      "app.properties" = inr false.
Proof.
  intros Join Open. split.
  - apply (proj1 (Locate_spec Join Open id ["missing/"; "config/"] "app.properties")).
    intros location err Hl.
    repeat (apply elem_of_cons in Hl as [-> | Hl]); [| |by apply elem_of_nil in Hl];
      vm_compute; congruence.
  - apply (proj2 (Locate_spec Join Open id ["config/"; "locked/"; "missing/"]
                    "app.properties") ["config/"] "locked/" ["missing/"] false);
      try reflexivity.
    intros l e ->%list_elem_of_singleton. vm_compute. congruence.
Defined.
